(** * pydreamer: the episode generator ([generator.py])

    A shallow embedding of the planner [find_shortest], the policies
    [MazeDijkstraPolicy], [MazeBouncingBallPolicy] and
    [MinigridWanderPolicy], the wrappers [ActionRewardResetWrapper] and
    [CollectWrapper], the main loop of [main] with its episode buffer and
    its discounted return, and the directory scan [count_steps], followed
    by the properties that their specification states about them and by
    further properties read off the code.

    Numbers.  The Python code computes with binary floating point.  A
    number is a rational in canonical form ([Qc]), on which [==] is Leibniz
    equality, as it is on finite floats.  The modules of the program
    compute on these numbers exactly; their properties are those that use
    no law of arithmetic or that rounding leaves true, and their concrete
    inputs are chosen so that the comparisons the source makes on them are
    not within rounding error of a tie.  The properties of the planner that
    depend on the arithmetic are stated on [Planner64], where every
    operation rounds to the nearest double ([Float]).

    Loops.  A [while] loop takes fuel; where a property says that the code
    returns, the proof shows that the fuel is not used up.

    Layout.  Part I holds the embedding, module by module, each followed by
    the notions its properties are stated with.  Part II holds the lemmas
    and theorems. *)

From Stdlib Require Import QArith Qcanon Qround Qpower Qabs ZArith List Bool.
From Stdlib Require Import Lia Lqa.
From Stdlib Require Import Permutation.
From Stdlib Require String Ascii DecimalString DecimalN.
Import ListNotations.

Set Implicit Arguments.

(** * Part I: the program *)

(** ** Numbers *)

Module Num.

Open Scope Qc_scope.

Definition of_Z (z : Z) : Qc := Q2Qc (inject_Z z).

Definition eqb (a b : Qc) : bool := Qeq_bool a b.
Definition ltb (a b : Qc) : bool := negb (Qle_bool b a).
Definition leb (a b : Qc) : bool := Qle_bool a b.

(** [int(x)]: truncation toward zero. *)
Definition py_int (q : Qc) : Z := Z.quot (Qnum q) (Zpos (Qden q)).

(** [round(x)] with one argument: the nearest integer, ties to the even
    one. *)
Definition py_round (q : Qc) : Z :=
  let f := Qfloor q in
  match (this q - inject_Z f ?= 1 # 2)%Q with
  | Lt => f
  | Gt => (f + 1)%Z
  | Eq => if Z.even f then f else (f + 1)%Z
  end.

(** [abs(x)]. *)
Definition abs (q : Qc) : Qc := if ltb q 0 then - q else q.

End Num.

(** ** Python dictionaries, as insertion-ordered association lists *)

Section Dict.

Variables K V : Type.
Variable keq : K -> K -> bool.

Fixpoint dict_get (k : K) (d : list (K * V)) : option V :=
  match d with
  | [] => None
  | (k', v) :: d' => if keq k k' then Some v else dict_get k d'
  end.

(** [d[k] = v]: the entry of [k] is replaced where it stands, a new key goes
    to the end. *)
Fixpoint dict_set (k : K) (v : V) (d : list (K * V)) : list (K * V) :=
  match d with
  | [] => [(k, v)]
  | (k', v') :: d' =>
      if keq k k' then (k', v) :: d' else (k', v') :: dict_set k v d'
  end.

Definition dict_mem (k : K) (d : list (K * V)) : bool :=
  match dict_get k d with Some _ => true | None => false end.

End Dict.

(** ** The planner: [find_shortest] *)

Module Planner.

Import Num.
Open Scope Qc_scope.

(** A pose is the tuple [(x, y, d)]; a key is the tuple of its rounded
    components. *)
Definition pose : Type := Qc * Qc * Qc.
Definition state_key : Type := Qc * Qc * Qc.

(** The actions [0], [1], [2] of [for action in range(3)]. *)
Inductive action : Type := TurnLeft | TurnRight | Forward.

Definition action_code (a : action) : Z :=
  match a with TurnLeft => 0 | TurnRight => 1 | Forward => 2 end.

Definition all_actions : list action := [TurnLeft; TurnRight; Forward].

(** The map is a two-dimensional array, indexed [map[i, j]]: a list of
    rows of equal length. *)
Definition grid : Type := list (list Z).

Definition shape0 (m : grid) : Z := Z.of_nat (length m).
Definition shape1 (m : grid) : Z := Z.of_nat (length (hd [] m)).
Definition cell (m : grid) (i j : Z) : Z :=
  nth (Z.to_nat j) (nth (Z.to_nat i) m []) 0%Z.

Definition WALL : Z := 2.
Definition KPREC : Qc := of_Z 5.
Definition RADIUS : Qc := Q2Qc 0.2.
Definition RUNAWAY : Z := 100000.

Definition triple_eqb (p q : Qc * Qc * Qc) : bool :=
  let '(a, b, c) := p in
  let '(a', b', c') := q in
  eqb a a' && eqb b b' && eqb c c'.

Definition pose_eqb : pose -> pose -> bool := triple_eqb.
Definition key_eqb : state_key -> state_key -> bool := triple_eqb.

(** [round(v * KPREC) / KPREC] *)
Definition key_component (v : Qc) : Qc := of_Z (py_round (v * KPREC)) / KPREC.

Definition key_of (p : pose) : state_key :=
  let '(x, y, d) := p in (key_component x, key_component y, key_component d).

(** The state of the search: the queue and its read index, and the three
    dictionaries. *)
Record search_state : Type := {
  que : list pose;
  que_ix : nat;
  visited : list (state_key * bool);
  parent : list (pose * pose);
  parent_action : list (pose * action)
}.

Inductive error : Type :=
| RunawayDijkstra   (* assert len(visited) < 100000 *)
| KeyError.         (* parent[p] on a missing key *)

Inductive search_outcome : Type :=
| Found (s : search_state) (goal_state : pose)
| Exhausted (s : search_state)
| SearchRaised (e : error)
| SearchOutOfFuel.

Inductive outcome : Type :=
| Returned (actions : list action) (path : list pose) (nvis : nat)
| Raised (e : error)
| OutOfFuel.

Section Search.

(** [cos_deg d] and [sin_deg d] stand for [np.cos(d / 180 * np.pi)] and
    [np.sin(d / 180 * np.pi)]. *)
Variables cos_deg sin_deg : Qc -> Qc.

(** The arguments of [find_shortest], in its order. *)
Variable map : grid.
Variable start : pose.
Variable goal : Z * Z.
Variables step_size turn_size : Qc.

Definition turn_left (d : Qc) : Qc :=
  let d1 := d - turn_size in
  if ltb d1 (- of_Z 180) then d1 + of_Z 360 else d1.

Definition turn_right (d : Qc) : Qc :=
  let d1 := d + turn_size in
  if ltb (of_Z 180) d1 then d1 - of_Z 360 else d1.

(** The condition of the collision test at one probe point. *)
Definition probe_blocked (x2 y2 : Qc) : bool :=
  ltb x2 0 || ltb y2 0
  || leb (of_Z (shape0 map)) x2 || leb (of_Z (shape1 map)) y2
  || (cell map (py_int x2) (py_int y2) =? WALL)%Z.

Definition corners (x1 y1 : Qc) : list (Qc * Qc) :=
  [(x1 - RADIUS, y1 - RADIUS); (x1 + RADIUS, y1 - RADIUS);
   (x1 - RADIUS, y1 + RADIUS); (x1 + RADIUS, y1 + RADIUS)].

(** The loop over the corners: the first blocked probe resets the
    destination to [(x, y)] and leaves the loop. *)
Fixpoint check_corners (x y x1 y1 : Qc) (cs : list (Qc * Qc)) : Qc * Qc :=
  match cs with
  | [] => (x1, y1)
  | (x2, y2) :: cs' =>
      if probe_blocked x2 y2 then (x, y) else check_corners x y x1 y1 cs'
  end.

Definition forward (p : pose) : pose :=
  let '(x, y, d) := p in
  let x1 := x + step_size * cos_deg d in
  let y1 := y + step_size * sin_deg d in
  let '(x1, y1) := check_corners x y x1 y1 (corners x1 y1) in
  (x1, y1, d).

(** The body of [for action in range(3)] up to [p1 = (x1, y1, d1)]. *)
Definition move (p : pose) (a : action) : pose :=
  let '(x, y, d) := p in
  match a with
  | TurnLeft => (x, y, turn_left d)
  | TurnRight => (x, y, turn_right d)
  | Forward => forward p
  end.

(** [int(x) == int(gx) and int(y) == int(gy)]; the goal is a pair of
    integers. *)
Definition at_goal (p : pose) : bool :=
  let '(x, y, _) := p in
  (py_int x =? fst goal)%Z && (py_int y =? snd goal)%Z.

(** The rest of the body: the key test and the four updates. *)
Definition visit (p : pose) (a : action) (s : search_state)
  : error + search_state :=
  let p1 := move p a in
  let key := key_of p1 in
  if dict_mem key_eqb key (visited s) then inr s
  else
    let s' := {| que := que s ++ [p1];
                 que_ix := que_ix s;
                 visited := dict_set key_eqb key true (visited s);
                 parent := dict_set pose_eqb p1 p (parent s);
                 parent_action := dict_set pose_eqb p1 a (parent_action s) |} in
    if (Z.of_nat (length (visited s')) <? RUNAWAY)%Z then inr s'
    else inl RunawayDijkstra.

Fixpoint expand (p : pose) (acts : list action) (s : search_state)
  : error + search_state :=
  match acts with
  | [] => inr s
  | a :: acts' =>
      match visit p a s with
      | inl e => inl e
      | inr s' => expand p acts' s'
      end
  end.

Definition advance (s : search_state) : search_state :=
  {| que := que s; que_ix := S (que_ix s); visited := visited s;
     parent := parent s; parent_action := parent_action s |}.

(** [while que_ix < len(que)]: one unit of fuel per iteration. *)
Fixpoint bfs (fuel : nat) (s : search_state) : search_outcome :=
  match fuel with
  | O => SearchOutOfFuel
  | S fuel' =>
      match nth_error (que s) (que_ix s) with
      | None => Exhausted s
      | Some p =>
          if at_goal p then Found (advance s) p
          else
            match expand p all_actions (advance s) with
            | inl e => SearchRaised e
            | inr s' => bfs fuel' s'
            end
      end
  end.

(** [while p in parent_action]: [path] and [actions] grow at the end. *)
Fixpoint walk_back (fuel : nat) (s : search_state) (p : pose)
    (path : list pose) (actions : list action)
  : option (error + list pose * list action) :=
  match fuel with
  | O => None
  | S fuel' =>
      match dict_get pose_eqb p (parent_action s) with
      | None => Some (inr (path, actions))
      | Some a =>
          match dict_get pose_eqb p (parent s) with
          | None => Some (inl KeyError)
          | Some p' => walk_back fuel' s p' (path ++ [p]) (actions ++ [a])
          end
      end
  end.

(** The state before the loop. *)
Definition initial (p : pose) : search_state :=
  {| que := [p]; que_ix := 0; visited := [(key_of p, true)];
     parent := []; parent_action := [] |}.

(** The fuel of both loops: the cap of the visited set.  It is never used
    up ([find_shortest_terminates] in Part II). *)
Definition search_fuel : nat := Z.to_nat RUNAWAY.

Definition find_shortest : outcome :=
  match bfs search_fuel (initial start) with
  | SearchOutOfFuel => OutOfFuel
  | SearchRaised e => Raised e
  | Exhausted s => Returned [] [] (length (visited s))
  | Found s goal_state =>
      match walk_back (length (que s)) s goal_state [] [] with
      | None => OutOfFuel
      | Some (inl e) => Raised e
      | Some (inr (path, actions)) =>
          Returned (rev actions) (rev path) (length (visited s))
      end
  end.

End Search.

(** *** Notions for the properties of the planner *)

Section Probes.

Variable map : grid.

(** A probe point is outside the map bounds [[0, shape0) x [0, shape1)]. *)
Definition outside_map (x2 y2 : Qc) : Prop :=
  x2 < 0 \/ y2 < 0 \/ of_Z (shape0 map) <= x2 \/ of_Z (shape1 map) <= y2.

(** A probe point lands on a wall cell. *)
Definition on_wall (x2 y2 : Qc) : Prop :=
  cell map (py_int x2) (py_int y2) = WALL.

Definition probe_clear (x2 y2 : Qc) : Prop :=
  ~ outside_map x2 y2 /\ ~ on_wall x2 y2.

(** A pose stands inside the map bounds, in a cell that is no wall. *)
Definition free (p : pose) : Prop :=
  let '(x, y, _) := p in
  0 <= x /\ x < of_Z (shape0 map) /\ 0 <= y /\ y < of_Z (shape1 map) /\
  cell map (py_int x) (py_int y) <> WALL.

End Probes.

Local Open Scope nat_scope.

Section Notions.

Variables cos_deg sin_deg : Qc -> Qc.
Variable map : grid.
Variable goal : Z * Z.
Variables step_size turn_size : Qc.
Variable start : pose.

Local Abbreviation mv := (move cos_deg sin_deg map step_size turn_size).

(** The pose an action sequence leads to. *)
Definition run (p : pose) (acts : list action) : pose := fold_left mv acts p.

(** The poses after each action of a sequence. *)
Fixpoint poses_along (p : pose) (acts : list action) : list pose :=
  match acts with
  | [] => []
  | a :: acts' => mv p a :: poses_along (mv p a) acts'
  end.

(** The invariant of the search follows the queue with a ghost list: each
    queued pose with the action sequence that produced it. *)
Local Abbreviation entry := (pose * list action)%type.

Definition keys_of (G : list entry) : list state_key :=
  List.map (fun e => key_of (fst e)) G.

Record core (G : list entry) (s : search_state) : Prop := {
  core_que : que s = List.map fst G;
  core_visited : visited s = List.map (fun e => (key_of (fst e), true)) G;
  core_parent : List.map fst (parent s) = tl (List.map fst G);
  core_action : List.map fst (parent_action s) = tl (List.map fst G);
  core_nodup : NoDup (keys_of G);
  core_head : nth_error G 0 = Some (start, []);
  core_ix : que_ix s <= length G;
  core_run : forall j q acts, nth_error G j = Some (q, acts) -> run start acts = q;
  core_sorted : forall i j e1 e2, i <= j ->
    nth_error G i = Some e1 -> nth_error G j = Some e2 ->
    length (snd e1) <= length (snd e2);
  core_tree : forall j q acts, nth_error G j = Some (q, acts) ->
    (j = 0 /\ acts = []) \/
    (exists i p pa a, i < que_ix s /\ i < j /\ nth_error G i = Some (p, pa) /\
       acts = pa ++ [a] /\ q = mv p a /\
       dict_get pose_eqb q (parent s) = Some p /\
       dict_get pose_eqb q (parent_action s) = Some a);
  core_depth : forall j e, nth_error G j = Some e -> length (snd e) <= j
}.

(** The successor of [p] by [a] has its key in the queue, at most one level
    below [p]. *)
Definition expanded_for (G : list entry) (p : pose) (pa : list action)
    (a : action) : Prop :=
  exists j q acts, nth_error G j = Some (q, acts) /\
    key_of q = key_of (mv p a) /\ length acts <= S (length pa).

(** The first [n] entries are not at the goal and have been expanded. *)
Definition closed (G : list entry) (n : nat) : Prop :=
  forall i p pa, i < n -> nth_error G i = Some (p, pa) ->
    at_goal goal p = false /\ forall a, expanded_for G p pa a.

Definition inv (G : list entry) (s : search_state) : Prop :=
  core G s /\ closed G (que_ix s).

(** The sizes that bound the search. *)
Definition sized (s : search_state) : Prop :=
  length (que s) = length (visited s) /\
  (Z.of_nat (length (visited s)) < RUNAWAY)%Z /\
  que_ix s <= length (que s).

End Notions.

Local Open Scope Qc_scope.

(** *** Concrete inputs: maps without walls, step 1, turn 90 *)

(** Cosine and sine of a heading in degrees, exact on the multiples of a
    quarter turn (and [0] elsewhere): the instance used for the concrete
    runs below, all of which turn by 90 degrees. *)
Definition cos_quarter (d : Qc) : Qc :=
  if eqb d 0 then 1
  else if eqb d (of_Z 180) || eqb d (- of_Z 180) then - (1) else 0.

Definition sin_quarter (d : Qc) : Qc :=
  if eqb d (of_Z 90) then 1 else if eqb d (- of_Z 90) then - (1) else 0.

Definition open_map (h w : nat) : grid := repeat (repeat 1%Z w) h.

Definition half : Qc := Q2Qc 0.5.
Definition quarter : Qc := Q2Qc 0.25.

Definition corner_start : pose := (quarter, quarter, 0).

(** A cell walled in on all four sides. *)
Definition walled_cell : grid := [[2; 2; 2]; [2; 1; 2]; [2; 2; 2]]%Z.

End Planner.

(** ** Binary floating point *)

Module Float.

Import Num.
Open Scope Qc_scope.

(** A finite double is the rational number it stands for; an operation of
    the source returns the double nearest to the exact result, ties going
    to the even significand.  Results beyond the largest double, which the
    source turns into an infinity, have no counterpart here: the properties
    stated on this arithmetic are about numbers of smaller magnitude. *)

(** [2 ^ e], for an exponent of either sign. *)
Definition pow2 (e : Z) : Qc := Q2Qc (Qpower (2 # 1) e).

(** The exponent of the leading bit of a number that is not zero: the
    largest [k] with [2 ^ k <= |x|]. *)
Definition ilog2 (x : Qc) : Z :=
  let k := (Z.log2 (Z.abs (Qnum x)) - Z.log2 (Zpos (Qden x)))%Z in
  if ltb (abs x) (pow2 k) then (k - 1)%Z else k.

(** The exponent of the last of the 53 significant bits, which for the
    subnormal numbers stays at [-1074]. *)
Definition ulp_exp (x : Qc) : Z := Z.max (ilog2 x - 52) (-1074).

(** The double nearest to [x]. *)
Definition fl (x : Qc) : Qc :=
  if eqb x 0 then 0
  else let e := ulp_exp x in of_Z (py_round (x / pow2 e)) * pow2 e.

(** [a + b], [a - b], [a * b] and [a / b] on doubles. *)
Definition fadd (a b : Qc) : Qc := fl (a + b).
Definition fsub (a b : Qc) : Qc := fl (a - b).
Definition fmul (a b : Qc) : Qc := fl (a * b).
Definition fdiv (a b : Qc) : Qc := fl (a / b).

End Float.

(** ** The planner in binary floating point *)

(** [find_shortest] once more, each operation on numbers now rounded as the
    source rounds it.  The search loop, the collision test and the walk back
    are those of [Planner]; the turns, the forward move and the key are
    restated with the rounded operations. *)

Module Planner64.

Import Num Float Planner.
Open Scope Qc_scope.

(** [RADIUS = 0.2]: the double nearest to [1/5]. *)
Definition RADIUS : Qc := fl (Q2Qc 0.2).

(** [round(v * KPREC) / KPREC]: the product is rounded to a double, [round]
    takes it to an integer, and the quotient is rounded to a double. *)
Definition key_component (v : Qc) : Qc :=
  fdiv (of_Z (py_round (fmul v KPREC))) KPREC.

Definition key_of (p : pose) : state_key :=
  let '(x, y, d) := p in (key_component x, key_component y, key_component d).

Section Search.

(** [cos_deg d] and [sin_deg d] stand for the doubles that
    [np.cos(d / 180 * np.pi)] and [np.sin(d / 180 * np.pi)] return. *)
Variables cos_deg sin_deg : Qc -> Qc.

Variable map : grid.
Variable start : pose.
Variable goal : Z * Z.
Variables step_size turn_size : Qc.

Local Abbreviation at_goal := (Planner.at_goal goal).

Definition turn_left (d : Qc) : Qc :=
  let d1 := fsub d turn_size in
  if ltb d1 (- of_Z 180) then fadd d1 (of_Z 360) else d1.

Definition turn_right (d : Qc) : Qc :=
  let d1 := fadd d turn_size in
  if ltb (of_Z 180) d1 then fsub d1 (of_Z 360) else d1.

Definition corners (x1 y1 : Qc) : list (Qc * Qc) :=
  [(fsub x1 RADIUS, fsub y1 RADIUS); (fadd x1 RADIUS, fsub y1 RADIUS);
   (fsub x1 RADIUS, fadd y1 RADIUS); (fadd x1 RADIUS, fadd y1 RADIUS)].

Definition forward (p : pose) : pose :=
  let '(x, y, d) := p in
  let x1 := fadd x (fmul step_size (cos_deg d)) in
  let y1 := fadd y (fmul step_size (sin_deg d)) in
  let '(x1, y1) := check_corners map x y x1 y1 (corners x1 y1) in
  (x1, y1, d).

Definition move (p : pose) (a : action) : pose :=
  let '(x, y, d) := p in
  match a with
  | TurnLeft => (x, y, turn_left d)
  | TurnRight => (x, y, turn_right d)
  | Forward => forward p
  end.

(** The rest of the body: the key test and the four updates. *)
Definition visit (p : pose) (a : action) (s : search_state)
  : error + search_state :=
  let p1 := move p a in
  let key := key_of p1 in
  if dict_mem key_eqb key (visited s) then inr s
  else
    let s' := {| que := que s ++ [p1];
                 que_ix := que_ix s;
                 visited := dict_set key_eqb key true (visited s);
                 parent := dict_set pose_eqb p1 p (parent s);
                 parent_action := dict_set pose_eqb p1 a (parent_action s) |} in
    if (Z.of_nat (length (visited s')) <? RUNAWAY)%Z then inr s'
    else inl RunawayDijkstra.

Fixpoint expand (p : pose) (acts : list action) (s : search_state)
  : error + search_state :=
  match acts with
  | [] => inr s
  | a :: acts' =>
      match visit p a s with
      | inl e => inl e
      | inr s' => expand p acts' s'
      end
  end.

(** [while que_ix < len(que)]: one unit of fuel per iteration. *)
Fixpoint bfs (fuel : nat) (s : search_state) : search_outcome :=
  match fuel with
  | O => SearchOutOfFuel
  | S fuel' =>
      match nth_error (que s) (que_ix s) with
      | None => Exhausted s
      | Some p =>
          if at_goal p then Found (advance s) p
          else
            match expand p all_actions (advance s) with
            | inl e => SearchRaised e
            | inr s' => bfs fuel' s'
            end
      end
  end.

(** The state before the loop. *)
Definition initial (p : pose) : search_state :=
  {| que := [p]; que_ix := 0; visited := [(key_of p, true)];
     parent := []; parent_action := [] |}.

Definition find_shortest : outcome :=
  match bfs search_fuel (initial start) with
  | SearchOutOfFuel => OutOfFuel
  | SearchRaised e => Raised e
  | Exhausted s => Returned [] [] (length (visited s))
  | Found s goal_state =>
      match walk_back (length (que s)) s goal_state [] [] with
      | None => OutOfFuel
      | Some (inl e) => Raised e
      | Some (inr (path, actions)) =>
          Returned (rev actions) (rev path) (length (visited s))
      end
  end.

End Search.


(** *** Notions for the properties of the planner *)

(** Equality of two numbers in canonical form: the same numerator and the
    same denominator. *)
Definition same (a b : Qc) : bool :=
  (Qnum a =? Qnum b)%Z && (Qden a =? Qden b)%positive.

Definition same_triple (p q : Qc * Qc * Qc) : bool :=
  let '(a, b, c) := p in
  let '(a', b', c') := q in
  same a a' && same b b' && same c c'.

Local Open Scope nat_scope.

Section Notions.

Variables cos_deg sin_deg : Qc -> Qc.
Variable map : grid.
Variable goal : Z * Z.
Variables step_size turn_size : Qc.
Variable start : pose.

Local Abbreviation mv := (move cos_deg sin_deg map step_size turn_size).
Local Abbreviation at_goal := (Planner.at_goal goal).

(** The pose an action sequence leads to. *)
Definition run (p : pose) (acts : list action) : pose := fold_left mv acts p.

(** The poses after each action of a sequence. *)
Fixpoint poses_along (p : pose) (acts : list action) : list pose :=
  match acts with
  | [] => []
  | a :: acts' => mv p a :: poses_along (mv p a) acts'
  end.

(** The invariant of the search follows the queue with a ghost list: each
    queued pose with the action sequence that produced it. *)
Local Abbreviation entry := (pose * list action)%type.

Definition keys_of (G : list entry) : list state_key :=
  List.map (fun e => key_of (fst e)) G.

Record core (G : list entry) (s : search_state) : Prop := {
  core_que : que s = List.map fst G;
  core_visited : visited s = List.map (fun e => (key_of (fst e), true)) G;
  core_parent : List.map fst (parent s) = tl (List.map fst G);
  core_action : List.map fst (parent_action s) = tl (List.map fst G);
  core_nodup : NoDup (keys_of G);
  core_head : nth_error G 0 = Some (start, []);
  core_ix : que_ix s <= length G;
  core_run : forall j q acts, nth_error G j = Some (q, acts) -> run start acts = q;
  core_sorted : forall i j e1 e2, i <= j ->
    nth_error G i = Some e1 -> nth_error G j = Some e2 ->
    length (snd e1) <= length (snd e2);
  core_tree : forall j q acts, nth_error G j = Some (q, acts) ->
    (j = 0 /\ acts = []) \/
    (exists i p pa a, i < que_ix s /\ i < j /\ nth_error G i = Some (p, pa) /\
       acts = pa ++ [a] /\ q = mv p a /\
       dict_get pose_eqb q (parent s) = Some p /\
       dict_get pose_eqb q (parent_action s) = Some a);
  core_depth : forall j e, nth_error G j = Some e -> length (snd e) <= j
}.

(** The successor of [p] by [a] has its key in the queue, at most one level
    below [p]. *)
Definition expanded_for (G : list entry) (p : pose) (pa : list action)
    (a : action) : Prop :=
  exists j q acts, nth_error G j = Some (q, acts) /\
    key_of q = key_of (mv p a) /\ length acts <= S (length pa).

(** The first [n] entries are not at the goal and have been expanded. *)
Definition closed (G : list entry) (n : nat) : Prop :=
  forall i p pa, i < n -> nth_error G i = Some (p, pa) ->
    at_goal p = false /\ forall a, expanded_for G p pa a.

Definition inv (G : list entry) (s : search_state) : Prop :=
  core G s /\ closed G (que_ix s).

(** The sizes that bound the search. *)
Definition sized (s : search_state) : Prop :=
  length (que s) = length (visited s) /\
  (Z.of_nat (length (visited s)) < RUNAWAY)%Z /\
  que_ix s <= length (que s).

(** The poses that action sequences lead to, and those that sequences of
    [n] actions at most lead to. *)
Definition reachable (p : pose) : Prop := exists acts, run start acts = p.

Definition reachable_within (n : nat) (p : pose) : Prop :=
  exists acts, length acts <= n /\ run start acts = p.

(** The discretization is exact on the poses within [n] actions of the
    start: those with the same key agree on the goal test and have
    successors with the same keys. *)
Definition exact_within (n : nat) : Prop :=
  forall p q, reachable_within n p -> reachable_within n q ->
    key_of p = key_of q ->
    at_goal p = at_goal q /\ forall a, key_of (mv p a) = key_of (mv q a).

(** The reachable poses have fewer keys than the cap. *)
Definition bounded_keys : Prop :=
  exists l : list state_key,
    (forall p, reachable p -> In (key_of p) l) /\
    (Z.of_nat (length l) < RUNAWAY)%Z.

(** The poses within [n] actions of the start, each once. *)
Fixpoint insert_all (ps l : list pose) : list pose :=
  match ps with
  | [] => l
  | p :: ps' =>
      insert_all ps' (if existsb (same_triple p) l then l else l ++ [p])
  end.

Fixpoint within (n : nat) : list pose :=
  match n with
  | O => [start]
  | S k =>
      let l := within k in
      insert_all (flat_map (fun p => List.map (mv p) all_actions) l) l
  end.

(** What the exactness compares: the key of a pose, its goal test and the
    keys of its successors. *)
Definition signature (p : pose) : state_key * (bool * list state_key) :=
  (key_of p, (at_goal p, List.map (fun a => key_of (mv p a)) all_actions)).

Definition same_behaviour (s t : bool * list state_key) : bool :=
  Bool.eqb (fst s) (fst t) &&
  forallb (fun kk => same_triple (fst kk) (snd kk)) (combine (snd s) (snd t)).

(** The poses of [l] with the same key have the same goal test and
    successor keys. *)
Definition exact_on (l : list pose) : bool :=
  let sigs := List.map signature l in
  forallb (fun s =>
    forallb (fun t =>
      if same_triple (fst s) (fst t) then same_behaviour (snd s) (snd t)
      else true) sigs)
    sigs.

End Notions.

Local Open Scope Qc_scope.

(** Concrete cos and sin: the doubles of [np.cos] and [np.sin] at the
    multiples of a quarter turn. *)
Definition tiny : Qc := Q2Qc (4967757600021511 # 1) * pow2 (-106).

Definition cos_double (d : Qc) : Qc :=
  if eqb d 0 then 1
  else if eqb d (of_Z 180) || eqb d (- of_Z 180) then - (1)
  else if eqb d (of_Z 90) || eqb d (- of_Z 90) then tiny
  else 0.

Definition sin_double (d : Qc) : Qc :=
  if eqb d (of_Z 90) then 1 else if eqb d (- of_Z 90) then - (1)
  else if eqb d (of_Z 180) then tiny + tiny
  else if eqb d (- of_Z 180) then - (tiny + tiny)
  else 0.

(** The actions and the number of visited keys of an outcome. *)
Definition find_shortest_summary (o : outcome) : option (list action * nat) :=
  match o with Returned a _ n => Some (a, n) | _ => None end.

(** The spec's key: each component rounded to [P] decimal digits, as
    [round(v, P)] rounds a double: the decimal nearest to the number itself,
    then the double nearest to that decimal. *)
Definition round_digits (P : nat) (v : Qc) : Qc :=
  fl (of_Z (py_round (v * of_Z (10 ^ Z.of_nat P))) / of_Z (10 ^ Z.of_nat P)).

Definition round_digits_key (P : nat) (p : pose) : state_key :=
  let '(x, y, d) := p in (round_digits P x, round_digits P y, round_digits P d).

(** The allowance for the two roundings inside a key component. *)
Definition slack (v : Qc) : Qc := pow2 (-50) * (abs v + 1).

(** [k] is the double of a multiple [n / 5] of one fifth, where the integer
    [n] is nearest to [5 v] and [k] is within one tenth of [v], both up to
    the allowance. *)
Definition nearest_fifth (v k : Qc) : Prop :=
  exists n : Z,
    k = fdiv (of_Z n) (of_Z 5) /\
    abs (of_Z n - of_Z 5 * v) <= Q2Qc (1 # 2) + slack v /\
    abs (k - v) <= Q2Qc (1 # 10) + slack v.

End Planner64.

(** ** The navigation policy: [MazeDijkstraPolicy] *)

Module Policy.

Import Num Planner.
Local Open Scope Qc_scope.

(** The fields of the policy object. *)
Record policy : Type := {
  step_size : Qc;
  turn_size : Qc;
  epsilon : Qc;
  _goal : option (Z * Z);
  _expected_pos : option pose
}.

(** The entries of [obs] the policy reads. *)
Record observation : Type := {
  agent_pos : Qc * Qc;
  agent_dir : Qc * Qc;
  map_agent : grid;
  reset : bool
}.

(** [obs] as the dictionary it is: each of the entries that the policy
    reads may be missing. *)
Record obs_dict : Type := {
  get_agent_pos : option (Qc * Qc);
  get_agent_dir : option (Qc * Qc);
  get_map_agent : option grid;
  get_reset : option bool
}.

(** What a call raises before it reads the policy's fields. *)
Inductive entry_error : Type :=
| NeedAgentPosition          (* assert 'agent_pos' in obs *)
| NeedMap                    (* assert 'map_agent' in obs *)
| KeyErrorAgentDir           (* obs['agent_dir'] *)
| KeyErrorReset.             (* obs['reset'] *)

(** The two assertions and the four lookups, in the order of the source. *)
Definition entries (obs : obs_dict) : entry_error + observation :=
  match get_agent_pos obs with
  | None => inl NeedAgentPosition
  | Some pos =>
      match get_map_agent obs with
      | None => inl NeedMap
      | Some map =>
          match get_agent_dir obs with
          | None => inl KeyErrorAgentDir
          | Some dir =>
              match get_reset obs with
              | None => inl KeyErrorReset
              | Some r =>
                  inr {| agent_pos := pos; agent_dir := dir;
                         map_agent := map; reset := r |}
              end
          end
      end
  end.

Inductive call_error : Type :=
| PlannerRaised (e : error)
| TypeError                  (* gx, gy = goal on None *)
| IndexError.                (* path[0] on an empty path *)

Definition set_goal (self : policy) (g : option (Z * Z)) : policy :=
  {| step_size := step_size self; turn_size := turn_size self;
     epsilon := epsilon self; _goal := g;
     _expected_pos := _expected_pos self |}.

Definition set_expected_pos (self : policy) (e : option pose) : policy :=
  {| step_size := step_size self; turn_size := turn_size self;
     epsilon := epsilon self; _goal := _goal self; _expected_pos := e |}.

(** [np.isclose(a, b, rtol)] with the default [atol = 1e-8], on one
    component: [|a - b| <= atol + rtol * |b|]. *)
Definition ATOL : Qc := Q2Qc (1 # 100000000).

Definition isclose (a b rtol : Qc) : bool :=
  leb (abs (a - b)) (ATOL + rtol * abs b).

(** [np.isclose(self._expected_pos[:2], [x, y], 1e-3).all()] *)
Definition pos_isclose (e : pose) (x y : Qc) : bool :=
  let '(ex, ey, _) := e in
  isclose ex x (Q2Qc (1 # 1000)) && isclose ey y (Q2Qc (1 # 1000)).

Section Call.

(** [cos_deg] and [sin_deg] as in the planner; [heading_of dy dx] stands for
    [np.arctan2(dy, dx) / np.pi * 180]. *)
Variables cos_deg sin_deg : Qc -> Qc.
Variable heading_of : Qc -> Qc -> Qc.

(** numpy's global random generator: [randint n] is [np.random.randint(n)]
    and [rand] is [np.random.rand()], each returning the generator's next
    state. *)
Variable rng : Type.
Variable randint : Z -> rng -> Z * rng.
Variable rand : rng -> Qc * rng.

Inductive call_outcome : Type :=
| Acted (action : Z) (self : policy) (g : rng)
| CallRaised (e : call_error)
| CallOutOfFuel.

(** [_generate_goal]: rejection sampling, one unit of fuel per draw. *)
Fixpoint _generate_goal (fuel : nat) (map : grid) (g : rng)
  : option ((Z * Z) * rng) :=
  match fuel with
  | O => None
  | S fuel' =>
      let (x, g1) := randint (shape0 map) g in
      let (y, g2) := randint (shape1 map) g1 in
      if negb (cell map x y =? WALL)%Z then Some ((x, y), g2)
      else _generate_goal fuel' map g2
  end.

(** [if obs['reset']: ...] *)
Definition on_reset (self : policy) (obs : observation) : policy :=
  if reset obs then set_expected_pos (set_goal self None) None else self.

(** [if self._goal is None: ...] *)
Definition ensure_goal (fuel : nat) (self : policy) (map : grid) (g : rng)
  : option (policy * rng) :=
  match _goal self with
  | Some _ => Some (self, g)
  | None =>
      match _generate_goal fuel map g with
      | Some (goal, g') => Some (set_goal self (Some goal), g')
      | None => None
      end
  end.

(** [if self._expected_pos is not None: if not np.isclose(...).all(): ...] *)
Definition check_drift (fuel : nat) (self : policy) (map : grid)
    (x y : Qc) (g : rng) : option (policy * rng) :=
  match _expected_pos self with
  | Some e =>
      if negb (pos_isclose e x y) then
        match _generate_goal fuel map g with
        | Some (goal, g') => Some (set_goal self (Some goal), g')
        | None => None
        end
      else Some (self, g)
  | None => Some (self, g)
  end.

(** [while True: ...]: plan, act on a non-empty plan, draw a new goal on an
    empty one. *)
Fixpoint plan_loop (fuel : nat) (self : policy) (map : grid) (p : pose)
    (g : rng) : call_outcome :=
  match fuel with
  | O => CallOutOfFuel
  | S fuel' =>
      match _goal self with
      | None => CallRaised TypeError
      | Some goal =>
          match find_shortest cos_deg sin_deg map p goal (step_size self)
                  (turn_size self) with
          | OutOfFuel => CallOutOfFuel
          | Raised e => CallRaised (PlannerRaised e)
          | Returned [] _ _ =>
              match _generate_goal fuel' map g with
              | Some (goal', g') =>
                  plan_loop fuel' (set_goal self (Some goal')) map p g'
              | None => CallOutOfFuel
              end
          | Returned (a :: _) path _ =>
              let (u, g1) := rand g in
              if ltb u (epsilon self) then
                let (r, g2) := randint 3 g1 in
                Acted r (set_expected_pos self None) g2
              else
                match path with
                | p0 :: _ =>
                    Acted (action_code a) (set_expected_pos self (Some p0)) g1
                | [] => CallRaised IndexError
                end
          end
      end
  end.

Definition call (fuel : nat) (self : policy) (obs : observation) (g : rng)
  : call_outcome :=
  let '(x, y) := agent_pos obs in
  let '(dx, dy) := agent_dir obs in
  let d := heading_of dy dx in
  let map := map_agent obs in
  let self := on_reset self obs in
  match ensure_goal fuel self map g with
  | None => CallOutOfFuel
  | Some (self, g) =>
      match check_drift fuel self map x y g with
      | None => CallOutOfFuel
      | Some (self, g) => plan_loop fuel self map (x, y, d) g
      end
  end.

(** [__call__] on the dictionary: the assertions and the lookups, then the
    rest of the body. *)
Definition call_obs (fuel : nat) (self : policy) (obs : obs_dict) (g : rng)
  : entry_error + call_outcome :=
  match entries obs with
  | inl e => inl e
  | inr o => inr (call fuel self o g)
  end.
(** The pose the policy plans from. *)
Definition observed_pose (obs : observation) : pose :=
  (fst (agent_pos obs), snd (agent_pos obs),
   heading_of (snd (agent_dir obs)) (fst (agent_dir obs))).

End Call.

(** *** Notions and concrete inputs for the properties of the policy *)

(** A generator that reads its draws from a list: [randint n] reduces the
    next number modulo [n], [rand] reads it in thousandths. *)
Definition tape_randint (n : Z) (t : list Z) : Z * list Z :=
  match t with
  | [] => (0%Z, [])
  | z :: t' => ((z mod n)%Z, t')
  end.

Definition tape_rand (t : list Z) : Qc * list Z :=
  match t with
  | [] => (0, [])
  | z :: t' => (of_Z (z mod 1000) / of_Z 1000, t')
  end.

(** The heading of the four axis directions. *)
Definition heading_quarter (dy dx : Qc) : Qc :=
  if eqb dy 0 then (if ltb dx 0 then of_Z 180 else 0)
  else if ltb 0 dy then of_Z 90 else - of_Z 90.

Definition tape_call : nat -> policy -> observation -> list Z -> call_outcome (list Z) :=
  call cos_quarter sin_quarter heading_quarter tape_randint tape_rand.

(** The action, the goal held afterwards and the generator's state. *)
Definition summary (rng : Type) (o : call_outcome rng)
  : option (Z * option (Z * Z) * rng) :=
  match o with
  | Acted a self g => Some (a, _goal self, g)
  | _ => None
  end.

(** The fields that no call assigns. *)
Definition same_settings (s s' : policy) : Prop :=
  step_size s' = step_size s /\ turn_size s' = turn_size s /\
  epsilon s' = epsilon s.

(** The spec's reading of the drift test: all three components of the pose
    are compared. *)
Definition pose_isclose (e p : pose) : bool :=
  let '(ex, ey, ed) := e in
  let '(x, y, d) := p in
  isclose ex x (Q2Qc (1 # 1000)) && isclose ey y (Q2Qc (1 # 1000))
  && isclose ed d (Q2Qc (1 # 1000)).

(** The dictionary with the four entries of an observation. *)
Definition dict_of (o : observation) : obs_dict :=
  {| get_agent_pos := Some (agent_pos o); get_agent_dir := Some (agent_dir o);
     get_map_agent := Some (map_agent o); get_reset := Some (reset o) |}.

Definition navigator (goal : Z * Z) (expected : pose) : policy :=
  {| step_size := 1; turn_size := of_Z 90; epsilon := Q2Qc 0.1;
     _goal := Some goal; _expected_pos := Some expected |}.

(** The agent at [(0.25, 0.25)] on the open 5 x 5 map, looking along [x]. *)
Definition at_corner : observation :=
  {| agent_pos := (quarter, quarter); agent_dir := (1, 0);
     map_agent := open_map 5 5; reset := false |}.

(** The agent in the middle of the walled-in cell. *)
Definition walled_in : observation :=
  {| agent_pos := (of_Z 1 + half, of_Z 1 + half); agent_dir := (1, 0);
     map_agent := walled_cell; reset := false |}.

End Policy.

(** ** The bouncing policy: [MazeBouncingBallPolicy] *)

Module Bouncing.

Import Num.

(** The fields of the policy object.  The position is held by value: the
    environment is taken to return a new array with every observation. *)
Record policy : Type := {
  pos : option (Qc * Qc);
  turns_remaining : Z
}.

(** [__init__] *)
Definition init : policy := {| pos := None; turns_remaining := 0 |}.

Inductive call_error : Type :=
| NeedPosition   (* assert 'agent_pos' in obs *)
| NoAction.      (* assert action >= 0 *)

(** [np.all(self.pos == pos)] *)
Definition pos_eqb (p q : Qc * Qc) : bool :=
  eqb (fst p) (fst q) && eqb (snd p) (snd q).

Section Call.

(** [randint n] is [np.random.randint(n)]. *)
Variable rng : Type.
Variable randint : Z -> rng -> Z * rng.

(** [if self.turns_remaining == 0: ...] *)
Definition decide (self : policy) (p : Qc * Qc) (action : Z) (g : rng)
  : Z * policy * rng :=
  if (turns_remaining self =? 0)%Z then
    if match pos self with
       | None => true
       | Some q => negb (pos_eqb q p)
       end
    then (2%Z, {| pos := Some p; turns_remaining := turns_remaining self |}, g)
    else
      let (r, g') := randint 2 g in
      (action,
       {| pos := None;
          turns_remaining := if (r =? 0)%Z then (-1)%Z else 1%Z |}, g')
  else (action, self, g).

(** [if self.turns_remaining > 0: ... elif self.turns_remaining < 0: ...] *)
Definition turn (self : policy) (action : Z) : Z * policy :=
  if (turns_remaining self >? 0)%Z then
    (1%Z, {| pos := pos self; turns_remaining := (turns_remaining self - 1)%Z |})
  else if (turns_remaining self <? 0)%Z then
    (0%Z, {| pos := pos self; turns_remaining := (turns_remaining self + 1)%Z |})
  else (action, self).

(** [__call__]; [agent_pos] is [None] when the observation has no such
    key. *)
Definition call (self : policy) (agent_pos : option (Qc * Qc)) (g : rng)
  : call_error + Z * policy * rng :=
  match agent_pos with
  | None => inl NeedPosition
  | Some p =>
      let '(action, self, g) := decide self p (-1)%Z g in
      let '(action, self) := turn self action in
      if (action >=? 0)%Z then inr (action, self, g) else inl NoAction
  end.

(** The calls of one episode, for the positions observed. *)
Fixpoint calls (self : policy) (ps : list (Qc * Qc)) (g : rng)
  : call_error + list Z * policy * rng :=
  match ps with
  | [] => inr ([], self, g)
  | p :: ps' =>
      match call self (Some p) g with
      | inl e => inl e
      | inr (a, self', g') =>
          match calls self' ps' g' with
          | inl e => inl e
          | inr (acts, self'', g'') => inr (a :: acts, self'', g'')
          end
      end
  end.

End Call.

(** *** Notions for the properties of the bouncing policy *)

Definition is_turn (a : Z) : Prop := a = 0%Z \/ a = 1%Z.

(** No two turns follow each other. *)
Fixpoint turns_apart (acts : list Z) : Prop :=
  match acts with
  | a :: ((b :: _) as rest) => ~ (is_turn a /\ is_turn b) /\ turns_apart rest
  | _ => True
  end.

End Bouncing.

(** ** The wandering policy: [MinigridWanderPolicy] *)

Module Wander.

Import Num.
Local Open Scope Z_scope.

(** What the policy reads of a row of [MiniGrid.GRID_VALUES], a table of
    the environment: its entries [0] (the kind of object) and [2] (its
    state).  The kinds the policy tells apart are [1] (empty), [2] (wall),
    [4] (door) and [8] (goal); a door is open in state [0] and closed in
    state [1]. *)
Record tile : Type := { kind : Z; state : Z }.

(** [kind in empty], with [empty = [1, 8]]: empty or goal. *)
Definition is_empty (k : Z) : bool := (k =? 1) || (k =? 8).

Section Call.

(** [rand] is [np.random.rand()]. *)
Variable rng : Type.
Variable rand : rng -> Qc * rng.

(** [cond and np.random.rand() < p]: the draw is made only when [cond]
    holds. *)
Definition chance (cond : bool) (p : Qc) (g : rng) : bool * rng :=
  if cond then let (u, g') := rand g in (ltb u p, g') else (false, g).

(** Lines 296 to 336 of [__call__], for the tiles in front, on the left and
    on the right of the agent. *)
Definition call (front left right : tile) (g : rng) : Z * rng :=
  let (door_left, g) := chance (kind left =? 4) (Q2Qc 0.5) g in
  if door_left then (0, g) else
  let (door_right, g) := chance (kind right =? 4) (Q2Qc 0.5) g in
  if door_right then (1, g) else
  let (empty_left, g) := chance (is_empty (kind left)) (Q2Qc 0.1) g in
  if empty_left then (0, g) else
  let (empty_right, g) := chance (is_empty (kind right)) (Q2Qc 0.1) g in
  if empty_right then (1, g) else
  if (kind front =? 4) && (state front =? 1) then (5, g) else
  if is_empty (kind front) || ((kind front =? 4) && (state front =? 0))
  then (2, g) else
  if (kind left =? 2) && negb (kind right =? 2) then (1, g) else
  if (kind right =? 2) && negb (kind left =? 2) then (0, g) else
  let (u, g) := rand g in
  if ltb u (Q2Qc 0.5) then (0, g) else (1, g).

End Call.

(** *** Notions for the properties of the wandering policy *)

(** The agent can step on the tile: empty, goal, or an open door. *)
Definition passable (t : tile) : Prop :=
  kind t = 1 \/ kind t = 8 \/ (kind t = 4 /\ state t = 0).

Definition closed_door (t : tile) : Prop := kind t = 4 /\ state t = 1.

(** A tile next to which the policy makes no random draw: neither a door
    nor empty. *)
Definition plain (t : tile) : Prop :=
  kind t <> 4 /\ kind t <> 1 /\ kind t <> 8.

End Wander.

(** ** The bookkeeping wrapper: [ActionRewardResetWrapper] *)

Module Wrapper.

Import Num.

(** An action is an [int] or a one-hot array. *)
Inductive action : Type :=
| IntAction (i : Z)
| ArrayAction (a : list Qc).

Inductive step_error : Type :=
| IndexError        (* action_onehot[action] out of range *)
| AssertionError.   (* Wrong one-hot action shape *)

Section Env.

(** The wrapped environment: its state, the observation it returns (the
    fields of the dictionary before the wrapper adds its own) and its
    [info]. *)
Variables env fields info : Type.
Variable env_step : action -> env -> (fields * Qc * bool * info) * env.
Variable env_reset : env -> fields * env.

(** The observation dictionary after the wrapper's four assignments. *)
Record observation : Type := {
  obs_fields : fields;
  obs_action : list Qc;
  obs_reward : Qc;
  obs_terminal : bool;
  obs_reset : bool
}.

Record wrapper : Type := {
  _env : env;
  _max_steps : Z;
  _epstep : Z;
  _action_size : nat
}.

Definition zeros (n : nat) : list Qc := repeat 0%Qc n.

Fixpoint set_nth (i : nat) (v : Qc) (l : list Qc) : list Qc :=
  match l, i with
  | [], _ => []
  | _ :: l', O => v :: l'
  | x :: l', S i' => x :: set_nth i' v l'
  end.

(** [action_onehot]: an index of [[-n, n)] counts from the end when it is
    negative, any other raises. *)
Definition onehot (n : nat) (a : action) : step_error + list Qc :=
  match a with
  | IntAction i =>
      if ((0 <=? i) && (i <? Z.of_nat n))%Z then
        inr (set_nth (Z.to_nat i) 1%Qc (zeros n))
      else if ((- Z.of_nat n <=? i) && (i <? 0))%Z then
        inr (set_nth (Z.to_nat (i + Z.of_nat n)) 1%Qc (zeros n))
      else inl IndexError
  | ArrayAction v =>
      if (length v =? n)%nat then inr v else inl AssertionError
  end.

Definition step (w : wrapper) (a : action)
  : step_error + (observation * Qc * bool * info) * wrapper :=
  let epstep := (_epstep w + 1)%Z in
  let '(ob, reward, done, inf, e) := env_step a (_env w) in
  match onehot (_action_size w) a with
  | inl err => inl err
  | inr action_onehot =>
      let obs := {| obs_fields := ob;
                    obs_action := action_onehot;
                    obs_reward := reward;
                    obs_terminal :=
                      if (epstep <? _max_steps w)%Z then done else false;
                    obs_reset := false |} in
      inr (obs, reward, done, inf,
           {| _env := e; _max_steps := _max_steps w; _epstep := epstep;
              _action_size := _action_size w |})
  end.

Definition reset (w : wrapper) : observation * wrapper :=
  let '(ob, e) := env_reset (_env w) in
  ({| obs_fields := ob; obs_action := zeros (_action_size w);
      obs_reward := 0%Qc; obs_terminal := false; obs_reset := true |},
   {| _env := e; _max_steps := _max_steps w; _epstep := 0;
      _action_size := _action_size w |}).

(** The steps of one episode, for the actions a policy chose. *)
Fixpoint rollout (w : wrapper) (acts : list action)
  : step_error + list (observation * Qc * bool * info) :=
  match acts with
  | [] => inr []
  | a :: acts' =>
      match step w a with
      | inl err => inl err
      | inr (r, w') =>
          match rollout w' acts' with
          | inl err => inl err
          | inr rs => inr (r :: rs)
          end
      end
  end.

End Env.

(** *** A concrete environment *)

(** A corridor: the state counts the steps taken, every step gives reward
    [0], and the third step reaches the end ([done]). *)
Definition corridor_step (a : action) (n : nat)
  : (nat * Qc * bool * unit) * nat :=
  ((S n, 0%Qc, (S n =? 3)%nat, tt), S n).

Definition corridor_reset (n : nat) : nat * nat := (O, O).

(** The wrapper around it, its step counter left over from an earlier
    episode. *)
Definition corridor (max_steps : Z) : wrapper nat :=
  {| _env := O; _max_steps := max_steps; _epstep := 7; _action_size := 3 |}.

Definition terminals (r : step_error + list (observation nat * Qc * bool * unit))
  : option (list (bool * bool)) :=
  match r with
  | inr rs => Some (List.map (fun x => (snd (fst x), obs_terminal (fst (fst (fst x))))) rs)
  | inl _ => None
  end.

(** *** Notions for the properties of the wrapper *)

(** The one-hot vector of length [n] for the index [k]. *)
Definition hot (n k : nat) : list Qc :=
  List.map (fun j => if (j =? k)%nat then 1%Qc else 0%Qc) (seq 0 n).

End Wrapper.

(** ** The recording wrapper: [CollectWrapper] *)

Module Collect.

(** An observation is a dictionary from strings to values; [obs.copy()]
    is the dictionary itself, the values being held by value. *)
Definition lookup (V : Type) (k : String.string) (d : list (String.string * V))
  : option V :=
  dict_get String.eqb k d.

Section Env.

(** The wrapped environment: its state, the values its observations hold,
    its rewards, its [info] and its actions. *)
Variables env value reward info action : Type.

Definition obs_dict : Type := list (String.string * value).

(** The episode attached to [info]: for each key the array of its values,
    one per recorded observation. *)
Definition episode : Type := list (String.string * list value).

Variable env_step : action -> env -> (obs_dict * reward * bool * info) * env.
Variable env_reset : env -> obs_dict * env.

Record wrapper : Type := {
  _env : env;
  _episode : list obs_dict
}.

(** [__init__] *)
Definition init (e : env) : wrapper := {| _env := e; _episode := [] |}.

Inductive step_error : Type :=
| KeyError      (* t[k] on an observation without the key k *)
| IndexError.   (* self._episode[0] on an empty list *)

(** [[t[k] for t in self._episode]]; [None] is a [KeyError]. *)
Fixpoint column (k : String.string) (ep : list obs_dict) : option (list value) :=
  match ep with
  | [] => Some []
  | t :: ep' =>
      match lookup k t with
      | None => None
      | Some v =>
          match column k ep' with
          | None => None
          | Some vs => Some (v :: vs)
          end
      end
  end.

(** [{k: np.array(...) for k in keys}] *)
Fixpoint columns (keys : list String.string) (ep : list obs_dict)
  : option episode :=
  match keys with
  | [] => Some []
  | k :: keys' =>
      match column k ep with
      | None => None
      | Some vs =>
          match columns keys' ep with
          | None => None
          | Some cols => Some ((k, vs) :: cols)
          end
      end
  end.

(** The dictionary comprehension of [step]: the keys are those of the
    first recorded observation. *)
Definition episode_of (ep : list obs_dict) : step_error + episode :=
  match ep with
  | [] => inl IndexError
  | t0 :: _ =>
      match columns (List.map fst t0) ep with
      | None => inl KeyError
      | Some cols => inr cols
      end
  end.

(** [step]; the [info] returned is that of the environment with the entry
    ['episode'], when it is set. *)
Definition step (w : wrapper) (a : action)
  : step_error + (obs_dict * reward * bool * (info * option episode)) * wrapper :=
  let '(obs, r, done, inf, e) := env_step a (_env w) in
  let ep := _episode w ++ [obs] in
  let w' := {| _env := e; _episode := ep |} in
  if done then
    match episode_of ep with
    | inl err => inl err
    | inr cols => inr (obs, r, done, (inf, Some cols), w')
    end
  else inr (obs, r, done, (inf, None), w').

Definition reset (w : wrapper) : obs_dict * wrapper :=
  let '(obs, e) := env_reset (_env w) in
  (obs, {| _env := e; _episode := [obs] |}).

(** The steps for a list of actions. *)
Fixpoint steps (w : wrapper) (acts : list action)
  : step_error +
    list (obs_dict * reward * bool * (info * option episode)) * wrapper :=
  match acts with
  | [] => inr ([], w)
  | a :: acts' =>
      match step w a with
      | inl err => inl err
      | inr (r, w') =>
          match steps w' acts' with
          | inl err => inl err
          | inr (rs, w'') => inr (r :: rs, w'')
          end
      end
  end.

End Env.

End Collect.

(** ** The episode buffer of [main] and the directory scan [count_steps] *)

Module Shards.

Import String Ascii DecimalString DecimalN.
Local Open Scope string_scope.
Local Open Scope Z_scope.

Local Abbreviation lookup := Collect.lookup.

(** *** Strings *)

(** The decimal digits of a natural number, as [str] writes them. *)
Definition digits (n : N) : string := NilEmpty.string_of_uint (N.to_uint n).

Fixpoint zeros (n : nat) : string :=
  match n with
  | O => ""
  | S n' => String "0" (zeros n')
  end.

Definition zfill (width : nat) (s : string) : string :=
  zeros (width - String.length s) ++ s.

(** [f'{z}'] *)
Definition str (z : Z) : string :=
  if z <? 0 then "-" ++ digits (Z.to_N (- z)) else digits (Z.to_N z).

(** [f'{z:0w}']: zeros between the sign and the digits. *)
Definition format_zero (width : nat) (z : Z) : string :=
  if z <? 0 then "-" ++ zfill (width - 1) (digits (Z.to_N (- z)))
  else zfill width (digits (Z.to_N z)).

(** [s.isnumeric()], on ASCII strings: not empty, decimal digits only. *)
Definition isnumeric (s : string) : bool :=
  match s with
  | "" => false
  | _ => match NilEmpty.uint_of_string s with Some _ => true | None => false end
  end.

(** [int(s)] for a string of digits. *)
Definition int (s : string) : option Z :=
  match NilEmpty.uint_of_string s with
  | Some d => Some (Z.of_N (N.of_uint d))
  | None => None
  end.

(** [s.split(sep)] for a separator of one character. *)
Fixpoint split (sep : ascii) (s : string) : list string :=
  match s with
  | "" => [""]
  | String c s' =>
      match split sep s' with
      | [] => []
      | tok :: rest =>
          if Ascii.eqb c sep then "" :: tok :: rest
          else String c tok :: rest
      end
  end.

(** [s.replace('ep', '')] *)
Fixpoint replace_ep (s : string) : string :=
  match s with
  | String "e" (String "p" s') => replace_ep s'
  | String c s' => String c (replace_ep s')
  | "" => ""
  end.

(** [l[-1]] and [l[-2]]; [None] is an [IndexError]. *)
Definition item_last (l : list string) : option string :=
  match rev l with
  | x :: _ => Some x
  | [] => None
  end.

Definition item_before_last (l : list string) : option string :=
  match rev l with
  | _ :: x :: _ => Some x
  | _ => None
  end.

(** [sorted(names)], by insertion. *)
Fixpoint insert_sorted (x : string) (l : list string) : list string :=
  match l with
  | [] => [x]
  | y :: l' => if String.leb x y then x :: y :: l' else y :: insert_sorted x l'
  end.

Definition sorted (l : list string) : list string :=
  fold_right insert_sorted [] l.

(** *** The writer: lines 194 to 223 of [main] *)

(** Lines 218 to 221. *)
Definition shard_name (seed episodes datas_episodes datas_steps : Z) : string :=
  if datas_episodes >? 1 then
    "s" ++ str seed ++ "-ep" ++ format_zero 6 (episodes - datas_episodes)
      ++ "_" ++ format_zero 6 (episodes - 1)
      ++ "-" ++ format_zero 4 datas_steps ++ ".npz"
  else
    "s" ++ str seed ++ "-ep" ++ format_zero 6 (episodes - 1)
      ++ "-" ++ format_zero 4 datas_steps ++ ".npz".

(** What the buffer raises: the [KeyError] of a lookup, and the
    [ValueError] of [np.concatenate] on arrays of different shapes and of
    [transpose] on an array that has not four axes. *)
Inductive save_error : Type :=
| KeyError (key : string)
| ShapeError.

(** Two shapes are the same. *)
Fixpoint same_shape (s t : list nat) : bool :=
  match s, t with
  | [], [] => true
  | a :: s', b :: t' => (a =? b)%nat && same_shape s' t'
  | _, _ => false
  end.

(** [del d[k]] *)
Definition remove_key (V : Type) (k : string) (d : list (string * V))
  : list (string * V) :=
  filter (fun kv => negb (String.eqb k (fst kv))) d.

Section Buffer.

(** An array is the list of its slices along the first axis, its rows, with
    the lengths of the other axes; [len(a)] is the number of rows.  An
    episode is a dictionary of arrays, as [CollectWrapper] builds it. *)
Variable row : Type.

Record array : Type := {
  tail_shape : list nat;
  rows : list row
}.

Definition episode : Type := list (string * array).

Variables seed steps_per_npz : Z.

(** [sum(len(d['reset']) - 1 for d in datas)] *)
Fixpoint buffered_steps (datas : list episode) : save_error + Z :=
  match datas with
  | [] => inr 0
  | d :: datas' =>
      match lookup "reset" d with
      | None => inl (KeyError "reset")
      | Some a =>
          match buffered_steps datas' with
          | inl e => inl e
          | inr n => inr (Z.of_nat (List.length (rows a)) - 1 + n)
          end
      end
  end.

(** [[b[key] for b in datas]] *)
Fixpoint gather (key : string) (datas : list episode)
  : save_error + list array :=
  match datas with
  | [] => inr []
  | b :: datas' =>
      match lookup key b with
      | None => inl (KeyError key)
      | Some a =>
          match gather key datas' with
          | inl e => inl e
          | inr l => inr (a :: l)
          end
      end
  end.

(** [np.concatenate(l, axis=0)] *)
Definition concatenate (l : list array) : save_error + array :=
  match l with
  | [] => inl ShapeError
  | a :: l' =>
      if forallb (fun b => same_shape (tail_shape b) (tail_shape a)) l'
      then inr {| tail_shape := tail_shape a;
                  rows := List.concat (List.map rows l) |}
      else inl ShapeError
  end.

(** [for key in datas[0]: data[key] = np.concatenate(...)], on the keys
    that are left. *)
Fixpoint concat_keys (keys : list string) (datas : list episode)
    (data : episode) : save_error + episode :=
  match keys with
  | [] => inr data
  | key :: keys' =>
      match gather key datas with
      | inl e => inl e
      | inr l =>
          match concatenate l with
          | inl e => inl e
          | inr a => concat_keys keys' datas (dict_set String.eqb key a data)
          end
      end
  end.

(** An array as it is saved: as recorded, or with the first axis moved to
    the end, [a.transpose(1, 2, 3, 0)]. *)
Inductive saved : Type :=
| Kept (a : array)
| Transposed (a : array).

(** What one flush writes: the name and the data. *)
Record shard : Type := {
  fname : string;
  data : list (string * saved)
}.

(** Lines 209 and 210. *)
Definition image_last (data : episode) : save_error + list (string * saved) :=
  match lookup "image" data with
  | None => inl (KeyError "image")
  | Some image =>
      if (List.length (tail_shape image) =? 3)%nat then
        inr (remove_key "image"
               (dict_set String.eqb "image_t" (Transposed image)
                  (List.map (fun kv => (fst kv, Kept (snd kv))) data)))
      else inl ShapeError
  end.

(** The buffer part of one pass of the main loop, after [episodes += 1]:
    the new buffer and the shard written, if one is. *)
Definition save_episode (datas : list episode) (episodes : Z)
    (ep : episode) : save_error + (list episode * option shard) :=
  let datas := (datas ++ [ep])%list in
  let datas_episodes := Z.of_nat (List.length datas) in
  match buffered_steps datas with
  | inl e => inl e
  | inr datas_steps =>
      if datas_steps >=? steps_per_npz then
        match concat_keys (List.map fst (hd [] datas)) datas [] with
        | inl e => inl e
        | inr data =>
            match image_last data with
            | inl e => inl e
            | inr data =>
                inr ([], Some {| fname := shard_name seed episodes
                                            datas_episodes datas_steps;
                                 data := data |})
            end
        end
      else inr (datas, None)
  end.

(** The passes of the main loop for the episodes [eps], in order: the shards
    written, and the buffer left with the episode counter, or the
    exception that ends the run. *)
Fixpoint run_episodes (datas : list episode) (episodes : Z)
    (eps : list episode) : list shard * (save_error + list episode * Z) :=
  match eps with
  | [] => ([], inr (datas, episodes))
  | ep :: eps' =>
      let episodes := episodes + 1 in
      match save_episode datas episodes ep with
      | inl e => ([], inl e)
      | inr (datas', written) =>
          let (out, r) := run_episodes datas' episodes eps' in
          (match written with Some sh => sh :: out | None => out end, r)
      end
  end.

End Buffer.

(** *** The scan: [count_steps] *)

(** [f.name.split('.')[0]] *)
Definition stem (name : string) : string := hd "" (split "." name).

(** [....replace('ep', '').split('_')[-1]] *)
Definition episode_token (tok : string) : option string :=
  item_last (split "_" (replace_ep tok)).

Inductive scan_error : Type := IndexError | ValueError.

(** The body of the loop over the files. *)
Definition count_file (acc : Z * Z) (name : string) : scan_error + Z * Z :=
  let '(steps, episodes) := acc in
  let tokens := split "-" (stem name) in
  match item_last tokens with
  | None => inl IndexError
  | Some sstep =>
      match (if isnumeric sstep
             then option_map (Z.add steps) (int sstep) else Some steps) with
      | None => inl ValueError
      | Some steps =>
          match item_before_last tokens with
          | None => inl IndexError
          | Some tok =>
              match episode_token tok with
              | None => inl IndexError
              | Some sepisode =>
                  match (if isnumeric sepisode
                         then option_map (fun i => Z.max episodes (i + 1))
                                (int sepisode)
                         else Some episodes) with
                  | None => inl ValueError
                  | Some episodes => inr (steps, episodes)
                  end
              end
          end
      end
  end.

Fixpoint count_loop (files : list string) (acc : Z * Z) : scan_error + Z * Z :=
  match files with
  | [] => inr acc
  | f :: files' =>
      match count_file acc f with
      | inl e => inl e
      | inr acc' => count_loop files' acc'
      end
  end.

(** [listing] is what [artifact_dir.glob('*.npz')] yields, in the order of
    the file system. *)
Definition count_steps (listing : list string) : scan_error + Z * Z :=
  count_loop (sorted listing) (0, 0).

(** *** Notions for the properties of the writer and the scan *)

(** [c] occurs in [s]. *)
Fixpoint has (c : ascii) (s : string) : bool :=
  match s with
  | "" => false
  | String c' s' => Ascii.eqb c c' || has c s'
  end.

(** The characters that separate tokens, and the [e] of [ep], are no
    digits. *)
Definition separator (c : ascii) : Prop :=
  c = "."%char \/ c = "-"%char \/ c = "_"%char \/ c = "e"%char.

(** The arguments under which the writer names a shard. *)
Definition well_formed (sh : Z * Z * Z * Z) : Prop :=
  let '(seed, episodes, n, steps) := sh in
  0 <= steps /\ 1 <= n <= episodes.

Definition is_ascii (s : string) : bool :=
  forallb (fun c => (N_of_ascii c <? 128)%N) (list_ascii_of_string s).

(** A name the scan passes over: it has two tokens at least, and neither
    its last token nor its episode token is numeric. *)
Definition ignored (name : string) : bool :=
  is_ascii name &&
  match item_last (split "-" (stem name)),
        item_before_last (split "-" (stem name)) with
  | Some sstep, Some tok =>
      negb (isnumeric sstep) &&
      match episode_token tok with
      | Some sepisode => negb (isnumeric sepisode)
      | None => false
      end
  | _, _ => false
  end.

(** What a name adds to the step counter, and the episode count it
    proposes. *)
Definition steps_in (name : string) : Z :=
  match count_file (0, 0) name with inr (a, _) => a | inl _ => 0 end.

Definition episodes_in (name : string) : Z :=
  match count_file (0, 0) name with inr (_, b) => b | inl _ => 0 end.

Definition scannable (name : string) : Prop :=
  forall s e, 0 <= e ->
    count_file (s, e) name = inr (s + steps_in name, Z.max e (episodes_in name)).

Definition total_steps (l : list string) : Z :=
  fold_right Z.add 0 (List.map steps_in l).

Definition max_episodes (l : list string) : Z :=
  fold_right Z.max 0 (List.map episodes_in l).

(** A written shard: its seed, the indices of its first and last episode,
    and its step count. *)
Record written : Type := {
  w_seed : Z;
  w_first : Z;
  w_last : Z;
  w_steps : Z
}.

Definition valid (w : written) : Prop :=
  0 <= w_steps w /\ 0 <= w_first w <= w_last w.

(** The name the writer gives it: [episodes] is one more than the last
    index, [datas_episodes] the number of episodes. *)
Definition written_name (w : written) : string :=
  shard_name (w_seed w) (w_last w + 1) (w_last w - w_first w + 1) (w_steps w).

Definition sum_steps (ws : list written) : Z :=
  fold_right Z.add 0 (List.map w_steps ws).

(** The largest last index, [-1] when there is no shard. *)
Definition max_index (ws : list written) : Z :=
  fold_right Z.max (-1) (List.map w_last ws).

(** The spec's file name pattern, [s<seed>-ep<first>[_<last>]-<steps>.npz],
    for the episodes [first] to [last]. *)
Definition name_of_range (seed first last steps : Z) : string :=
  "s" ++ str seed ++ "-ep" ++ format_zero 6 first
    ++ (if last >? first then "_" ++ format_zero 6 last else "")
    ++ "-" ++ format_zero 4 steps ++ ".npz".

Section BufferNotions.

Variable row : Type.
Variables seed steps_per_npz : Z.

(** An episode with the number of steps that it took. *)
Local Abbreviation taken := (nat * episode row)%type.

Definition steps_taken (l : list taken) : Z :=
  fold_right Z.add 0 (List.map (fun e => Z.of_nat (fst e)) l).

(** The keys of an episode with the shapes of their rows. *)
Definition layout (d : episode row) : list (string * list nat) :=
  List.map (fun kv => (fst kv, tail_shape (snd kv))) d.

(** [L] has an image of three axes besides the first. *)
Definition with_image (L : list (string * list nat)) : Prop :=
  exists h w c, lookup "image" L = Some [h; w; c].

(** The record of an episode of [n] steps, with the layout [L]: its entry
    [reset] has a row for the reset and a row for each step. *)
Definition recorded (L : list (string * list nat)) (e : taken) : Prop :=
  layout (snd e) = L /\
  exists a, lookup "reset" (snd e) = Some a /\ List.length (rows a) = S (fst e).

(** The rows under [key] in the episodes of [g], in order. *)
Definition rows_of (key : string) (g : list taken) : list row :=
  List.concat
    (List.map (fun e => match lookup key (snd e) with
                        | Some a => rows a
                        | None => []
                        end) g).

(** The data of a shard hold the episodes of [g] whole and in order: under
    each key of the layout the rows of the episodes, those of [image] under
    [image_t], and nothing else. *)
Definition holds (L : list (string * list nat)) (g : list taken)
    (sh : shard row) : Prop :=
  forall key : string,
    lookup key (data sh) =
    if String.eqb key "image" then None
    else if String.eqb key "image_t" then
      match lookup "image" L with
      | Some s => Some (Transposed {| tail_shape := s; rows := rows_of "image" g |})
      | None => None
      end
    else
      match lookup key L with
      | Some s => Some (Kept {| tail_shape := s; rows := rows_of key g |})
      | None => None
      end.

(** No non-empty prefix of the buffer has reached the threshold. *)
Definition pending (buf : list taken) : Prop :=
  forall pre post, buf = (pre ++ post)%list -> pre <> [] ->
    steps_taken pre < steps_per_npz.

(** The shards written, each with the episodes that were flushed into it,
    the first of them starting at episode [first]: a shard is named after
    the index range of its episodes and the steps they took, holds them
    whole, was written when the steps reached the threshold, and not
    before. *)
Fixpoint flushes_ok (L : list (string * list nat)) (first : Z)
    (groups : list (list taken)) (out : list (shard row)) : Prop :=
  match groups, out with
  | [], [] => True
  | g :: groups', sh :: out' =>
      let n := Z.of_nat (List.length g) in
      g <> [] /\
      fname sh = name_of_range seed first (first + n - 1) (steps_taken g) /\
      holds L g sh /\
      steps_per_npz <= steps_taken g /\
      (forall pre post, g = (pre ++ post)%list ->
         pre <> [] -> post <> [] -> steps_taken pre < steps_per_npz) /\
      flushes_ok L (first + n) groups' out'
  | _, _ => False
  end.

End BufferNotions.

(** An episode of [n] steps with the entries [reset] and [image], its rows
    numbered from [from]. *)
Definition numbered_layout : list (string * list nat) :=
  [("reset", []); ("image", [7; 7; 3]%nat)].

Definition numbered (from n : nat) : nat * episode nat :=
  (n, [("reset", {| tail_shape := []; rows := seq from (S n) |});
       ("image", {| tail_shape := [7; 7; 3]%nat; rows := seq from (S n) |})]).


End Shards.

(** ** The discounted return of [main] *)

Module Returns.

Local Open Scope Qc_scope.

(** [scipy.signal.lfilter([1], [1, -gamma], x)] on a one-dimensional
    array: [y[n] = x[n] + gamma * y[n - 1]], with [y[-1] = 0]. *)
Fixpoint lfilter (gamma prev : Qc) (x : list Qc) : list Qc :=
  match x with
  | [] => []
  | v :: x' => let y := v + gamma * prev in y :: lfilter gamma y x'
  end.

(** [discount]: the filter runs over the reversed array, and the result is
    reversed. *)
Definition discount (x : list Qc) (gamma : Qc) : list Qc :=
  rev (lfilter gamma 0 (rev x)).

(** The return from a step on: the rewards from it on, each discounted by
    its distance. *)
Fixpoint return_to_go (gamma : Qc) (x : list Qc) : Qc :=
  match x with
  | [] => 0
  | r :: x' => r + gamma * return_to_go gamma x'
  end.

(** The returns from each step on. *)
Fixpoint returns_to_go (gamma : Qc) (x : list Qc) : list Qc :=
  match x with
  | [] => []
  | r :: x' => return_to_go gamma x :: returns_to_go gamma x'
  end.

End Returns.

(** ** The main loop of [main] *)

Module Generator.

Import String.
Import Num Shards.
Local Open Scope string_scope.
Local Open Scope Z_scope.

Local Abbreviation lookup := Collect.lookup.

Section Main.

(** The policy and the environment, the two wrappers included, are state
    machines whose calls return or raise.  A policy returns its action and
    its metrics; the third component of a step is [info.get('episode')],
    the record that [CollectWrapper] sets when [done] is true.  The world
    outside is the clock and the store of checkpoints:
    [now] is [time.time()], [load_checkpoint p] is
    [mlflow_load_checkpoint(policy.model)], which returns the step of the
    checkpoint that it has loaded into the model and [0] where the source
    has a false value, and [sleep] is [time.sleep(10)]. *)
Variables policy env obs action row metric exn world : Type.
Variable act :
  policy -> obs -> exn + (action * list (string * metric)) * policy.
Variable env_reset : env -> exn + obs * env.
Variable env_step :
  action -> env -> exn + (obs * bool * option (episode row)) * env.
Variable now : world -> Qc * world.
Variable load_checkpoint : policy -> world -> Z * policy * world.
Variable sleep : world -> world.

(** The row that [np.array] makes of a metric, and of [np.nan]. *)
Variable metric_row : option metric -> row.

Variables seed steps_per_npz num_steps : Z.

(** [model is not None]: the policy is the network policy. *)
Variable has_model : bool.
Variable model_reload_interval : Qc.

(** The variables of the loop, the world, and the shards written so far. *)
Record state : Type := {
  steps : Z;
  episodes : Z;
  datas : list (episode row);
  last_model_load : Qc;
  model_step : Z;
  the_policy : policy;
  the_env : env;
  the_world : world;
  saved : list (shard row)
}.

Inductive main_error : Type :=
| Failed (e : exn)            (* raised by the policy or the environment *)
| MissingEpisode              (* KeyError: info['episode'] *)
| MissingReward               (* KeyError: data['reward'] *)
| ZeroDivisionError           (* epsteps / (time.time() - timer + 1e-6) *)
| SaveFailed (e : save_error).

Inductive outcome : Type :=
| Done (st : state)
| Raised (e : main_error)
| OutOfFuel.

(** [while True: ...], lines 116 to 124: one unit of fuel per attempt.  It
    returns the step of the checkpoint and the time of the load. *)
Fixpoint wait_for_checkpoint (fuel : nat) (p : policy) (w : world)
  : option (Z * Qc * policy * world) :=
  match fuel with
  | O => None
  | S fuel' =>
      let '(step, p1, w1) := load_checkpoint p w in
      if step =? 0 then wait_for_checkpoint fuel' p1 (sleep w1)
      else let (t, w2) := now w1 in Some (step, t, p1, w2)
  end.

(** [for k, v in mets.items(): metrics[k].append(v)] *)
Definition record_metrics (mets : list (string * metric))
    (metrics : list (string * list metric)) : list (string * list metric) :=
  fold_left
    (fun m kv =>
       dict_set String.eqb (fst kv)
         (match lookup (fst kv) m with
          | Some l => l ++ [snd kv]
          | None => [snd kv]
          end)%list m)
    mets metrics.

(** [while not done: ...], lines 134 to 140: one unit of fuel per step.
    The loop is entered with [done = False], so that its body runs once at
    least. *)
Fixpoint unroll (fuel : nat) (o : obs) (p : policy) (e : env)
    (steps epsteps : Z) (metrics : list (string * list metric))
  : option (exn + Z * Z * option (episode row) * list (string * list metric)
                  * policy * env) :=
  match fuel with
  | O => None
  | S fuel' =>
      match act p o with
      | inl x => Some (inl x)
      | inr (a, mets, p') =>
          match env_step a e with
          | inl x => Some (inl x)
          | inr (o', done, inf, e') =>
              let steps := steps + 1 in
              let epsteps := epsteps + 1 in
              let metrics := record_metrics mets metrics in
              if done then Some (inr (steps, epsteps, inf, metrics, p', e'))
              else unroll fuel' o' p' e' steps epsteps metrics
          end
      end
  end.

(** [metrics[k]] on the [defaultdict], read as an array with [np.nan] at
    one end. *)
Definition metric_rows (k : string) (metrics : list (string * list metric))
  : list row :=
  List.map (fun v => metric_row (Some v))
    (match lookup k metrics with Some l => l | None => [] end).

(** Lines 144 to 147. *)
Definition with_metrics (metrics : list (string * list metric))
    (data : episode row) : episode row :=
  match lookup "policy_value" metrics with
  | Some _ =>
      let data :=
        dict_set String.eqb "policy_value"
          {| tail_shape := [];
             rows := metric_rows "policy_value" metrics ++ [metric_row None] |}
          data in
      let data :=
        dict_set String.eqb "policy_entropy"
          {| tail_shape := [];
             rows := metric_rows "policy_entropy" metrics ++ [metric_row None] |}
          data in
      dict_set String.eqb "action_prob"
        {| tail_shape := [];
           rows := metric_row None :: metric_rows "action_prob" metrics |}
        data
  | None => data
  end.

(** Lines 114 to 124: the checkpoint is loaded again when the last load is
    older than the reload interval. *)
Definition reload (wait_fuel : nat) (st : state) : option state :=
  if has_model then
    let (t, w) := now (the_world st) in
    if ltb model_reload_interval (t - last_model_load st)%Qc then
      match wait_for_checkpoint wait_fuel (the_policy st) w with
      | None => None
      | Some (step, t1, p, w1) =>
          Some {| steps := steps st; episodes := episodes st;
                  datas := datas st; last_model_load := t1;
                  model_step := step; the_policy := p;
                  the_env := the_env st; the_world := w1;
                  saved := saved st |}
      end
    else
      Some {| steps := steps st; episodes := episodes st; datas := datas st;
              last_model_load := last_model_load st;
              model_step := model_step st; the_policy := the_policy st;
              the_env := the_env st; the_world := w; saved := saved st |}
  else Some st.

(** [while steps < num_steps: ...], lines 112 to 223: one unit of [fuel]
    per episode, [episode_fuel] for the steps of each episode and
    [wait_fuel] for the attempts to load a checkpoint.  The visited
    statistics, the prints and the metrics that are logged read the
    variables of the loop and assign none of them; of these lines the
    model keeps what can raise: the division of line 162 and the lookup
    of [reward] of line 169. *)
Fixpoint main_loop (episode_fuel wait_fuel fuel : nat) (st : state)
  : outcome :=
  match fuel with
  | O => OutOfFuel
  | S fuel' =>
      if steps st <? num_steps then
        match reload wait_fuel st with
        | None => OutOfFuel
        | Some st =>
            let (timer, w) := now (the_world st) in
            match env_reset (the_env st) with
            | inl x => Raised (Failed x)
            | inr (o, e) =>
                match unroll episode_fuel o (the_policy st) e (steps st) 0 []
                with
                | None => OutOfFuel
                | Some (inl x) => Raised (Failed x)
                | Some (inr (_, _, None, _, _, _)) => Raised MissingEpisode
                | Some (inr (steps', epsteps, Some data, metrics, p', e')) =>
                    let episodes' := episodes st + 1 in
                    let data := with_metrics metrics data in
                    let (t, w) := now w in
                    if eqb (t - timer + Q2Qc (1 # 1000000))%Qc 0 then
                      Raised ZeroDivisionError
                    else
                      match lookup "reward" data with
                      | None => Raised MissingReward
                      | Some _ =>
                          match save_episode seed steps_per_npz (datas st)
                                  episodes' data with
                          | inl x => Raised (SaveFailed x)
                          | inr (datas', written) =>
                              main_loop episode_fuel wait_fuel fuel'
                                {| steps := steps'; episodes := episodes';
                                   datas := datas';
                                   last_model_load := last_model_load st;
                                   model_step := model_step st;
                                   the_policy := p'; the_env := e';
                                   the_world := w;
                                   saved :=
                                     (saved st ++
                                      match written with
                                      | Some sh => [sh]
                                      | None => []
                                      end)%list |}
                          end
                      end
                end
            end
        end
      else Done st
  end.

(** *** Notions for the properties of the main loop *)

(** Every episode ends within [limit] steps of its reset without an
    exception, and its last step carries its record, which has the layout
    [L] once the metrics are added, a row for the reset and a row for each
    step under [reset], and an entry [reward]. *)
Definition episodes_end (L : list (string * list nat)) (limit : nat) : Prop :=
  forall (p : policy) (e : env) (s : Z),
    match env_reset e with
    | inr (o, e1) =>
        match unroll limit o p e1 s 0 [] with
        | Some (inr (_, epsteps, Some data, metrics, _, _)) =>
            recorded L (Z.to_nat epsteps, with_metrics metrics data) /\
            lookup "reward" (with_metrics metrics data) <> None
        | _ => False
        end
    | inl _ => False
    end.

(** The clock does not run backwards. *)
Definition clock_runs : Prop :=
  forall w : world, (fst (now w) <= fst (now (snd (now w))))%Qc.

End Main.

(** *** A concrete environment *)

(** A corridor of three steps that records its observations as
    [CollectWrapper] does: the state is the list of the observations since
    the reset, an observation is the number of steps since the reset.  The
    policy returns no metrics, nothing raises, no checkpoint is ever found,
    and the clock, which starts at 100, ticks at each reading. *)
Definition corridor_layout : list (string * list nat) :=
  [("reset", []); ("reward", []); ("image", [7; 7; 3]%nat)].

Definition corridor_record (e : list nat) : episode nat :=
  [("reset", {| tail_shape := []; rows := e |});
   ("reward", {| tail_shape := []; rows := e |});
   ("image", {| tail_shape := [7; 7; 3]%nat; rows := e |})].

Definition corridor_reset (e : list nat) : unit + nat * list nat :=
  inr (O, [O]).

Definition corridor_step (a : unit) (e : list nat)
  : unit + (nat * bool * option (episode nat)) * list nat :=
  let o := List.length e in
  let e' := (e ++ [o])%list in
  inr ((o, (3 <=? o)%nat,
        if (3 <=? o)%nat then Some (corridor_record e') else None), e').

Definition idle (p : unit) (o : nat)
  : unit + (unit * list (string * unit)) * unit :=
  inr ((tt, []), p).

Definition tick (w : nat) : Qc * nat := (of_Z (Z.of_nat w), S w).

Definition no_checkpoint (p : unit) (w : nat) : Z * unit * nat := (0, p, w).

Definition corridor_start : state unit (list nat) nat nat :=
  {| steps := 0; episodes := 0; datas := []; last_model_load := 0%Qc;
     model_step := 0; the_policy := tt; the_env := []; the_world := 100%nat;
     saved := [] |}.

Definition corridor_main (has_model : bool) (num_steps steps_per_npz : Z)
    (fuel : nat) : outcome unit (list nat) nat unit nat :=
  main_loop idle corridor_reset corridor_step tick no_checkpoint (fun w => w)
    (fun _ => O) 0 steps_per_npz num_steps has_model (of_Z 60) 3 5 fuel
    corridor_start.

End Generator.

(** * Part II: the properties *)

(** ** Numbers *)

Module NumFacts.

Import Num.
Open Scope Qc_scope.

Lemma eqb_eq (a b : Qc) : eqb a b = true <-> a = b.
Proof.
  unfold eqb. rewrite Qeq_bool_iff. split.
  - apply Qc_is_canon.
  - intros ->. reflexivity.
Qed.

Lemma ltb_lt (a b : Qc) : ltb a b = true <-> a < b.
Proof.
  unfold ltb, Qclt. rewrite negb_true_iff, <- not_true_iff_false, Qle_bool_iff.
  split; intros H.
  - now apply Qnot_le_lt.
  - now apply Qlt_not_le.
Qed.

Lemma ltb_ge (a b : Qc) : ltb a b = false <-> b <= a.
Proof.
  unfold ltb, Qcle. rewrite negb_false_iff. apply Qle_bool_iff.
Qed.

Lemma leb_le (a b : Qc) : leb a b = true <-> a <= b.
Proof. unfold leb, Qcle. apply Qle_bool_iff. Qed.

Lemma this_plus (x y : Qc) : (this (x + y) == this x + this y)%Q.
Proof. unfold Qcplus, Q2Qc. cbn [this]. apply Qred_correct. Qed.

Lemma this_opp (x : Qc) : (this (- x) == - this x)%Q.
Proof. unfold Qcopp, Q2Qc. cbn [this]. apply Qred_correct. Qed.

Lemma this_minus (x y : Qc) : (this (x - y) == this x - this y)%Q.
Proof. unfold Qcminus. rewrite this_plus, this_opp. reflexivity. Qed.

Lemma this_mult (x y : Qc) : (this (x * y) == this x * this y)%Q.
Proof. unfold Qcmult, Q2Qc. cbn [this]. apply Qred_correct. Qed.

Lemma this_Q2Qc (q : Q) : (this (Q2Qc q) == q)%Q.
Proof. unfold Q2Qc. cbn [this]. apply Qred_correct. Qed.

Lemma this_inv (x : Qc) : (this (/ x) == / this x)%Q.
Proof. unfold Qcinv, Q2Qc. cbn [this]. apply Qred_correct. Qed.

Lemma this_div (x y : Qc) : (this (x / y) == this x / this y)%Q.
Proof. unfold Qcdiv. rewrite this_mult, this_inv. reflexivity. Qed.

End NumFacts.

(** Linear arithmetic on [Qc], by translation to [Q]. *)
Ltac qc_lra :=
  unfold Qcle, Qclt, Num.of_Z in *;
  repeat match goal with
  | H : context [this (_ + _)%Qc] |- _ => rewrite NumFacts.this_plus in H
  | H : context [this (_ - _)%Qc] |- _ => rewrite NumFacts.this_minus in H
  | H : context [this (- _)%Qc] |- _ => rewrite NumFacts.this_opp in H
  | H : context [this (_ * _)%Qc] |- _ => rewrite NumFacts.this_mult in H
  | H : context [this (Q2Qc _)] |- _ => rewrite NumFacts.this_Q2Qc in H
  | |- context [this (_ + _)%Qc] => rewrite NumFacts.this_plus
  | |- context [this (_ - _)%Qc] => rewrite NumFacts.this_minus
  | |- context [this (- _)%Qc] => rewrite NumFacts.this_opp
  | |- context [this (_ * _)%Qc] => rewrite NumFacts.this_mult
  | |- context [this (Q2Qc _)] => rewrite NumFacts.this_Q2Qc
  end;
  unfold inject_Z in *; lra.

(** Closed comparisons of numbers, by evaluation. *)
Ltac qc_decide :=
  vm_compute;
  first [ reflexivity | let H := fresh in intro H; discriminate H ].

(** ** Dictionaries *)

Section DictFacts.

Variables K V : Type.
Variable keq : K -> K -> bool.
Hypothesis keq_eq : forall a b, keq a b = true <-> a = b.

Lemma dict_get_none (k : K) (d : list (K * V)) :
  dict_get keq k d = None <-> ~ In k (map fst d).
Proof.
  induction d as [| [k' v] d IH]; simpl.
  - tauto.
  - destruct (keq k k') eqn:E.
    + apply keq_eq in E. subst. split; [discriminate | tauto].
    + rewrite IH. split; [| tauto].
      intros H [H' | H']; [| tauto].
      subst. rewrite (proj2 (keq_eq k k) eq_refl) in E. discriminate.
Qed.

Lemma dict_mem_false (k : K) (d : list (K * V)) :
  dict_mem keq k d = false <-> ~ In k (map fst d).
Proof.
  unfold dict_mem. rewrite <- dict_get_none.
  destruct (dict_get keq k d); split; congruence.
Qed.

Lemma dict_set_new (k : K) (v : V) (d : list (K * V)) :
  ~ In k (map fst d) -> dict_set keq k v d = d ++ [(k, v)].
Proof.
  induction d as [| [k' v'] d IH]; simpl; intros H.
  - reflexivity.
  - destruct (keq k k') eqn:E.
    + apply keq_eq in E. subst. tauto.
    + rewrite IH by tauto. reflexivity.
Qed.

Lemma dict_get_app (k : K) (d d' : list (K * V)) :
  dict_get keq k (d ++ d') =
  match dict_get keq k d with Some v => Some v | None => dict_get keq k d' end.
Proof.
  induction d as [| [k' v] d IH]; simpl.
  - reflexivity.
  - destruct (keq k k'); [reflexivity | apply IH].
Qed.

Lemma dict_get_in (k : K) (v : V) (d : list (K * V)) :
  dict_get keq k d = Some v -> In (k, v) d.
Proof.
  induction d as [| [k' v'] d IH]; simpl; [discriminate |].
  destruct (keq k k') eqn:E.
  - apply keq_eq in E. intros [= ->]. subst. now left.
  - auto.
Qed.

End DictFacts.

(** ** The planner *)

Module PlannerFacts.

Import Num NumFacts Planner.
Local Open Scope Qc_scope.

(** *** Headings *)

(** Both turns keep a heading of [[-180, 180]] in that interval; the left
    turn can end on [-180] and never on [180], the right turn the other way
    round. *)
Lemma turn_left_range (turn_size d : Qc) :
  0 < turn_size -> turn_size < of_Z 360 ->
  - of_Z 180 <= d -> d <= of_Z 180 ->
  - of_Z 180 <= turn_left turn_size d /\ turn_left turn_size d < of_Z 180.
Proof.
  intros Ht0 Ht1 Hd0 Hd1. unfold turn_left.
  destruct (ltb (d - turn_size) (- of_Z 180)) eqn:E.
  - apply ltb_lt in E. split; qc_lra.
  - apply ltb_ge in E. split; qc_lra.
Qed.

Lemma turn_right_range (turn_size d : Qc) :
  0 < turn_size -> turn_size < of_Z 360 ->
  - of_Z 180 <= d -> d <= of_Z 180 ->
  - of_Z 180 < turn_right turn_size d /\ turn_right turn_size d <= of_Z 180.
Proof.
  intros Ht0 Ht1 Hd0 Hd1. unfold turn_right.
  destruct (ltb (of_Z 180) (d + turn_size)) eqn:E.
  - apply ltb_lt in E. split; qc_lra.
  - apply ltb_ge in E. split; qc_lra.
Qed.

(** *** The collision test *)

Section Forward.

Variable map : grid.

Local Abbreviation outside_map := (Planner.outside_map map).
Local Abbreviation on_wall := (Planner.on_wall map).
Local Abbreviation probe_clear := (Planner.probe_clear map).

Lemma probe_blocked_true (x2 y2 : Qc) :
  probe_blocked map x2 y2 = true <-> outside_map x2 y2 \/ on_wall x2 y2.
Proof.
  unfold probe_blocked, outside_map, on_wall.
  rewrite !orb_true_iff, !ltb_lt, !leb_le, Z.eqb_eq. tauto.
Qed.

Lemma probe_blocked_false (x2 y2 : Qc) :
  probe_blocked map x2 y2 = false <-> probe_clear x2 y2.
Proof.
  unfold probe_clear. rewrite <- not_true_iff_false, probe_blocked_true. tauto.
Qed.

End Forward.

(** *** The discretization key *)

Lemma py_round_near (q : Qc) :
  (inject_Z (py_round q) - (1 # 2) <= q <= inject_Z (py_round q) + (1 # 2))%Q.
Proof.
  unfold py_round.
  pose proof (Qfloor_le q) as Hlo. pose proof (Qlt_floor q) as Hhi.
  rewrite inject_Z_plus in Hhi. change (inject_Z 1) with 1%Q in Hhi.
  destruct (Qcompare_spec (this q - inject_Z (Qfloor q)) (1 # 2)) as [E | E | E];
    [destruct (Z.even (Qfloor q)) | |];
    rewrite ?inject_Z_plus; change (inject_Z 1) with 1%Q;
    generalize dependent (inject_Z (Qfloor q)); generalize (this q);
    intros; split; lra.
Qed.

(** *** The search: invariant of the loop *)

Local Open Scope nat_scope.

Lemma triple_eqb_eq (p q : Qc * Qc * Qc) : triple_eqb p q = true <-> p = q.
Proof.
  destruct p as [[a b] c], q as [[a' b'] c']. unfold triple_eqb.
  rewrite !andb_true_iff, !eqb_eq. split.
  - intros [[-> ->] ->]. reflexivity.
  - intros [= -> -> ->]. auto.
Qed.

Lemma nth_error_snoc (A : Type) (l : list A) (x e : A) (j : nat) :
  nth_error (l ++ [x]) j = Some e <->
  (j < length l /\ nth_error l j = Some e) \/ (j = length l /\ e = x).
Proof.
  destruct (Nat.lt_ge_cases j (length l)) as [H | H].
  - rewrite nth_error_app1 by assumption. split; [auto | intros [[_ E] | [E _]]]; [easy | lia].
  - rewrite nth_error_app2 by assumption. split.
    + intros E. right. destruct (j - length l) as [| n] eqn:D; simpl in E.
      * injection E as <-. split; [lia | reflexivity].
      * destruct n; discriminate.
    + intros [[H' _] | [-> ->]]; [lia |]. now rewrite Nat.sub_diag.
Qed.

Lemma nth_error_extend (A : Type) (l t : list A) (e : A) (j : nat) :
  nth_error l j = Some e -> nth_error (l ++ t) j = Some e.
Proof.
  intros H. rewrite nth_error_app1; [assumption |].
  apply nth_error_Some. congruence.
Qed.

Lemma pose_eqb_eq (p q : pose) : pose_eqb p q = true <-> p = q.
Proof. apply triple_eqb_eq. Qed.

Lemma key_eqb_eq (p q : state_key) : key_eqb p q = true <-> p = q.
Proof. apply triple_eqb_eq. Qed.

Section Correctness.

Variables cos_deg sin_deg : Qc -> Qc.
Variable map : grid.
Variable goal : Z * Z.
Variables step_size turn_size : Qc.
Variable start : pose.

Local Abbreviation mv := (move cos_deg sin_deg map step_size turn_size).
Local Abbreviation visit_ := (visit cos_deg sin_deg map step_size turn_size).
Local Abbreviation expand_ := (expand cos_deg sin_deg map step_size turn_size).
Local Abbreviation bfs_ := (bfs cos_deg sin_deg map goal step_size turn_size).
Local Abbreviation entry := (pose * list action)%type.
Local Abbreviation run :=
  (Planner.run cos_deg sin_deg map step_size turn_size).
Local Abbreviation poses_along :=
  (Planner.poses_along cos_deg sin_deg map step_size turn_size).
Local Abbreviation core :=
  (Planner.core cos_deg sin_deg map step_size turn_size start).
Local Abbreviation expanded_for :=
  (Planner.expanded_for cos_deg sin_deg map step_size turn_size).
Local Abbreviation closed :=
  (Planner.closed cos_deg sin_deg map goal step_size turn_size).
Local Abbreviation inv :=
  (Planner.inv cos_deg sin_deg map goal step_size turn_size start).
Lemma run_snoc (p : pose) (acts : list action) (a : action) :
  run p (acts ++ [a]) = mv (run p acts) a.
Proof. unfold run. now rewrite fold_left_app. Qed.

Lemma poses_along_snoc (p : pose) (acts : list action) (a : action) :
  poses_along p (acts ++ [a]) = poses_along p acts ++ [run p (acts ++ [a])].
Proof.
  revert p. induction acts as [| b acts IH]; intros p; simpl.
  - reflexivity.
  - now rewrite IH.
Qed.

Lemma expanded_for_extend G T p pa a :
  expanded_for G p pa a -> expanded_for (G ++ T) p pa a.
Proof.
  intros (j & q & acts & H & H'). exists j, q, acts.
  split; [now apply nth_error_extend | assumption].
Qed.

Lemma keys_of_poses (G : list entry) (q : pose) :
  In q (List.map fst G) -> In (key_of q) (keys_of G).
Proof.
  unfold keys_of. rewrite !in_map_iff. intros (e & <- & H). now exists e.
Qed.

Lemma visited_keys G s :
  core G s -> List.map fst (visited s) = keys_of G.
Proof.
  intros C. rewrite (core_visited C). unfold keys_of.
  rewrite map_map. reflexivity.
Qed.

Lemma core_nonempty G s : core G s -> exists G', G = (start, []) :: G'.
Proof.
  intros C. pose proof (core_head C) as H.
  destruct G as [| e G']; [discriminate |]. injection H as ->. now exists G'.
Qed.

Lemma tl_snoc (A : Type) (l : list A) (x : A) :
  l <> [] -> tl (l ++ [x]) = tl l ++ [x].
Proof. destruct l; [congruence | reflexivity]. Qed.


Lemma dict_mem_true (K V : Type) (keq : K -> K -> bool) (k : K)
    (d : list (K * V)) :
  (forall a b, keq a b = true <-> a = b) ->
  dict_mem keq k d = true -> In k (List.map fst d).
Proof.
  intros Hk. unfold dict_mem. destruct (dict_get keq k d) as [v |] eqn:E;
    [| discriminate].
  intros _. apply (dict_get_in _ Hk) in E.
  apply in_map_iff. now exists (k, v).
Qed.

Lemma visit_core G s p pa a s' :
  core G s -> 0 < que_ix s ->
  nth_error G (pred (que_ix s)) = Some (p, pa) ->
  (forall j e, nth_error G j = Some e -> length (snd e) <= S (length pa)) ->
  visit_ p a s = inr s' ->
  exists T, core (G ++ T) s' /\ que_ix s' = que_ix s /\
    (forall j e, nth_error (G ++ T) j = Some e ->
       length (snd e) <= S (length pa)) /\
    expanded_for (G ++ T) p pa a.
Proof.
  intros C Hix Hp Hb Hv. unfold visit in Hv.
  set (p1 := mv p a) in *.
  destruct (dict_mem key_eqb (key_of p1) (visited s)) eqn:M.
  - injection Hv as <-. exists []. rewrite app_nil_r.
    split; [assumption |]. split; [reflexivity |]. split; [assumption |].
    apply dict_mem_true in M; [| exact key_eqb_eq].
    rewrite (visited_keys C) in M. unfold keys_of in M.
    apply in_map_iff in M. destruct M as ([q acts] & Hk & Hin).
    apply In_nth_error in Hin. destruct Hin as [j Hj].
    exists j, q, acts. repeat split; auto.
    apply (Hb _ _ Hj).
  - apply (dict_mem_false _ key_eqb_eq) in M.
    rewrite (visited_keys C) in M.
    match type of Hv with (if ?b then _ else _) = _ => destruct b end;
      [| discriminate].
    injection Hv as <-.
    assert (Hnew : ~ In p1 (List.map fst G)).
    { intros H. apply M. now apply keys_of_poses. }
    destruct (core_nonempty C) as [G' EG].
    assert (Hpa : length pa <= pred (que_ix s)) by apply (core_depth C _ Hp).
    pose proof (core_ix C) as Hlen.
    exists [(p1, pa ++ [a])]. split; [constructor |]; cbn [que que_ix visited parent parent_action].
    + rewrite (core_que C), map_app. reflexivity.
    + rewrite (dict_set_new _ key_eqb_eq) by (rewrite (visited_keys C); exact M).
      rewrite (core_visited C), map_app. reflexivity.
    + rewrite (dict_set_new _ pose_eqb_eq);
        [| rewrite (core_parent C); intros H; apply Hnew; subst G; simpl in *; tauto].
      rewrite !map_app, (core_parent C). cbn [List.map fst].
      symmetry. apply tl_snoc. subst G. discriminate.
    + rewrite (dict_set_new _ pose_eqb_eq);
        [| rewrite (core_action C); intros H; apply Hnew; subst G; simpl in *; tauto].
      rewrite !map_app, (core_action C). cbn [List.map fst].
      symmetry. apply tl_snoc. subst G. discriminate.
    + unfold keys_of. rewrite map_app. cbn [List.map fst].
      apply NoDup_app; [apply (core_nodup C) | repeat constructor; auto |].
      intros k Hk [<- | []]. now apply M.
    + apply nth_error_extend, (core_head C).
    + rewrite length_app. simpl. lia.
    + intros j q acts Hj. apply nth_error_snoc in Hj.
      destruct Hj as [[_ Hj] | [_ [= -> ->]]].
      * apply (core_run C _ Hj).
      * rewrite run_snoc, (core_run C _ Hp). reflexivity.
    + intros i j e1 e2 Hij H1 H2.
      apply nth_error_snoc in H1, H2.
      destruct H1 as [[Hi H1] | [Hi ->]], H2 as [[Hj' H2] | [Hj' ->]].
      * apply (core_sorted C Hij H1 H2).
      * cbn [snd]. rewrite length_app. simpl. specialize (Hb _ _ H1). lia.
      * lia.
      * lia.
    + intros j q acts Hj. apply nth_error_snoc in Hj.
      destruct Hj as [[Hlt Hj] | [-> [= -> ->]]].
      * destruct (core_tree C _ Hj) as [H | (i & p' & pa' & a' & Hi & Hij & Hn & -> & -> & Hd1 & Hd2)];
          [now left | right].
        exists i, p', pa', a'.
        split; [exact Hi |]. split; [exact Hij |].
        split; [now apply nth_error_extend |].
        split; [reflexivity |]. split; [reflexivity |]. split.
        -- rewrite (dict_set_new _ pose_eqb_eq);
             [| rewrite (core_parent C); intros H; apply Hnew; subst G; simpl in *; tauto].
           now rewrite dict_get_app, Hd1.
        -- rewrite (dict_set_new _ pose_eqb_eq);
             [| rewrite (core_action C); intros H; apply Hnew; subst G; simpl in *; tauto].
           now rewrite dict_get_app, Hd2.
      * right. exists (pred (que_ix s)), p, pa, a.
        assert (Hget : forall (V : Type) (d : list (pose * V)) (v : V),
                   List.map fst d = tl (List.map fst G) ->
                   dict_get pose_eqb p1 (dict_set pose_eqb p1 v d) = Some v).
        { intros V d v Hd. rewrite (dict_set_new _ pose_eqb_eq);
            [| rewrite Hd; intros H; apply Hnew; subst G; simpl in *; tauto].
          rewrite dict_get_app.
          replace (dict_get pose_eqb p1 d) with (@None V).
          - simpl. now rewrite (proj2 (pose_eqb_eq p1 p1) eq_refl).
          - symmetry. apply (dict_get_none _ pose_eqb_eq).
            rewrite Hd. intros H. apply Hnew. subst G. simpl in *. tauto. }
        split; [lia |]. split; [lia |].
        split; [now apply nth_error_extend |].
        split; [reflexivity |]. split; [reflexivity |]. split.
        -- apply Hget, (core_parent C).
        -- apply Hget, (core_action C).
    + intros j e Hj. apply nth_error_snoc in Hj.
      destruct Hj as [[_ Hj] | [-> ->]].
      * apply (core_depth C _ Hj).
      * cbn [snd]. rewrite length_app. simpl. lia.
    + split; [reflexivity |]. split.
      * intros j e Hj. apply nth_error_snoc in Hj.
        destruct Hj as [[_ Hj] | [_ ->]]; [apply (Hb _ _ Hj) |].
        cbn [snd]. rewrite length_app. simpl. lia.
      * exists (length G), p1, (pa ++ [a]).
        split; [apply nth_error_snoc; right; auto |].
        split; [reflexivity |].
        rewrite length_app. simpl. lia.
Qed.

Lemma expand_core acts : forall G s p pa s',
  core G s -> 0 < que_ix s ->
  nth_error G (pred (que_ix s)) = Some (p, pa) ->
  (forall j e, nth_error G j = Some e -> length (snd e) <= S (length pa)) ->
  expand_ p acts s = inr s' ->
  exists T, core (G ++ T) s' /\ que_ix s' = que_ix s /\
    forall a, In a acts -> expanded_for (G ++ T) p pa a.
Proof.
  induction acts as [| a acts IH]; intros G s p pa s' C Hix Hp Hb He; simpl in He.
  - injection He as <-. exists []. rewrite app_nil_r.
    split; [assumption |]. split; [reflexivity |]. intros a [].
  - destruct (visit_ p a s) as [e | s1] eqn:Hv; [discriminate |].
    edestruct visit_core as (T1 & C1 & Hix1 & Hb1 & Hx1);
      [exact C | exact Hix | exact Hp | exact Hb | exact Hv |].
    assert (Hp1 : nth_error (G ++ T1) (pred (que_ix s1)) = Some (p, pa)).
    { rewrite Hix1. now apply nth_error_extend. }
    rewrite <- Hix1 in Hix.
    destruct (IH _ _ _ _ _ C1 Hix Hp1 Hb1 He) as (T2 & C2 & Hix2 & Hx2).
    exists (T1 ++ T2). rewrite app_assoc.
    split; [assumption |]. split; [congruence |].
    intros b [<- | Hb']; [now apply expanded_for_extend | now apply Hx2].
Qed.

Lemma core_advance G s p :
  core G s -> nth_error (que s) (que_ix s) = Some p -> core G (advance s).
Proof.
  intros C Hp. destruct C. constructor; cbn [advance que que_ix visited parent parent_action]; auto.
  - apply Nat.le_succ_l. rewrite <- (length_map fst), <- core_que0.
    apply nth_error_Some. congruence.
  - intros j q acts Hj.
    destruct (core_tree0 _ _ _ Hj) as [H | (i & p' & pa' & a' & Hi & H)];
      [now left | right].
    exists i, p', pa', a'. split; [lia | exact H].
Qed.

Lemma dequeue_bound G s p pa :
  core G s -> nth_error G (que_ix s) = Some (p, pa) ->
  forall j e, nth_error G j = Some e -> length (snd e) <= S (length pa).
Proof.
  intros C Hp j [q acts] Hj. cbn [snd].
  destruct (core_tree C _ Hj) as [[_ ->] | (i & p' & pa' & a' & Hi & _ & Hn & -> & _)].
  - simpl. lia.
  - rewrite length_app. simpl.
    assert (H : length (snd (p', pa')) <= length (snd (p, pa))).
    { apply (core_sorted C (i := i) (j := que_ix s)); [lia | assumption ..]. }
    simpl in H. lia.
Qed.

Lemma all_actions_complete (a : action) : In a all_actions.
Proof. destruct a; simpl; auto. Qed.

Lemma step_inv G s p s' :
  inv G s -> nth_error (que s) (que_ix s) = Some p ->
  at_goal goal p = false ->
  expand_ p all_actions (advance s) = inr s' ->
  exists T, inv (G ++ T) s'.
Proof.
  intros [C Hcl] Hp Hg He.
  assert (Hpa : exists pa, nth_error G (que_ix s) = Some (p, pa)).
  { rewrite (core_que C), nth_error_map in Hp.
    destruct (nth_error G (que_ix s)) as [[q pa] |]; [| discriminate].
    injection Hp as <-. now exists pa. }
  destruct Hpa as [pa Hpa].
  pose proof (core_advance C Hp) as Ca.
  destruct (@expand_core all_actions G (advance s) p pa s' Ca) as (T & C' & Hix & Hx);
    [simpl; lia | exact Hpa | exact (dequeue_bound C Hpa) | exact He |].
  exists T. split; [assumption |].
  rewrite Hix. cbn [advance que_ix].
  intros i q qa Hi Hq.
  destruct (Nat.eq_dec i (que_ix s)) as [-> | Hne].
  - rewrite (nth_error_extend _ T _ Hpa) in Hq. injection Hq as <- <-.
    split; [assumption |]. intros a. apply Hx, all_actions_complete.
  - assert (Hlt : i < que_ix s) by lia.
    assert (Hq' : nth_error G i = Some (q, qa)).
    { rewrite nth_error_app1 in Hq; [assumption |].
      pose proof (core_ix C). lia. }
    destruct (Hcl _ _ _ Hlt Hq') as [Hg' Hx'].
    split; [assumption |]. intros a. apply expanded_for_extend, Hx'.
Qed.

Lemma visit_raises p a s e : visit_ p a s = inl e -> e = RunawayDijkstra.
Proof.
  unfold visit. intros Hv.
  repeat match type of Hv with
         | (if ?b then _ else _) = _ => destruct b
         end; congruence.
Qed.

Lemma expand_raises p l : forall s e,
  expand_ p l s = inl e -> e = RunawayDijkstra.
Proof.
  induction l as [| a l IHl]; intros s e; simpl; [discriminate |].
  destruct (visit_ p a s) as [e' | s1] eqn:Hv; [| apply IHl].
  intros [= <-]. apply (visit_raises _ _ _ Hv).
Qed.

Lemma bfs_inv fuel : forall G s, inv G s ->
  match bfs_ fuel s with
  | Found s' g =>
      exists G' pa, core G' s' /\ 0 < que_ix s' /\
        closed G' (pred (que_ix s')) /\
        nth_error G' (pred (que_ix s')) = Some (g, pa) /\
        at_goal goal g = true
  | Exhausted s' => exists G', inv G' s' /\ que_ix s' = length G'
  | SearchRaised e => e = RunawayDijkstra
  | SearchOutOfFuel => True
  end.
Proof.
  induction fuel as [| fuel IH]; intros G s I; cbn [bfs]; [exact Logic.I |].
  destruct (nth_error (que s) (que_ix s)) as [p |] eqn:Hp.
  - destruct (at_goal goal p) eqn:Hg.
    + destruct I as [C Hcl].
      assert (Hpa : exists pa, nth_error G (que_ix s) = Some (p, pa)).
      { pose proof Hp as Hp'. rewrite (core_que C), nth_error_map in Hp'.
        destruct (nth_error G (que_ix s)) as [[q pa] |]; [| discriminate].
        injection Hp' as <-. now exists pa. }
      destruct Hpa as [pa Hpa].
      exists G, pa. cbn [advance que_ix pred].
      split; [exact (core_advance C Hp) |]. split; [lia |]. auto.
    + destruct (expand_ p all_actions (advance s)) as [e | s'] eqn:He.
      * apply (expand_raises _ _ _ He).
      * destruct (step_inv I Hp Hg He) as [T I']. apply (IH _ _ I').
  - exists G. split; [assumption |].
    destruct I as [C _]. pose proof (core_ix C).
    apply nth_error_None in Hp. rewrite (core_que C), length_map in Hp. lia.
Qed.

Lemma inv_initial : inv [(start, [])] (initial start).
Proof.
  split.
  - constructor; simpl; auto.
    + repeat constructor. simpl. tauto.
    + intros [| [| j]] q acts; simpl; [| discriminate ..].
      now intros [= <- <-].
    + intros [| [| i]] [| [| j]] e1 e2 Hij; simpl; try discriminate; try lia.
      intros [= <-] [= <-]. lia.
    + intros [| [| j]] q acts; simpl; [| discriminate ..].
      intros [= <- <-]. now left.
    + intros [| [| j]] e; simpl; [| discriminate ..].
      intros [= <-]. simpl. lia.
  - intros i p pa Hi. simpl in Hi. lia.
Qed.

(** *** The path read back from the parent dictionaries *)

Lemma core_poses_nodup G s : core G s -> NoDup (List.map fst G).
Proof.
  intros C. pose proof (core_nodup C) as H. unfold keys_of in H.
  rewrite <- (map_map fst key_of) in H.
  apply (NoDup_map_inv key_of _ H).
Qed.

Lemma walk_back_core G s : core G s ->
  forall acts j q fuel path actions,
  nth_error G j = Some (q, acts) -> length acts < fuel ->
  walk_back fuel s q path actions =
  Some (inr (path ++ rev (poses_along start acts), actions ++ rev acts)).
Proof.
  intros C acts. induction acts as [| a pa IH] using rev_ind;
    intros j q fuel path actions Hj Hf.
  - pose proof (core_run C _ Hj) as Hq. simpl in Hq. subst q.
    destruct fuel as [| fuel]; [simpl in Hf; lia |]. cbn [walk_back].
    replace (dict_get pose_eqb start (parent_action s)) with (@None action).
    + simpl. now rewrite !app_nil_r.
    + symmetry. apply (dict_get_none _ pose_eqb_eq).
      rewrite (core_action C).
      pose proof (core_poses_nodup C) as Hnd.
      destruct (core_nonempty C) as [G' ->]. simpl in *.
      now inversion Hnd.
  - destruct (core_tree C _ Hj)
      as [[_ H] | (i & p' & pa' & a' & _ & _ & Hi & Ha & _ & Hd1 & Hd2)].
    + now destruct pa.
    + apply app_inj_tail in Ha. destruct Ha as [<- <-].
      rewrite length_app in Hf. simpl in Hf.
      destruct fuel as [| fuel]; [lia |]. cbn [walk_back].
      rewrite Hd2, Hd1.
      rewrite (IH i p' fuel (path ++ [q]) (actions ++ [a]) Hi) by lia.
      rewrite poses_along_snoc, !rev_app_distr. simpl.
      rewrite (core_run C _ Hj), <- !app_assoc. reflexivity.
Qed.

(** *** Termination: the fuel is never used up *)

Lemma visit_sized p a s s' :
  sized s -> visit_ p a s = inr s' ->
  sized s' /\ que_ix s' = que_ix s.
Proof.
  intros (Hq & Hv & Hi). unfold visit.
  destruct (dict_mem key_eqb _ (visited s)) eqn:M.
  - intros [= <-]. split; [split; [| split] | reflexivity]; assumption.
  - apply (dict_mem_false _ key_eqb_eq) in M.
    rewrite (dict_set_new _ key_eqb_eq _ _ _ M).
    cbn [visited]. destruct (Z.ltb_spec (Z.of_nat (length (visited s ++
      [(key_of (mv p a), true)]))) RUNAWAY) as [Hlt | Hge]; [| discriminate].
    intros [= <-]. unfold sized. cbn [que visited que_ix].
    rewrite !length_app in *. simpl length in *.
    split; [split; [| split] | reflexivity]; lia.
Qed.

Lemma expand_sized p l : forall s s',
  sized s -> expand_ p l s = inr s' -> sized s' /\ que_ix s' = que_ix s.
Proof.
  induction l as [| a l IH]; intros s s' Hs; simpl.
  - intros [= <-]. now split.
  - destruct (visit_ p a s) as [e | s1] eqn:Hv; [discriminate |].
    destruct (visit_sized _ _ Hs Hv) as [Hs1 Hi1]. intros He.
    destruct (IH _ _ Hs1 He) as [Hs' Hi']. split; [assumption | congruence].
Qed.

Lemma bfs_fuel fuel : forall s,
  sized s -> Z.to_nat RUNAWAY <= fuel + que_ix s ->
  bfs_ fuel s <> SearchOutOfFuel.
Proof.
  induction fuel as [| fuel IH]; intros s Hs Hf.
  - destruct Hs as (Hq & Hv & Hi). lia.
  - cbn [bfs]. destruct (nth_error (que s) (que_ix s)) as [p |] eqn:Hp;
      [| discriminate].
    destruct (at_goal goal p); [discriminate |].
    destruct (expand_ p all_actions (advance s)) as [e | s'] eqn:He;
      [discriminate |].
    assert (Hs1 : sized (advance s)).
    { destruct Hs as (Hq & Hv & Hi). unfold sized.
      cbn [advance que visited que_ix].
      split; [assumption |]. split; [assumption |].
      apply Nat.le_succ_l, nth_error_Some. congruence. }
    destruct (expand_sized _ _ Hs1 He) as [Hs' Hi'].
    apply IH; [assumption |]. rewrite Hi'. cbn [advance que_ix]. lia.
Qed.

Lemma sized_initial : sized (initial start).
Proof.
  unfold sized, RUNAWAY. simpl.
  split; [reflexivity |]. split; [reflexivity | apply le_0_n].
Qed.

Lemma bfs_terminates : bfs_ search_fuel (initial start) <> SearchOutOfFuel.
Proof. apply bfs_fuel; [apply sized_initial |]. unfold search_fuel. lia. Qed.

Lemma bfs_sized fuel : forall s s',
  sized s ->
  (exists g, bfs_ fuel s = Found s' g) \/ bfs_ fuel s = Exhausted s' ->
  sized s'.
Proof.
  induction fuel as [| fuel IH]; intros s s' Hs; cbn [bfs].
  - intros [[g H] | H]; discriminate.
  - destruct (nth_error (que s) (que_ix s)) as [p |] eqn:Hp.
    + assert (Hs1 : sized (advance s)).
      { destruct Hs as (Hq & Hv & Hi). unfold sized.
        cbn [advance que visited que_ix].
        split; [assumption |]. split; [assumption |].
        apply Nat.le_succ_l, nth_error_Some. congruence. }
      destruct (at_goal goal p).
      * intros [[g [= <- _]] | H]; [assumption | discriminate].
      * destruct (expand_ p all_actions (advance s)) as [e | s1] eqn:He.
        -- intros [[g H] | H]; discriminate.
        -- apply IH. apply (expand_sized _ _ Hs1 He).
    + intros [[g H] | [= <-]]; [discriminate | assumption].
Qed.

Lemma bfs_core fuel s' :
  (exists g, bfs_ fuel (initial start) = Found s' g) \/
  bfs_ fuel (initial start) = Exhausted s' ->
  exists G, core G s'.
Proof.
  pose proof (bfs_inv fuel inv_initial) as H.
  intros [[g E] | E]; rewrite E in H.
  - destruct H as (G & pa & C & _). now exists G.
  - destruct H as (G & [C _] & _). now exists G.
Qed.

(** Where every forward action is a no-op, no action leaves the position. *)
Lemma run_stays (p : pose) :
  (forall d, forward cos_deg sin_deg map step_size
               (fst (fst p), snd (fst p), d) =
             (fst (fst p), snd (fst p), d)) ->
  forall acts, fst (run p acts) = fst p.
Proof.
  destruct p as [[x0 y0] d0]. cbn [fst snd].
  intros Hf acts. induction acts as [| a acts IH] using rev_ind.
  - reflexivity.
  - rewrite run_snoc.
    destruct (run (x0, y0, d0) acts) as [[x y] d']. simpl in IH.
    injection IH as -> ->. destruct a; simpl; try reflexivity.
    change (fst (forward cos_deg sin_deg map step_size (x0, y0, d')) = (x0, y0)).
    now rewrite Hf.
Qed.

Local Abbreviation find_shortest_ :=
  (find_shortest cos_deg sin_deg map start goal step_size turn_size).

(** What [find_shortest] returns when the search has found [g]. *)
Lemma found_returns G s g pa :
  core G s -> 0 < que_ix s ->
  nth_error G (pred (que_ix s)) = Some (g, pa) ->
  walk_back (length (que s)) s g [] [] =
  Some (inr (rev (poses_along start pa), rev pa)).
Proof.
  intros C Hix Hg.
  rewrite (@walk_back_core G s C pa _ g (length (que s)) [] [] Hg);
    [reflexivity |].
  pose proof (core_depth C _ Hg) as Hd. pose proof (core_ix C) as Hi.
  rewrite (core_que C), length_map. simpl in Hd. lia.
Qed.


End Correctness.

(** *** Concrete runs *)

Local Open Scope Qc_scope.

(** From the walled-in cell every forward action is a no-op, the five
    headings are the only states, and the search ends without a path. *)
Example find_shortest_walled_in :
  find_shortest cos_quarter sin_quarter walled_cell
    (of_Z 1 + half, of_Z 1 + half, 0) (0, 0)%Z 1 (of_Z 90) = Returned [] [] 5.
Proof. vm_compute. reflexivity. Qed.

(** *** Headings under the two turns *)




(** *** The forward action *)

Lemma check_corners_break (map : grid) (x y x1 y1 : Qc) (cs : list (Qc * Qc)) :
  check_corners map x y x1 y1 cs =
  if existsb (fun c => probe_blocked map (fst c) (snd c)) cs
  then (x, y) else (x1, y1).
Proof.
  induction cs as [| [x2 y2] cs IH]; cbn [check_corners existsb fst snd].
  - reflexivity.
  - destruct (probe_blocked map x2 y2); [reflexivity | exact IH].
Qed.

(** C6.  The forward action moves the position by the step length along the
    heading when each of the four probe points, at the collision radius
    [0.2] around the destination, is inside the map bounds and on no wall
    cell; when one of them is not, it leaves the pose as it is.  The heading
    is the same in both cases. *)
Theorem forward_moves_iff_clear (cos_deg sin_deg : Qc -> Qc) (map : grid)
    (step_size turn_size x y d : Qc) :
  let x1 := x + step_size * cos_deg d in
  let y1 := y + step_size * sin_deg d in
  let clear :=
    probe_clear map (x1 - RADIUS) (y1 - RADIUS) /\
    probe_clear map (x1 + RADIUS) (y1 - RADIUS) /\
    probe_clear map (x1 - RADIUS) (y1 + RADIUS) /\
    probe_clear map (x1 + RADIUS) (y1 + RADIUS) in
  let p1 := move cos_deg sin_deg map step_size turn_size (x, y, d) Forward in
  RADIUS = Q2Qc (1 # 5) /\
  (clear -> p1 = (x1, y1, d)) /\
  (~ clear -> p1 = (x, y, d)) /\
  snd p1 = d.
Proof.
  intros x1 y1 clear p1.
  assert (Hc : clear <->
            existsb (fun c => probe_blocked map (fst c) (snd c))
              (corners x1 y1) = false).
  { subst clear. unfold corners. cbn [existsb fst snd].
    pose proof (probe_blocked_false map (x1 - RADIUS) (y1 - RADIUS)) as H1.
    pose proof (probe_blocked_false map (x1 + RADIUS) (y1 - RADIUS)) as H2.
    pose proof (probe_blocked_false map (x1 - RADIUS) (y1 + RADIUS)) as H3.
    pose proof (probe_blocked_false map (x1 + RADIUS) (y1 + RADIUS)) as H4.
    rewrite !orb_false_iff. intuition congruence. }
  assert (Hp : p1 = if existsb (fun c => probe_blocked map (fst c) (snd c))
                         (corners x1 y1)
                    then (x, y, d) else (x1, y1, d)).
  { subst p1. cbn [move]. unfold forward. fold x1 y1.
    rewrite check_corners_break.
    now destruct (existsb _ (corners x1 y1)). }
  split; [apply eqb_eq; vm_compute; reflexivity |].
  rewrite Hp. destruct (existsb _ (corners x1 y1)).
  - split; [| split; [reflexivity | reflexivity]].
    intros H. apply Hc in H. discriminate.
  - split; [reflexivity | split; [| reflexivity]].
    intros H. exfalso. apply H, Hc. reflexivity.
Qed.

(** *** Plans on every input *)

(** [int] is the floor on the numbers that are not negative. *)
Lemma py_int_floor (q : Qc) : 0 <= q -> py_int q = Qfloor q.
Proof.
  intros H. unfold py_int, Qfloor. destruct q as [[n d] c]. cbn [this Qnum Qden].
  apply Z.quot_div_nonneg; [| lia].
  unfold Qcle in H. cbn in H. unfold Qle in H. cbn in H. lia.
Qed.

(** Between two numbers less than [1] apart, [int] takes the value it has
    at one of them. *)
Lemma py_int_between (a v b : Qc) :
  0 <= a -> a <= v -> v <= b -> b < a + 1 ->
  py_int v = py_int a \/ py_int v = py_int b.
Proof.
  intros Ha Hav Hvb Hba.
  rewrite !py_int_floor by qc_lra.
  pose proof (Qfloor_resp_le _ _ Hav) as H1.
  pose proof (Qfloor_resp_le _ _ Hvb) as H2.
  assert (H3 : (Qfloor b < Qfloor a + 2)%Z).
  { rewrite Zlt_Qlt.
    pose proof (Qfloor_le b) as Hb. pose proof (Qlt_floor a) as Ha'.
    rewrite inject_Z_plus in *.
    unfold Qclt, Qcle in *. rewrite this_plus in Hba.
    change (this 1) with 1%Q in Hba.
    change (inject_Z 2) with 2%Q. change (inject_Z 1) with 1%Q in Ha'.
    lra. }
  lia.
Qed.

(** The forward action keeps a pose in the free cells: the cell of the
    destination is the cell of one of the four probe points. *)
Lemma forward_free (cos_deg sin_deg : Qc -> Qc) (map : grid) (step_size : Qc)
    (p : pose) :
  free map p -> free map (forward cos_deg sin_deg map step_size p).
Proof.
  destruct p as [[x y] d]. intros F. unfold forward.
  set (x1 := x + step_size * cos_deg d). set (y1 := y + step_size * sin_deg d).
  rewrite check_corners_break.
  destruct (existsb _ (corners x1 y1)) eqn:E; [exact F |].
  unfold corners in E. cbn [existsb fst snd] in E.
  rewrite !orb_false_iff in E. destruct E as (E1 & E2 & E3 & E4 & _).
  apply probe_blocked_false in E1, E2, E3, E4.
  destruct E1 as [O1 W1], E2 as [O2 W2], E3 as [O3 W3], E4 as [O4 W4].
  unfold outside_map in O1, O2, O3, O4. unfold on_wall in W1, W2, W3, W4.
  assert (HR : RADIUS = Q2Qc (1 # 5)) by (apply eqb_eq; vm_compute; reflexivity).
  rewrite HR in *.
  assert (Hx0 : 0 <= x1 - Q2Qc (1 # 5)).
  { destruct (Qclt_le_dec (x1 - Q2Qc (1 # 5)) 0); [tauto | assumption]. }
  assert (Hy0 : 0 <= y1 - Q2Qc (1 # 5)).
  { destruct (Qclt_le_dec (y1 - Q2Qc (1 # 5)) 0); [tauto | assumption]. }
  assert (Hx1 : x1 + Q2Qc (1 # 5) < of_Z (shape0 map)).
  { destruct (Qclt_le_dec (x1 + Q2Qc (1 # 5)) (of_Z (shape0 map)));
      [assumption | tauto]. }
  assert (Hy1 : y1 + Q2Qc (1 # 5) < of_Z (shape1 map)).
  { destruct (Qclt_le_dec (y1 + Q2Qc (1 # 5)) (of_Z (shape1 map)));
      [assumption | tauto]. }
  clear O1 O2 O3 O4. cbn [free].
  remember (of_Z (shape0 map)) as s0 eqn:Hs0.
  remember (of_Z (shape1 map)) as s1 eqn:Hs1. clear Hs0 Hs1.
  clearbody x1 y1.
  split; [qc_lra |]. split; [qc_lra |]. split; [qc_lra |]. split; [qc_lra |].
  destruct (@py_int_between (x1 - Q2Qc (1 # 5)) x1 (x1 + Q2Qc (1 # 5)))
    as [Ex | Ex]; try qc_lra;
  destruct (@py_int_between (y1 - Q2Qc (1 # 5)) y1 (y1 + Q2Qc (1 # 5)))
    as [Ey | Ey]; try qc_lra; rewrite Ex, Ey; assumption.
Qed.

Local Open Scope nat_scope.

Section Plans.

Variables cos_deg sin_deg : Qc -> Qc.
Variable map : grid.
Variable goal : Z * Z.
Variables step_size turn_size : Qc.
Variable start : pose.

Local Abbreviation mv := (move cos_deg sin_deg map step_size turn_size).
Local Abbreviation bfs_ := (bfs cos_deg sin_deg map goal step_size turn_size).
Local Abbreviation run :=
  (Planner.run cos_deg sin_deg map step_size turn_size).
Local Abbreviation poses_along :=
  (Planner.poses_along cos_deg sin_deg map step_size turn_size).
Local Abbreviation find_shortest_ :=
  (find_shortest cos_deg sin_deg map start goal step_size turn_size).

(** What a returned plan is, on every input: the path holds the poses after
    each action; a plan that is not empty leads from the start, which is
    not in the goal cell, into the goal cell. *)
Lemma returned_plan :
  match find_shortest_ with
  | Returned acts path nvis =>
      path = poses_along start acts /\
      (acts <> [] ->
       at_goal goal start = false /\ at_goal goal (run start acts) = true) /\
      1 <= nvis
  | Raised e => e = RunawayDijkstra
  | OutOfFuel => False
  end.
Proof.
  unfold find_shortest.
  pose proof (bfs_inv search_fuel
                (inv_initial cos_deg sin_deg map goal step_size turn_size start))
    as HI.
  pose proof (bfs_terminates cos_deg sin_deg map goal step_size turn_size start)
    as HT.
  destruct (bfs_ search_fuel (initial start)) as [s g | s | e |].
  - destruct HI as (G & pa & C & Hix & Hcl & Hg & Hgoal).
    rewrite (found_returns C Hix Hg), !rev_involutive.
    split; [reflexivity |]. split.
    + intros Hne. rewrite (core_run C _ Hg). split; [| exact Hgoal].
      destruct (pred (que_ix s)) as [| n] eqn:En.
      * rewrite (core_head C) in Hg. injection Hg as _ <-. now destruct Hne.
      * apply (Hcl 0 start []); [lia | apply (core_head C)].
    + rewrite (core_visited C), length_map.
      destruct (core_nonempty C) as [G' ->]. simpl. lia.
  - destruct HI as (G & [C _] & _). split; [reflexivity |]. split; [easy |].
    rewrite (core_visited C), length_map.
    destruct (core_nonempty C) as [G' ->]. simpl. lia.
  - exact HI.
  - now destruct HT.
Qed.

(** From a start pose in the goal cell the search ends at once. *)
Lemma start_at_goal :
  at_goal goal start = true -> find_shortest_ = Returned [] [] 1.
Proof.
  intros H. unfold find_shortest.
  assert (Hf : exists n, search_fuel = S n).
  { exists (pred search_fuel). unfold search_fuel, RUNAWAY. lia. }
  destruct Hf as [n ->]. cbn [bfs initial que que_ix nth_error].
  rewrite H. reflexivity.
Qed.

Lemma poses_along_free (acts : list action) : forall p,
  free map p -> Forall (free map) (poses_along p acts).
Proof.
  induction acts as [| a acts IH]; intros p F; cbn [Planner.poses_along].
  - constructor.
  - assert (F' : free map (mv p a)).
    { destruct p as [[x y] d]. destruct a; cbn [move]; try exact F.
      now apply forward_free. }
    constructor; [exact F' | now apply IH].
Qed.

(** X1.  On every input [find_shortest] returns or fails with the runaway
    assertion, and what it returns is a plan: the path holds the pose after
    each action of the sequence, in order (so it is as long as the
    sequence and does not hold the start pose); a sequence that is not
    empty leads from the start pose, which is not in the goal cell, into
    the goal cell; and the count of visited keys is at least one.  From a
    start pose in the goal cell the result is the empty plan with one
    visited key. *)
Theorem find_shortest_sound :
  match find_shortest_ with
  | Returned acts path nvis =>
      path = poses_along start acts /\
      (acts <> [] ->
       at_goal goal start = false /\ at_goal goal (run start acts) = true) /\
      1 <= nvis
  | Raised e => e = RunawayDijkstra
  | OutOfFuel => False
  end /\
  (at_goal goal start = true -> find_shortest_ = Returned [] [] 1).
Proof.
  split; [apply returned_plan | apply start_at_goal].
Qed.

(** X2.  From a start pose inside the map, in a cell that is no wall, no
    action sequence leads out of the map or into a wall cell: every pose
    along it is inside the map in a cell that is no wall, and so is every
    pose of a path that [find_shortest] returns. *)
Theorem path_avoids_walls :
  free map start ->
  (forall acts, Forall (free map) (poses_along start acts)) /\
  (forall acts path nvis,
     find_shortest_ = Returned acts path nvis -> Forall (free map) path).
Proof.
  intros F. split.
  - intros acts. now apply poses_along_free.
  - intros acts path nvis E.
    pose proof returned_plan as H.
    rewrite E in H. destruct H as [-> _]. now apply poses_along_free.
Qed.

End Plans.

Local Open Scope Qc_scope.

Lemma path_avoids_walls_witness :
  free (open_map 5 5) corner_start /\
  (forall acts,
     Forall (free (open_map 5 5))
       (poses_along cos_quarter sin_quarter (open_map 5 5) 1 (of_Z 90)
          corner_start acts)) /\
  (forall acts path nvis,
     find_shortest cos_quarter sin_quarter (open_map 5 5) corner_start
       (4, 3)%Z 1 (of_Z 90) = Returned acts path nvis ->
     Forall (free (open_map 5 5)) path).
Proof.
  assert (F : free (open_map 5 5) corner_start).
  { cbn [free corner_start].
    split; [qc_decide |]. split; [qc_decide |]. split; [qc_decide |].
    split; [qc_decide |]. qc_decide. }
  split; [exact F |].
  apply (@path_avoids_walls cos_quarter sin_quarter (open_map 5 5) (4, 3)%Z 1
           (of_Z 90) corner_start F).
Defined.

(** *** The two turns, one after the other *)



(** *** A full circle of turns *)

(** The heading [x] brought back into [[-180, 180)], and into
    [(-180, 180]], by one wrap. *)
Local Abbreviation wrap_up x :=
  (if ltb x (- of_Z 180) then x + of_Z 360 else x)%Qc.

Local Abbreviation wrap_down x :=
  (if ltb (of_Z 180) x then x - of_Z 360 else x)%Qc.

Lemma of_nat_step (m : nat) (t : Qc) :
  of_Z (Z.of_nat (S m)) * t = of_Z (Z.of_nat m) * t + t.
Proof.
  replace (of_Z (Z.of_nat (S m))) with (of_Z (Z.of_nat m) + 1); [ring |].
  apply Qc_is_canon. unfold of_Z. rewrite this_plus, !this_Q2Qc.
  rewrite Nat2Z.inj_succ. unfold Z.succ. rewrite inject_Z_plus. reflexivity.
Qed.

Lemma of_nat_zero (t : Qc) : of_Z (Z.of_nat 0) * t = 0.
Proof.
  replace (of_Z (Z.of_nat 0)) with 0 by (apply Qc_is_canon; reflexivity).
  ring.
Qed.

Lemma of_nat_times_nonneg (m : nat) (t : Qc) :
  0 < t -> 0 <= of_Z (Z.of_nat m) * t.
Proof.
  intros Ht. induction m as [| m IH].
  - rewrite of_nat_zero. apply Qcle_refl.
  - rewrite of_nat_step. qc_lra.
Qed.

Lemma left_turns (t d : Qc) (m : nat) : forall a,
  0 < t -> - of_Z 180 <= d -> d < of_Z 180 ->
  0 <= a -> a + of_Z (Z.of_nat m) * t = of_Z 360 ->
  Nat.iter m (turn_left t) (wrap_up (d - a)) = d.
Proof.
  induction m as [| m IH]; intros a Ht Hd0 Hd1 Ha Hsum.
  - cbv [Nat.iter nat_rect].
    assert (Ea : a = of_Z 360).
    { rewrite <- Hsum, of_nat_zero. ring. }
    subst a. destruct (ltb (d - of_Z 360) (- of_Z 180)) eqn:E.
    + cbv iota. ring.
    + apply ltb_ge in E. exfalso. qc_lra.
  - rewrite Nat.iter_succ_r. rewrite of_nat_step in Hsum.
    pose proof (of_nat_times_nonneg m Ht) as Hm.
    remember (of_Z (Z.of_nat m) * t) as r eqn:Hr.
    assert (Hs : a + (r + t) <= of_Z 360) by (rewrite Hsum; apply Qcle_refl).
    assert (Estep : turn_left t (wrap_up (d - a)) = wrap_up (d - (a + t))).
    { unfold turn_left.
      destruct (ltb (d - a) (- of_Z 180)) eqn:E1.
      - apply ltb_lt in E1.
        destruct (ltb (d - a + of_Z 360 - t) (- of_Z 180)) eqn:E2.
        + apply ltb_lt in E2. exfalso. qc_lra.
        + destruct (ltb (d - (a + t)) (- of_Z 180)) eqn:E3.
          * cbv iota. ring.
          * apply ltb_ge in E3. exfalso. qc_lra.
      - apply ltb_ge in E1.
        destruct (ltb (d - a - t) (- of_Z 180)) eqn:E2.
        + apply ltb_lt in E2.
          destruct (ltb (d - (a + t)) (- of_Z 180)) eqn:E3.
          * cbv iota. ring.
          * apply ltb_ge in E3. exfalso. qc_lra.
        + apply ltb_ge in E2.
          destruct (ltb (d - (a + t)) (- of_Z 180)) eqn:E3.
          * apply ltb_lt in E3. exfalso. qc_lra.
          * cbv iota. ring. }
    rewrite Estep. apply IH; try assumption.
    + qc_lra.
    + rewrite <- Hsum. subst r. ring.
Qed.

Lemma right_turns (t d : Qc) (m : nat) : forall a,
  0 < t -> - of_Z 180 < d -> d <= of_Z 180 ->
  0 <= a -> a + of_Z (Z.of_nat m) * t = of_Z 360 ->
  Nat.iter m (turn_right t) (wrap_down (d + a)) = d.
Proof.
  induction m as [| m IH]; intros a Ht Hd0 Hd1 Ha Hsum.
  - cbv [Nat.iter nat_rect].
    assert (Ea : a = of_Z 360).
    { rewrite <- Hsum, of_nat_zero. ring. }
    subst a. destruct (ltb (of_Z 180) (d + of_Z 360)) eqn:E.
    + cbv iota. ring.
    + apply ltb_ge in E. exfalso. qc_lra.
  - rewrite Nat.iter_succ_r. rewrite of_nat_step in Hsum.
    pose proof (of_nat_times_nonneg m Ht) as Hm.
    remember (of_Z (Z.of_nat m) * t) as r eqn:Hr.
    assert (Hs : a + (r + t) <= of_Z 360) by (rewrite Hsum; apply Qcle_refl).
    assert (Estep : turn_right t (wrap_down (d + a)) = wrap_down (d + (a + t))).
    { unfold turn_right.
      destruct (ltb (of_Z 180) (d + a)) eqn:E1.
      - apply ltb_lt in E1.
        destruct (ltb (of_Z 180) (d + a - of_Z 360 + t)) eqn:E2.
        + apply ltb_lt in E2. exfalso. qc_lra.
        + destruct (ltb (of_Z 180) (d + (a + t))) eqn:E3.
          * cbv iota. ring.
          * apply ltb_ge in E3. exfalso. qc_lra.
      - apply ltb_ge in E1.
        destruct (ltb (of_Z 180) (d + a + t)) eqn:E2.
        + apply ltb_lt in E2.
          destruct (ltb (of_Z 180) (d + (a + t))) eqn:E3.
          * cbv iota. ring.
          * apply ltb_ge in E3. exfalso. qc_lra.
        + apply ltb_ge in E2.
          destruct (ltb (of_Z 180) (d + (a + t))) eqn:E3.
          * apply ltb_lt in E3. exfalso. qc_lra.
          * cbv iota. ring. }
    rewrite Estep. apply IH; try assumption.
    + qc_lra.
    + rewrite <- Hsum. subst r. ring.
Qed.



(** *** The walled-in cell *)

Lemma cos_quarter_cases (d : Qc) :
  cos_quarter d = 1 \/ cos_quarter d = - (1) \/ cos_quarter d = 0.
Proof.
  unfold cos_quarter. destruct (eqb d 0); [now left |].
  destruct (eqb d (of_Z 180) || eqb d (- of_Z 180)); auto.
Qed.

Lemma sin_quarter_cases (d : Qc) :
  sin_quarter d = 1 \/ sin_quarter d = - (1) \/ sin_quarter d = 0.
Proof.
  unfold sin_quarter. destruct (eqb d (of_Z 90)); [now left |].
  destruct (eqb d (- of_Z 90)); auto.
Qed.

(** In the middle of the walled-in cell the forward action is a no-op under
    every heading. *)
Lemma walled_cell_blocks (d : Qc) :
  forward cos_quarter sin_quarter walled_cell 1
    (of_Z 1 + half, of_Z 1 + half, d) =
  (of_Z 1 + half, of_Z 1 + half, d).
Proof.
  unfold forward. rewrite check_corners_break.
  destruct (cos_quarter_cases d) as [-> | [-> | ->]],
           (sin_quarter_cases d) as [-> | [-> | ->]];
    match goal with
    | |- (let '(x1, y1) := if ?b then _ else _ in _) = _ =>
        let v := eval vm_compute in b in
        change b with v; cbv iota beta
    end;
    first [ reflexivity
          | f_equal; f_equal; apply Qc_is_canon; vm_compute; reflexivity ].
Qed.

End PlannerFacts.

(** ** Binary floating point *)

Module FloatFacts.

Import Num NumFacts Float.
Local Open Scope Q_scope.

(** [2 ^ e] as a rational number. *)
Lemma this_pow2 (e : Z) : this (pow2 e) == (2 # 1) ^ e.
Proof. unfold pow2. apply this_Q2Qc. Qed.

Lemma two_pow_pos (e : Z) : 0 < (2 # 1) ^ e.
Proof. apply Qpower_0_lt. reflexivity. Qed.

Lemma two_pow_plus (a b : Z) : (2 # 1) ^ (a + b) == (2 # 1) ^ a * (2 # 1) ^ b.
Proof. apply Qpower_plus. discriminate. Qed.

Lemma two_pow_Z (n : Z) : (0 <= n)%Z -> inject_Z (2 ^ n) == (2 # 1) ^ n.
Proof. intros H. apply (Zpower_Qpower 2 n H). Qed.

(** The absolute value, as a rational number. *)
Lemma this_abs (x : Qc) : this (abs x) == Qabs (this x).
Proof.
  unfold abs. destruct (ltb x 0) eqn:E.
  - apply ltb_lt in E. unfold Qclt in E. change (this 0%Qc) with 0 in E.
    rewrite this_opp. symmetry. apply Qabs_neg. lra.
  - apply ltb_ge in E. unfold Qcle in E. change (this 0%Qc) with 0 in E.
    symmetry. apply Qabs_pos. exact E.
Qed.

Lemma Qabs_make (n : Z) (d : positive) : Qabs (n # d) = (Z.abs n # d).
Proof. reflexivity. Qed.

(** The leading bit: [2 ^ ilog2 x <= |x|]. *)
Lemma ilog2_le (x : Qc) : x <> 0%Qc -> (2 # 1) ^ ilog2 x <= Qabs (this x).
Proof.
  intros Hx. unfold ilog2.
  destruct (ltb (abs x) (pow2 _)) eqn:E.
  - destruct x as [[n d] c]. cbn [this Qnum Qden] in *.
    assert (Hn : (0 < Z.abs n)%Z).
    { destruct (Z.eq_dec n 0) as [-> | H]; [| lia].
      exfalso. apply Hx. apply Qc_is_canon. reflexivity. }
    pose proof (Z.log2_spec _ Hn) as [Ha _].
    assert (Hd : (0 < Zpos d)%Z) by lia.
    pose proof (Z.log2_spec _ Hd) as [_ Hb].
    pose proof (Z.log2_nonneg (Z.abs n)) as La.
    pose proof (Z.log2_nonneg (Zpos d)) as Lb.
    set (la := Z.log2 (Z.abs n)) in *. set (lb := Z.log2 (Zpos d)) in *.
    rewrite Qabs_make.
    replace (la - lb - 1)%Z with (la + - (Z.succ lb))%Z by lia.
    rewrite two_pow_plus, Qpower_opp.
    rewrite <- (two_pow_Z La), <- (two_pow_Z (Z.le_le_succ_r _ _ Lb)).
    unfold Qle, Qmult, Qinv, inject_Z. cbn [Qnum Qden].
    assert (H2 : (0 < 2 ^ Z.succ lb)%Z) by (apply Z.pow_pos_nonneg; lia).
    destruct (2 ^ Z.succ lb)%Z as [| q | q] eqn:Eq; [lia | | lia].
    cbn [Qnum Qden]. rewrite !Z.mul_1_r.
    assert (H3 : (0 < 2 ^ la)%Z) by (apply Z.pow_pos_nonneg; lia).
    change (Z.pos (1 * q)) with (Z.pos q). nia.
  - apply ltb_ge in E. unfold Qcle in E. rewrite this_pow2, this_abs in E.
    exact E.
Qed.


Lemma two_pow_m1 : (2 # 1) ^ (-1) == 1 # 2.
Proof. reflexivity. Qed.

Lemma two_pow_m53 : (2 # 1) ^ (-53) == 1 # 9007199254740992.
Proof. reflexivity. Qed.

(** Rounding to the nearest double: the error is half a unit of the last
    place at most, which is [2 ^ -53] of the number or, for the subnormal
    numbers, [2 ^ -1075]. *)
Lemma fl_error_Q (x : Qc) :
  Qabs (this (fl x) - this x) <=
  (1 # 9007199254740992) * Qabs (this x) + (2 # 1) ^ (-1075).
Proof.
  pose proof (Qabs_nonneg (this x)) as Hax.
  pose proof (two_pow_pos (-1075)) as Hu.
  unfold fl. destruct (eqb x 0) eqn:E0.
  - apply eqb_eq in E0. subst x. change (this 0%Qc) with 0.
    setoid_replace (0 - 0) with 0 by ring. change (Qabs 0) with 0. lra.
  - assert (Hx : x <> 0%Qc).
    { intros ->. now rewrite (proj2 (eqb_eq 0%Qc 0%Qc) eq_refl) in E0. }
    set (e := ulp_exp x).
    pose proof (two_pow_pos e) as HP.
    pose proof (PlannerFacts.py_round_near (x / pow2 e)%Qc) as [Hlo Hhi].
    set (r := inject_Z (py_round (x / pow2 e)%Qc)) in *.
    rewrite this_div, this_pow2 in Hlo, Hhi.
    rewrite this_mult, this_pow2. unfold of_Z. rewrite this_Q2Qc. fold r.
    set (P := (2 # 1) ^ e) in *. set (y := this x) in *.
    assert (Hy : y / P * P == y) by (field; lra).
    assert (H1 : (r - (1 # 2)) * P <= y).
    { apply Qle_trans with (y / P * P); [| rewrite Hy; apply Qle_refl].
      apply Qmult_le_compat_r; lra. }
    assert (H2 : y <= (r + (1 # 2)) * P).
    { apply Qle_trans with (y / P * P); [rewrite Hy; apply Qle_refl |].
      apply Qmult_le_compat_r; lra. }
    assert (Hhalf : Qabs (r * P - y) <= P * (1 # 2)).
    { apply Qabs_Qle_condition. split.
      - setoid_replace (- (P * (1 # 2))) with ((r - (1 # 2)) * P - r * P) by ring.
        lra.
      - setoid_replace (P * (1 # 2)) with ((r + (1 # 2)) * P - r * P) by ring.
        lra. }
    apply (Qle_trans _ _ _ Hhalf).
    unfold P, e, ulp_exp.
    destruct (Z.max_spec (ilog2 x - 52) (-1074)) as [[_ ->] | [_ ->]].
    + change (-1075)%Z with (-1074 + -1)%Z.
      rewrite (two_pow_plus (-1074) (-1)), two_pow_m1.
      pose proof (two_pow_pos (-1074)). nra.
    + pose proof (ilog2_le Hx) as Hl. fold y in Hl.
      replace (ilog2 x - 52)%Z with (ilog2 x + -52)%Z by lia.
      rewrite two_pow_plus.
      change ((2 # 1) ^ (-52)) with (1 # 4503599627370496).
      pose proof (two_pow_pos (ilog2 x)).
      set (L := (2 # 1) ^ ilog2 x) in *. nra.
Qed.

Local Open Scope Qc_scope.

Lemma fl_error (x : Qc) :
  abs (fl x - x) <= pow2 (-53) * abs x + pow2 (-1075).
Proof.
  unfold Qcle. rewrite this_abs, this_plus, this_mult, this_abs, this_minus.
  rewrite !this_pow2, two_pow_m53. apply fl_error_Q.
Qed.

End FloatFacts.

(** ** The planner in binary floating point *)

Module Planner64Facts.

Import Num NumFacts Planner PlannerFacts Float FloatFacts Planner64.

(** *** The discretization key *)

Local Open Scope Q_scope.

Lemma tiny_unit : (2 # 1) ^ (-1075) <= 1 # 1152921504606846976.
Proof.
  apply Qle_trans with ((2 # 1) ^ (-60)); [| apply Qle_refl].
  apply Qpower_le_compat_l; [lia | discriminate].
Qed.

(** A key component is the double of a multiple of one fifth, within one
    tenth of the coordinate up to the allowance. *)
Lemma key_component_near64 (v : Qc) : nearest_fifth v (key_component v).
Proof.
  unfold key_component, KPREC, fmul.
  set (p := fl (v * of_Z 5)%Qc). set (n := py_round p).
  exists n. split; [reflexivity |].
  pose proof (fl_error_Q (v * of_Z 5)%Qc) as E1. fold p in E1.
  pose proof (PlannerFacts.py_round_near p) as E2. fold n in E2.
  pose proof (fl_error_Q (of_Z n / of_Z 5)%Qc) as E3.
  fold (fdiv (of_Z n) (of_Z 5)) in E3.
  set (k := fdiv (of_Z n) (of_Z 5)) in *.
  rewrite this_mult in E1. rewrite this_div in E3.
  unfold of_Z in E1, E3. rewrite !this_Q2Qc in E1, E3.
  change (inject_Z 5) with (5 # 1) in E1, E3.
  change (this (Q2Qc (5 # 1))) with (5 # 1) in E1, E3.
  pose proof tiny_unit as Hu. pose proof (two_pow_pos (-1075)) as Hu0.
  set (u := (2 # 1) ^ (-1075)) in *.
  pose proof (Qabs_nonneg (this v)) as HA0.
  pose proof (Qle_Qabs (this v)) as HA1.
  pose proof (Qle_Qabs (- this v)) as HA2. rewrite Qabs_opp in HA2.
  rewrite Qabs_Qmult in E1. change (Qabs (5 # 1)) with (5 # 1) in E1.
  set (V := this v) in *. set (A := Qabs V) in *.
  set (N := inject_Z n) in *. set (Pq := this p) in *. set (K := this k) in *.
  apply Qabs_Qle_condition in E1.
  assert (HB : Qabs (N / (5 # 1)) <= (2 # 1) * A + (1 # 4)).
  { apply Qabs_Qle_condition. unfold Qdiv. change (/ (5 # 1)) with (1 # 5).
    split; lra. }
  assert (E3' : Qabs (K - N / (5 # 1)) <=
                (1 # 9007199254740992) * ((2 # 1) * A + (1 # 4)) + u).
  { apply (Qle_trans _ _ _ E3).
    pose proof (Qabs_nonneg (N / (5 # 1))). lra. }
  apply Qabs_Qle_condition in E3'.
  unfold Qdiv in E3'. change (/ (5 # 1)) with (1 # 5) in E3'.
  unfold slack. unfold Qcle.
  rewrite !this_abs, !this_plus, !this_minus, !this_mult, !this_plus, !this_abs,
    !this_pow2.
  unfold of_Z. rewrite !this_Q2Qc.
  change (inject_Z 5) with (5 # 1). change (this 1%Qc) with 1.
  change ((2 # 1) ^ (-50)) with (1 # 1125899906842624).
  fold N V A K.
  split; apply Qabs_Qle_condition; split; lra.
Qed.

Local Close Scope Q_scope.
Local Open Scope nat_scope.

(** *** The search: invariant of the loop *)

Section Correctness.

Variables cos_deg sin_deg : Qc -> Qc.
Variable map : grid.
Variable goal : Z * Z.
Variables step_size turn_size : Qc.
Variable start : pose.

Local Abbreviation mv := (move cos_deg sin_deg map step_size turn_size).
Local Abbreviation at_goal := (Planner.at_goal goal).
Local Abbreviation visit_ := (visit cos_deg sin_deg map step_size turn_size).
Local Abbreviation expand_ := (expand cos_deg sin_deg map step_size turn_size).
Local Abbreviation bfs_ := (bfs cos_deg sin_deg map goal step_size turn_size).
Local Abbreviation entry := (pose * list action)%type.
Local Abbreviation run :=
  (Planner64.run cos_deg sin_deg map step_size turn_size).
Local Abbreviation poses_along :=
  (Planner64.poses_along cos_deg sin_deg map step_size turn_size).
Local Abbreviation core :=
  (Planner64.core cos_deg sin_deg map step_size turn_size start).
Local Abbreviation expanded_for :=
  (Planner64.expanded_for cos_deg sin_deg map step_size turn_size).
Local Abbreviation closed :=
  (Planner64.closed cos_deg sin_deg map goal step_size turn_size).
Local Abbreviation inv :=
  (Planner64.inv cos_deg sin_deg map goal step_size turn_size start).
Local Abbreviation reachable :=
  (Planner64.reachable cos_deg sin_deg map step_size turn_size start).
Local Abbreviation reachable_within :=
  (Planner64.reachable_within cos_deg sin_deg map step_size turn_size start).
Local Abbreviation exact_within :=
  (Planner64.exact_within cos_deg sin_deg map goal step_size turn_size start).
Local Abbreviation bounded_keys :=
  (Planner64.bounded_keys cos_deg sin_deg map step_size turn_size start).
Local Abbreviation within :=
  (Planner64.within cos_deg sin_deg map step_size turn_size start).
Local Abbreviation exact_on :=
  (Planner64.exact_on cos_deg sin_deg map goal step_size turn_size).

Lemma run_snoc64 (p : pose) (acts : list action) (a : action) :
  run p (acts ++ [a]) = mv (run p acts) a.
Proof. unfold run. now rewrite fold_left_app. Qed.

Lemma poses_along_snoc64 (p : pose) (acts : list action) (a : action) :
  poses_along p (acts ++ [a]) = poses_along p acts ++ [run p (acts ++ [a])].
Proof.
  revert p. induction acts as [| b acts IH]; intros p; simpl.
  - reflexivity.
  - now rewrite IH.
Qed.

Lemma expanded_for_extend64 G T p pa a :
  expanded_for G p pa a -> expanded_for (G ++ T) p pa a.
Proof.
  intros (j & q & acts & H & H'). exists j, q, acts.
  split; [now apply nth_error_extend | assumption].
Qed.

Lemma keys_of_poses64 (G : list entry) (q : pose) :
  In q (List.map fst G) -> In (key_of q) (keys_of G).
Proof.
  unfold keys_of. rewrite !in_map_iff. intros (e & <- & H). now exists e.
Qed.

Lemma visited_keys64 G s :
  core G s -> List.map fst (visited s) = keys_of G.
Proof.
  intros C. rewrite (core_visited C). unfold keys_of.
  rewrite map_map. reflexivity.
Qed.

Lemma core_nonempty64 G s : core G s -> exists G', G = (start, []) :: G'.
Proof.
  intros C. pose proof (core_head C) as H.
  destruct G as [| e G']; [discriminate |]. injection H as ->. now exists G'.
Qed.

Lemma visit_core64 G s p pa a s' :
  core G s -> 0 < que_ix s ->
  nth_error G (pred (que_ix s)) = Some (p, pa) ->
  (forall j e, nth_error G j = Some e -> length (snd e) <= S (length pa)) ->
  visit_ p a s = inr s' ->
  exists T, core (G ++ T) s' /\ que_ix s' = que_ix s /\
    (forall j e, nth_error (G ++ T) j = Some e ->
       length (snd e) <= S (length pa)) /\
    expanded_for (G ++ T) p pa a.
Proof.
  intros C Hix Hp Hb Hv. unfold visit in Hv.
  set (p1 := mv p a) in *.
  destruct (dict_mem key_eqb (key_of p1) (visited s)) eqn:M.
  - injection Hv as <-. exists []. rewrite app_nil_r.
    split; [assumption |]. split; [reflexivity |]. split; [assumption |].
    apply dict_mem_true in M; [| exact key_eqb_eq].
    rewrite (visited_keys64 C) in M. unfold keys_of in M.
    apply in_map_iff in M. destruct M as ([q acts] & Hk & Hin).
    apply In_nth_error in Hin. destruct Hin as [j Hj].
    exists j, q, acts. repeat split; auto.
    apply (Hb _ _ Hj).
  - apply (dict_mem_false _ key_eqb_eq) in M.
    rewrite (visited_keys64 C) in M.
    match type of Hv with (if ?b then _ else _) = _ => destruct b end;
      [| discriminate].
    injection Hv as <-.
    assert (Hnew : ~ In p1 (List.map fst G)).
    { intros H. apply M. now apply keys_of_poses64. }
    destruct (core_nonempty64 C) as [G' EG].
    assert (Hpa : length pa <= pred (que_ix s)) by apply (core_depth C _ Hp).
    pose proof (core_ix C) as Hlen.
    exists [(p1, pa ++ [a])]. split; [constructor |]; cbn [que que_ix visited parent parent_action].
    + rewrite (core_que C), map_app. reflexivity.
    + rewrite (dict_set_new _ key_eqb_eq) by (rewrite (visited_keys64 C); exact M).
      rewrite (core_visited C), map_app. reflexivity.
    + rewrite (dict_set_new _ pose_eqb_eq);
        [| rewrite (core_parent C); intros H; apply Hnew; subst G; simpl in *; tauto].
      rewrite !map_app, (core_parent C). cbn [List.map fst].
      symmetry. apply tl_snoc. subst G. discriminate.
    + rewrite (dict_set_new _ pose_eqb_eq);
        [| rewrite (core_action C); intros H; apply Hnew; subst G; simpl in *; tauto].
      rewrite !map_app, (core_action C). cbn [List.map fst].
      symmetry. apply tl_snoc. subst G. discriminate.
    + unfold keys_of. rewrite map_app. cbn [List.map fst].
      apply NoDup_app; [apply (core_nodup C) | repeat constructor; auto |].
      intros k Hk [<- | []]. now apply M.
    + apply nth_error_extend, (core_head C).
    + rewrite length_app. simpl. lia.
    + intros j q acts Hj. apply nth_error_snoc in Hj.
      destruct Hj as [[_ Hj] | [_ [= -> ->]]].
      * apply (core_run C _ Hj).
      * rewrite run_snoc64, (core_run C _ Hp). reflexivity.
    + intros i j e1 e2 Hij H1 H2.
      apply nth_error_snoc in H1, H2.
      destruct H1 as [[Hi H1] | [Hi ->]], H2 as [[Hj' H2] | [Hj' ->]].
      * apply (core_sorted C Hij H1 H2).
      * cbn [snd]. rewrite length_app. simpl. specialize (Hb _ _ H1). lia.
      * lia.
      * lia.
    + intros j q acts Hj. apply nth_error_snoc in Hj.
      destruct Hj as [[Hlt Hj] | [-> [= -> ->]]].
      * destruct (core_tree C _ Hj) as [H | (i & p' & pa' & a' & Hi & Hij & Hn & -> & -> & Hd1 & Hd2)];
          [now left | right].
        exists i, p', pa', a'.
        split; [exact Hi |]. split; [exact Hij |].
        split; [now apply nth_error_extend |].
        split; [reflexivity |]. split; [reflexivity |]. split.
        -- rewrite (dict_set_new _ pose_eqb_eq);
             [| rewrite (core_parent C); intros H; apply Hnew; subst G; simpl in *; tauto].
           now rewrite dict_get_app, Hd1.
        -- rewrite (dict_set_new _ pose_eqb_eq);
             [| rewrite (core_action C); intros H; apply Hnew; subst G; simpl in *; tauto].
           now rewrite dict_get_app, Hd2.
      * right. exists (pred (que_ix s)), p, pa, a.
        assert (Hget : forall (V : Type) (d : list (pose * V)) (v : V),
                   List.map fst d = tl (List.map fst G) ->
                   dict_get pose_eqb p1 (dict_set pose_eqb p1 v d) = Some v).
        { intros V d v Hd. rewrite (dict_set_new _ pose_eqb_eq);
            [| rewrite Hd; intros H; apply Hnew; subst G; simpl in *; tauto].
          rewrite dict_get_app.
          replace (dict_get pose_eqb p1 d) with (@None V).
          - simpl. now rewrite (proj2 (pose_eqb_eq p1 p1) eq_refl).
          - symmetry. apply (dict_get_none _ pose_eqb_eq).
            rewrite Hd. intros H. apply Hnew. subst G. simpl in *. tauto. }
        split; [lia |]. split; [lia |].
        split; [now apply nth_error_extend |].
        split; [reflexivity |]. split; [reflexivity |]. split.
        -- apply Hget, (core_parent C).
        -- apply Hget, (core_action C).
    + intros j e Hj. apply nth_error_snoc in Hj.
      destruct Hj as [[_ Hj] | [-> ->]].
      * apply (core_depth C _ Hj).
      * cbn [snd]. rewrite length_app. simpl. lia.
    + split; [reflexivity |]. split.
      * intros j e Hj. apply nth_error_snoc in Hj.
        destruct Hj as [[_ Hj] | [_ ->]]; [apply (Hb _ _ Hj) |].
        cbn [snd]. rewrite length_app. simpl. lia.
      * exists (length G), p1, (pa ++ [a]).
        split; [apply nth_error_snoc; right; auto |].
        split; [reflexivity |].
        rewrite length_app. simpl. lia.
Qed.

Lemma expand_core64 acts : forall G s p pa s',
  core G s -> 0 < que_ix s ->
  nth_error G (pred (que_ix s)) = Some (p, pa) ->
  (forall j e, nth_error G j = Some e -> length (snd e) <= S (length pa)) ->
  expand_ p acts s = inr s' ->
  exists T, core (G ++ T) s' /\ que_ix s' = que_ix s /\
    forall a, In a acts -> expanded_for (G ++ T) p pa a.
Proof.
  induction acts as [| a acts IH]; intros G s p pa s' C Hix Hp Hb He; simpl in He.
  - injection He as <-. exists []. rewrite app_nil_r.
    split; [assumption |]. split; [reflexivity |]. intros a [].
  - destruct (visit_ p a s) as [e | s1] eqn:Hv; [discriminate |].
    edestruct visit_core64 as (T1 & C1 & Hix1 & Hb1 & Hx1);
      [exact C | exact Hix | exact Hp | exact Hb | exact Hv |].
    assert (Hp1 : nth_error (G ++ T1) (pred (que_ix s1)) = Some (p, pa)).
    { rewrite Hix1. now apply nth_error_extend. }
    rewrite <- Hix1 in Hix.
    destruct (IH _ _ _ _ _ C1 Hix Hp1 Hb1 He) as (T2 & C2 & Hix2 & Hx2).
    exists (T1 ++ T2). rewrite app_assoc.
    split; [assumption |]. split; [congruence |].
    intros b [<- | Hb']; [now apply expanded_for_extend64 | now apply Hx2].
Qed.

Lemma core_advance64 G s p :
  core G s -> nth_error (que s) (que_ix s) = Some p -> core G (advance s).
Proof.
  intros C Hp. destruct C. constructor; cbn [advance que que_ix visited parent parent_action]; auto.
  - apply Nat.le_succ_l. rewrite <- (length_map fst), <- core_que0.
    apply nth_error_Some. congruence.
  - intros j q acts Hj.
    destruct (core_tree0 _ _ _ Hj) as [H | (i & p' & pa' & a' & Hi & H)];
      [now left | right].
    exists i, p', pa', a'. split; [lia | exact H].
Qed.

Lemma dequeue_bound64 G s p pa :
  core G s -> nth_error G (que_ix s) = Some (p, pa) ->
  forall j e, nth_error G j = Some e -> length (snd e) <= S (length pa).
Proof.
  intros C Hp j [q acts] Hj. cbn [snd].
  destruct (core_tree C _ Hj) as [[_ ->] | (i & p' & pa' & a' & Hi & _ & Hn & -> & _)].
  - simpl. lia.
  - rewrite length_app. simpl.
    assert (H : length (snd (p', pa')) <= length (snd (p, pa))).
    { apply (core_sorted C (i := i) (j := que_ix s)); [lia | assumption ..]. }
    simpl in H. lia.
Qed.

Lemma step_inv64 G s p s' :
  inv G s -> nth_error (que s) (que_ix s) = Some p ->
  at_goal p = false ->
  expand_ p all_actions (advance s) = inr s' ->
  exists T, inv (G ++ T) s'.
Proof.
  intros [C Hcl] Hp Hg He.
  assert (Hpa : exists pa, nth_error G (que_ix s) = Some (p, pa)).
  { rewrite (core_que C), nth_error_map in Hp.
    destruct (nth_error G (que_ix s)) as [[q pa] |]; [| discriminate].
    injection Hp as <-. now exists pa. }
  destruct Hpa as [pa Hpa].
  pose proof (core_advance64 C Hp) as Ca.
  destruct (@expand_core64 all_actions G (advance s) p pa s' Ca) as (T & C' & Hix & Hx);
    [simpl; lia | exact Hpa | exact (dequeue_bound64 C Hpa) | exact He |].
  exists T. split; [assumption |].
  rewrite Hix. cbn [advance que_ix].
  intros i q qa Hi Hq.
  destruct (Nat.eq_dec i (que_ix s)) as [-> | Hne].
  - rewrite (nth_error_extend _ T _ Hpa) in Hq. injection Hq as <- <-.
    split; [assumption |]. intros a. apply Hx, all_actions_complete.
  - assert (Hlt : i < que_ix s) by lia.
    assert (Hq' : nth_error G i = Some (q, qa)).
    { rewrite nth_error_app1 in Hq; [assumption |].
      pose proof (core_ix C). lia. }
    destruct (Hcl _ _ _ Hlt Hq') as [Hg' Hx'].
    split; [assumption |]. intros a. apply expanded_for_extend64, Hx'.
Qed.

Lemma visit_raises64 p a s e : visit_ p a s = inl e -> e = RunawayDijkstra.
Proof.
  unfold visit. intros Hv.
  repeat match type of Hv with
         | (if ?b then _ else _) = _ => destruct b
         end; congruence.
Qed.

Lemma expand_raises64 p l : forall s e,
  expand_ p l s = inl e -> e = RunawayDijkstra.
Proof.
  induction l as [| a l IHl]; intros s e; simpl; [discriminate |].
  destruct (visit_ p a s) as [e' | s1] eqn:Hv; [| apply IHl].
  intros [= <-]. apply (visit_raises64 _ _ _ Hv).
Qed.

Lemma bfs_inv64 fuel : forall G s, inv G s ->
  match bfs_ fuel s with
  | Found s' g =>
      exists G' pa, core G' s' /\ 0 < que_ix s' /\
        closed G' (pred (que_ix s')) /\
        nth_error G' (pred (que_ix s')) = Some (g, pa) /\
        at_goal g = true
  | Exhausted s' => exists G', inv G' s' /\ que_ix s' = length G'
  | SearchRaised e => e = RunawayDijkstra
  | SearchOutOfFuel => True
  end.
Proof.
  induction fuel as [| fuel IH]; intros G s I; cbn [bfs]; [exact Logic.I |].
  destruct (nth_error (que s) (que_ix s)) as [p |] eqn:Hp.
  - destruct (at_goal p) eqn:Hg.
    + destruct I as [C Hcl].
      assert (Hpa : exists pa, nth_error G (que_ix s) = Some (p, pa)).
      { pose proof Hp as Hp'. rewrite (core_que C), nth_error_map in Hp'.
        destruct (nth_error G (que_ix s)) as [[q pa] |]; [| discriminate].
        injection Hp' as <-. now exists pa. }
      destruct Hpa as [pa Hpa].
      exists G, pa. cbn [advance que_ix pred].
      split; [exact (core_advance64 C Hp) |]. split; [lia |]. auto.
    + destruct (expand_ p all_actions (advance s)) as [e | s'] eqn:He.
      * apply (expand_raises64 _ _ _ He).
      * destruct (step_inv64 I Hp Hg He) as [T I']. apply (IH _ _ I').
  - exists G. split; [assumption |].
    destruct I as [C _]. pose proof (core_ix C).
    apply nth_error_None in Hp. rewrite (core_que C), length_map in Hp. lia.
Qed.

Lemma inv_initial64 : inv [(start, [])] (initial start).
Proof.
  split.
  - constructor; simpl; auto.
    + repeat constructor. simpl. tauto.
    + intros [| [| j]] q acts; simpl; [| discriminate ..].
      now intros [= <- <-].
    + intros [| [| i]] [| [| j]] e1 e2 Hij; simpl; try discriminate; try lia.
      intros [= <-] [= <-]. lia.
    + intros [| [| j]] q acts; simpl; [| discriminate ..].
      intros [= <- <-]. now left.
    + intros [| [| j]] e; simpl; [| discriminate ..].
      intros [= <-]. simpl. lia.
  - intros i p pa Hi. simpl in Hi. lia.
Qed.

(** *** The path read back from the parent dictionaries *)

Lemma core_poses_nodup64 G s : core G s -> NoDup (List.map fst G).
Proof.
  intros C. pose proof (core_nodup C) as H. unfold keys_of in H.
  rewrite <- (map_map fst key_of) in H.
  apply (NoDup_map_inv key_of _ H).
Qed.

Lemma walk_back_core64 G s : core G s ->
  forall acts j q fuel path actions,
  nth_error G j = Some (q, acts) -> length acts < fuel ->
  walk_back fuel s q path actions =
  Some (inr (path ++ rev (poses_along start acts), actions ++ rev acts)).
Proof.
  intros C acts. induction acts as [| a pa IH] using rev_ind;
    intros j q fuel path actions Hj Hf.
  - pose proof (core_run C _ Hj) as Hq. simpl in Hq. subst q.
    destruct fuel as [| fuel]; [simpl in Hf; lia |]. cbn [walk_back].
    replace (dict_get pose_eqb start (parent_action s)) with (@None action).
    + simpl. now rewrite !app_nil_r.
    + symmetry. apply (dict_get_none _ pose_eqb_eq).
      rewrite (core_action C).
      pose proof (core_poses_nodup64 C) as Hnd.
      destruct (core_nonempty64 C) as [G' ->]. simpl in *.
      now inversion Hnd.
  - destruct (core_tree C _ Hj)
      as [[_ H] | (i & p' & pa' & a' & _ & _ & Hi & Ha & _ & Hd1 & Hd2)].
    + now destruct pa.
    + apply app_inj_tail in Ha. destruct Ha as [<- <-].
      rewrite length_app in Hf. simpl in Hf.
      destruct fuel as [| fuel]; [lia |]. cbn [walk_back].
      rewrite Hd2, Hd1.
      rewrite (IH i p' fuel (path ++ [q]) (actions ++ [a]) Hi) by lia.
      rewrite poses_along_snoc64, !rev_app_distr. simpl.
      rewrite (core_run C _ Hj), <- !app_assoc. reflexivity.
Qed.

(** *** Every action sequence is followed inside the queue *)

(** *** Termination: the fuel is never used up *)

Lemma visit_sized64 p a s s' :
  sized s -> visit_ p a s = inr s' ->
  sized s' /\ que_ix s' = que_ix s.
Proof.
  intros (Hq & Hv & Hi). unfold visit.
  destruct (dict_mem key_eqb _ (visited s)) eqn:M.
  - intros [= <-]. split; [split; [| split] | reflexivity]; assumption.
  - apply (dict_mem_false _ key_eqb_eq) in M.
    rewrite (dict_set_new _ key_eqb_eq _ _ _ M).
    cbn [visited]. destruct (Z.ltb_spec (Z.of_nat (length (visited s ++
      [(key_of (mv p a), true)]))) RUNAWAY) as [Hlt | Hge]; [| discriminate].
    intros [= <-]. unfold sized. cbn [que visited que_ix].
    rewrite !length_app in *. simpl length in *.
    split; [split; [| split] | reflexivity]; lia.
Qed.

Lemma expand_sized64 p l : forall s s',
  sized s -> expand_ p l s = inr s' -> sized s' /\ que_ix s' = que_ix s.
Proof.
  induction l as [| a l IH]; intros s s' Hs; simpl.
  - intros [= <-]. now split.
  - destruct (visit_ p a s) as [e | s1] eqn:Hv; [discriminate |].
    destruct (visit_sized64 _ _ Hs Hv) as [Hs1 Hi1]. intros He.
    destruct (IH _ _ Hs1 He) as [Hs' Hi']. split; [assumption | congruence].
Qed.

Lemma bfs_fuel64 fuel : forall s,
  sized s -> Z.to_nat RUNAWAY <= fuel + que_ix s ->
  bfs_ fuel s <> SearchOutOfFuel.
Proof.
  induction fuel as [| fuel IH]; intros s Hs Hf.
  - destruct Hs as (Hq & Hv & Hi). lia.
  - cbn [bfs]. destruct (nth_error (que s) (que_ix s)) as [p |] eqn:Hp;
      [| discriminate].
    destruct (at_goal p); [discriminate |].
    destruct (expand_ p all_actions (advance s)) as [e | s'] eqn:He;
      [discriminate |].
    assert (Hs1 : sized (advance s)).
    { destruct Hs as (Hq & Hv & Hi). unfold sized.
      cbn [advance que visited que_ix].
      split; [assumption |]. split; [assumption |].
      apply Nat.le_succ_l, nth_error_Some. congruence. }
    destruct (expand_sized64 _ _ Hs1 He) as [Hs' Hi'].
    apply IH; [assumption |]. rewrite Hi'. cbn [advance que_ix]. lia.
Qed.

Lemma sized_initial64 : sized (initial start).
Proof.
  unfold sized, RUNAWAY. simpl.
  split; [reflexivity |]. split; [reflexivity | apply le_0_n].
Qed.

Lemma bfs_terminates64 : bfs_ search_fuel (initial start) <> SearchOutOfFuel.
Proof. apply bfs_fuel64; [apply sized_initial64 |]. unfold search_fuel. lia. Qed.

(** *** No runaway while the reachable keys are few *)

Lemma visit_bounded64 G s p pa a :
  core G s -> nth_error G (pred (que_ix s)) = Some (p, pa) ->
  bounded_keys -> exists s', visit_ p a s = inr s'.
Proof.
  intros C Hp (l & Hl & Hlen). unfold visit.
  destruct (dict_mem key_eqb _ (visited s)) eqn:M; [now eexists |].
  apply (dict_mem_false _ key_eqb_eq) in M.
  rewrite (dict_set_new _ key_eqb_eq _ _ _ M). cbn [visited].
  rewrite (visited_keys64 C) in M.
  assert (Hle : length (keys_of G ++ [key_of (mv p a)]) <= length l).
  { apply NoDup_incl_length.
    - apply NoDup_app; [apply (core_nodup C) | repeat constructor; auto |].
      intros k Hk [<- | []]. now apply M.
    - intros k Hk. apply in_app_or in Hk. destruct Hk as [Hk | [<- | []]].
      + unfold keys_of in Hk. apply in_map_iff in Hk.
        destruct Hk as ([q qa] & <- & Hin).
        apply In_nth_error in Hin. destruct Hin as [j Hj].
        apply Hl. exists qa. apply (core_run C _ Hj).
      + apply Hl. exists (pa ++ [a]).
        now rewrite run_snoc64, (core_run C _ Hp). }
  rewrite length_app in Hle. unfold keys_of in Hle. rewrite length_map in Hle.
  rewrite length_app, (core_visited C), length_map. simpl in *.
  destruct (Z.ltb_spec (Z.of_nat (length G + 1)) RUNAWAY); [now eexists | lia].
Qed.

Lemma expand_bounded64 acts : forall G s p pa,
  core G s -> 0 < que_ix s ->
  nth_error G (pred (que_ix s)) = Some (p, pa) ->
  (forall j e, nth_error G j = Some e -> length (snd e) <= S (length pa)) ->
  bounded_keys -> exists s', expand_ p acts s = inr s'.
Proof.
  induction acts as [| a acts IH]; intros G s p pa C Hix Hp Hb HB; simpl.
  - now eexists.
  - destruct (visit_bounded64 a C Hp HB) as [s1 Hv]. rewrite Hv.
    edestruct visit_core64 as (T1 & C1 & Hix1 & Hb1 & _);
      [exact C | exact Hix | exact Hp | exact Hb | exact Hv |].
    apply (IH (G ++ T1) s1 p pa); auto.
    + now rewrite Hix1.
    + rewrite Hix1. now apply nth_error_extend.
Qed.

Lemma bfs_bounded64 fuel : forall G s,
  inv G s -> bounded_keys ->
  forall e, bfs_ fuel s <> SearchRaised e.
Proof.
  induction fuel as [| fuel IH]; intros G s I HB e; cbn [bfs]; [discriminate |].
  destruct (nth_error (que s) (que_ix s)) as [p |] eqn:Hp; [| discriminate].
  destruct (at_goal p) eqn:Hg; [discriminate |].
  destruct I as [C Hcl].
  assert (Hpa : exists pa, nth_error G (que_ix s) = Some (p, pa)).
  { pose proof Hp as Hp'. rewrite (core_que C), nth_error_map in Hp'.
    destruct (nth_error G (que_ix s)) as [[q pa] |]; [| discriminate].
    injection Hp' as <-. now exists pa. }
  destruct Hpa as [pa Hpa].
  destruct (@expand_bounded64 all_actions G (advance s) p pa) as [s' He]; auto.
  - exact (core_advance64 C Hp).
  - simpl. lia.
  - exact (dequeue_bound64 C Hpa).
  - rewrite He.
    destruct (step_inv64 (conj C Hcl) Hp Hg He) as [T I']. apply (IH _ _ I' HB).
Qed.

Lemma bfs_sized64 fuel : forall s s',
  sized s ->
  (exists g, bfs_ fuel s = Found s' g) \/ bfs_ fuel s = Exhausted s' ->
  sized s'.
Proof.
  induction fuel as [| fuel IH]; intros s s' Hs; cbn [bfs].
  - intros [[g H] | H]; discriminate.
  - destruct (nth_error (que s) (que_ix s)) as [p |] eqn:Hp.
    + assert (Hs1 : sized (advance s)).
      { destruct Hs as (Hq & Hv & Hi). unfold sized.
        cbn [advance que visited que_ix].
        split; [assumption |]. split; [assumption |].
        apply Nat.le_succ_l, nth_error_Some. congruence. }
      destruct (at_goal p).
      * intros [[g [= <- _]] | H]; [assumption | discriminate].
      * destruct (expand_ p all_actions (advance s)) as [e | s1] eqn:He.
        -- intros [[g H] | H]; discriminate.
        -- apply IH. apply (expand_sized64 _ _ Hs1 He).
    + intros [[g H] | [= <-]]; [discriminate | assumption].
Qed.

Lemma bfs_core64 fuel s' :
  (exists g, bfs_ fuel (initial start) = Found s' g) \/
  bfs_ fuel (initial start) = Exhausted s' ->
  exists G, core G s'.
Proof.
  pose proof (bfs_inv64 fuel inv_initial64) as H.
  intros [[g E] | E]; rewrite E in H.
  - destruct H as (G & pa & C & _). now exists G.
  - destruct H as (G & [C _] & _). now exists G.
Qed.


(** *** Every action sequence is followed inside the queue *)

Lemma exact_within_le (n m : nat) : n <= m -> exact_within m -> exact_within n.
Proof.
  intros Hnm H p q (pa & Hpa & Ep) (qa & Hqa & Eq). apply H.
  - exists pa. split; [lia | exact Ep].
  - exists qa. split; [lia | exact Eq].
Qed.

Lemma follow64 G s n L :
  core G s -> closed G n -> exact_within L ->
  (forall j e, nth_error G j = Some e -> length (snd e) <= L -> j < n) ->
  forall acts, length acts <= L ->
  exists i q qa, i < n /\ nth_error G i = Some (q, qa) /\
    key_of q = key_of (run start acts) /\ length qa <= length acts.
Proof.
  intros C Hcl Hex HL acts. induction acts as [| a acts IH] using rev_ind;
    intros Hlen.
  - exists 0, start, []. split; [| now split; [apply (core_head C) |]].
    apply (HL 0 (start, [])); [apply (core_head C) | simpl; lia].
  - rewrite length_app in Hlen. simpl in Hlen.
    destruct IH as (i & q & qa & Hi & Hq & Hk & Hd); [lia |].
    destruct (Hcl _ _ _ Hi Hq) as [_ Hx].
    destruct (Hx a) as (j & q' & qa' & Hq' & Hk' & Hd').
    exists j, q', qa'. split; [| split; [assumption | split]].
    + apply (HL j (q', qa') Hq'). simpl. lia.
    + rewrite run_snoc64, Hk'.
      apply Hex; [| | assumption].
      * exists qa. split; [lia | apply (core_run C _ Hq)].
      * exists acts. split; [lia | reflexivity].
    + rewrite length_app. simpl. lia.
Qed.

Lemma closed_not_goal64 G s n L acts i q qa :
  core G s -> closed G n -> exact_within L ->
  i < n -> nth_error G i = Some (q, qa) ->
  length qa <= L -> length acts <= L ->
  key_of q = key_of (run start acts) ->
  at_goal (run start acts) = false.
Proof.
  intros C Hcl Hex Hi Hq Hqa Hacts Hk.
  destruct (Hcl _ _ _ Hi Hq) as [Hg _]. rewrite <- Hg. symmetry.
  apply Hex; [| | assumption].
  - exists qa. split; [assumption | apply (core_run C _ Hq)].
  - exists acts. split; [assumption | reflexivity].
Qed.

(** No sequence of [L] actions at most leads into the goal cell while the
    entries of that depth are closed. *)
Lemma closed_level64 G s n L :
  core G s -> closed G n -> exact_within L ->
  (forall j e, nth_error G j = Some e -> length (snd e) <= L -> j < n) ->
  forall acts, length acts <= L -> at_goal (run start acts) = false.
Proof.
  intros C Hcl Hex HL acts Hlen.
  destruct (follow64 C Hcl Hex HL acts Hlen) as (i & q & qa & Hi & Hq & Hk & Hd).
  apply (closed_not_goal64 acts C Hcl Hex Hi Hq); [lia | assumption | assumption].
Qed.

Local Abbreviation find_shortest_ :=
  (find_shortest cos_deg sin_deg map start goal step_size turn_size).

(** What [find_shortest] returns when the search has found [g]. *)
Lemma found_returns64 G s g pa :
  core G s -> 0 < que_ix s ->
  nth_error G (pred (que_ix s)) = Some (g, pa) ->
  walk_back (length (que s)) s g [] [] =
  Some (inr (rev (poses_along start pa), rev pa)).
Proof.
  intros C Hix Hg.
  rewrite (@walk_back_core64 G s C pa _ g (length (que s)) [] [] Hg);
    [reflexivity |].
  pose proof (core_depth C _ Hg) as Hd. pose proof (core_ix C) as Hi.
  rewrite (core_que C), length_map. simpl in Hd. lia.
Qed.


(** *** Deciding exactness on the poses within [n] actions *)

Lemma same_eq (a b : Qc) : same a b = true <-> a = b.
Proof.
  unfold same. rewrite andb_true_iff, Z.eqb_eq, Pos.eqb_eq. split.
  - intros [Hn Hd]. apply Qc_is_canon.
    destruct a as [[an ad] ca], b as [[bn bd] cb]. cbn in *. now subst.
  - intros ->. now split.
Qed.

Lemma same_triple_eq (p q : Qc * Qc * Qc) : same_triple p q = true <-> p = q.
Proof.
  destruct p as [[a b] c], q as [[a' b'] c']. unfold same_triple.
  rewrite !andb_true_iff, !same_eq. split.
  - intros [[-> ->] ->]. reflexivity.
  - intros [= -> -> ->]. auto.
Qed.

Lemma insert_all_in (ps : list pose) : forall l p,
  In p (insert_all ps l) <-> In p ps \/ In p l.
Proof.
  induction ps as [| x ps IH]; intros l p; cbn [insert_all].
  - simpl. tauto.
  - rewrite IH. destruct (existsb (same_triple x) l) eqn:E.
    + apply existsb_exists in E. destruct E as (y & Hy & Exy).
      apply same_triple_eq in Exy. subst y. simpl. intuition (subst; auto).
    + rewrite in_app_iff. simpl. intuition (subst; auto).
Qed.

Lemma within_mono (n : nat) (p : pose) : In p (within n) -> In p (within (S n)).
Proof. intros H. cbn [Planner64.within]. apply insert_all_in. now right. Qed.

Lemma within_le (n m : nat) (p : pose) :
  n <= m -> In p (within n) -> In p (within m).
Proof.
  induction 1 as [| m Hnm IH]; [trivial |]. intros H. apply within_mono, IH, H.
Qed.

Lemma within_complete (n : nat) : forall p, reachable_within n p -> In p (within n).
Proof.
  intros p (acts & Hlen & <-). revert n Hlen.
  induction acts as [| a acts IH] using rev_ind; intros n Hlen.
  - apply (@within_le 0 n); [lia | now left].
  - rewrite length_app in Hlen. simpl in Hlen.
    destruct n as [| n]; [lia |].
    rewrite run_snoc64. cbn [Planner64.within]. apply insert_all_in. left.
    apply in_flat_map. exists (run start acts). split; [apply IH; lia |].
    apply in_map, all_actions_complete.
Qed.

Lemma exact_by_enumeration64 (n : nat) :
  exact_on (within n) = true -> exact_within n.
Proof.
  unfold Planner64.exact_on. intros H p q Hp Hq Hk.
  apply within_complete in Hp, Hq.
  rewrite forallb_forall in H.
  specialize (H _ (in_map (Planner64.signature cos_deg sin_deg map goal
                             step_size turn_size) _ _ Hp)).
  rewrite forallb_forall in H.
  specialize (H _ (in_map (Planner64.signature cos_deg sin_deg map goal
                             step_size turn_size) _ _ Hq)).
  unfold Planner64.signature in H. cbn [fst snd] in H.
  rewrite (proj2 (same_triple_eq _ _) Hk) in H.
  unfold same_behaviour in H. cbn [fst snd all_actions List.map combine forallb] in H.
  rewrite !andb_true_iff in H. destruct H as (Hg & H0 & H1 & H2 & _).
  apply Bool.eqb_prop in Hg. apply same_triple_eq in H0, H1, H2.
  split; [exact Hg |]. intros []; assumption.
Qed.

End Correctness.

(** *** Concrete runs *)

Local Open Scope Qc_scope.


(** On the open 5 x 5 map, with a step of one cell and quarter turns, the
    discretization is exact on the poses within eight actions of the start
    pose [(0.25, 0.25, 0)]: 226 poses, with the values that [np.cos] and
    [np.sin] take at the quarter turns. *)
Lemma open_grid_exact :
  exact_within cos_double sin_double (open_map 5 5) (4, 3)%Z 1 (of_Z 90)
    corner_start 8.
Proof. apply exact_by_enumeration64. vm_cast_no_check (eq_refl true). Qed.


(** The sequence returned on that input has eight actions, and the search
    has visited 112 keys. *)
Example find_shortest_open_grid64 :
  find_shortest_summary
    (find_shortest cos_double sin_double (open_map 5 5) corner_start (4, 3)%Z
       1 (of_Z 90)) =
  Some ([Forward; Forward; Forward; Forward; TurnRight; Forward; Forward; Forward],
        112%nat).
Proof.
  vm_cast_no_check
    (eq_refl (Some ([Forward; Forward; Forward; Forward; TurnRight; Forward;
                     Forward; Forward], 112%nat))).
Qed.

(** *** The discretization key, as the search uses it *)

(** C4 (amended).  The key of a pose holds, for each of [x], [y] and the
    heading [v], the double of [n / 5], where [n] is the integer that
    [round] makes of the double of [5 v]: a multiple of one fifth, within
    one tenth of [v] up to the rounding of the product and of the quotient.
    A successor whose key is in the visited set already is not queued:
    [visit] leaves the search state as it is. *)
Theorem key_rounds_to_fifths (cos_deg sin_deg : Qc -> Qc) (map : grid)
    (step_size turn_size x y d : Qc) :
  let key := key_of (x, y, d) in
  nearest_fifth x (fst (fst key)) /\
  nearest_fifth y (snd (fst key)) /\
  nearest_fifth d (snd key) /\
  forall p a s,
    move cos_deg sin_deg map step_size turn_size p a = (x, y, d) ->
    dict_mem key_eqb key (visited s) = true ->
    visit cos_deg sin_deg map step_size turn_size p a s = inr s.
Proof.
  cbn [key_of fst snd].
  split; [apply key_component_near64 |].
  split; [apply key_component_near64 |].
  split; [apply key_component_near64 |].
  intros p a s Hm Hv. unfold visit. rewrite Hm. cbn [key_of].
  now rewrite Hv.
Qed.

(** C4, refuted as stated: the pose [(1/16, 0, 0)] has the key [(0, 0, 0)],
    which is not the pose rounded to five decimal digits, [(0.0625, 0, 0)];
    it shares its key with the pose [(0, 0, 0)]. *)
Lemma key_is_not_five_decimals :
  key_of (Q2Qc (1 # 16), 0, 0) = (0, 0, 0) /\
  round_digits_key 5 (Q2Qc (1 # 16), 0, 0) = (Q2Qc (1 # 16), 0, 0) /\
  key_eqb (key_of (Q2Qc (1 # 16), 0, 0))
          (round_digits_key 5 (Q2Qc (1 # 16), 0, 0)) = false /\
  key_of (Q2Qc (1 # 16), 0, 0) = key_of (0, 0, 0).
Proof.
  repeat split; try (apply key_eqb_eq); vm_compute; reflexivity.
Qed.

(** The allowance is needed: the double of [0.3] has the double of [0.4]
    as key component, which lies more than one tenth above it. *)
Example key_beyond_a_tenth :
  key_component (fl (Q2Qc 0.3)) = fl (Q2Qc 0.4) /\
  Q2Qc 0.1 < fl (Q2Qc 0.4) - fl (Q2Qc 0.3).
Proof. split; [vm_compute; reflexivity | qc_decide]. Qed.

End Planner64Facts.

(** ** The navigation policy *)

Module PolicyFacts.

Import Num Planner Policy.
Local Open Scope Qc_scope.

Section CallFacts.

Variables cos_deg sin_deg : Qc -> Qc.
Variable heading_of : Qc -> Qc -> Qc.
Variable rng : Type.
Variable randint : Z -> rng -> Z * rng.
Variable rand : rng -> Qc * rng.

Local Abbreviation call :=
  (Policy.call cos_deg sin_deg heading_of randint rand).
Local Abbreviation plan_loop :=
  (Policy.plan_loop cos_deg sin_deg randint rand).
Local Abbreviation _generate_goal := (Policy._generate_goal randint).
Local Abbreviation ensure_goal := (Policy.ensure_goal randint).
Local Abbreviation check_drift := (Policy.check_drift randint).
Local Abbreviation observed_pose := (Policy.observed_pose heading_of).
Local Abbreviation CallOutOfFuel := (Policy.CallOutOfFuel rng).

Lemma call_unfold fuel self obs g :
  call fuel self obs g =
  match ensure_goal fuel (on_reset self obs) (map_agent obs) g with
  | None => CallOutOfFuel
  | Some (self1, g1) =>
      match check_drift fuel self1 (map_agent obs)
              (fst (agent_pos obs)) (snd (agent_pos obs)) g1 with
      | None => CallOutOfFuel
      | Some (self2, g2) =>
          plan_loop fuel self2 (map_agent obs) (observed_pose obs) g2
      end
  end.
Proof.
  unfold call, observed_pose.
  destruct (agent_pos obs) as [x y], (agent_dir obs) as [dx dy]. reflexivity.
Qed.

(** C8 (amended).  When the policy holds a goal and an expected pose from
    the previous call, the observation is no reset, and the observed
    position [(x, y)] is not close to the expected position, the call draws
    a new goal and plans for it from the observed pose: its outcome is that
    of the planning loop started with the new goal, and does not depend on
    the goal held before. *)
Theorem drift_replans (fuel : nat) (self : policy) (obs : observation)
    (g : rng) (goal : Z * Z) (e : pose) :
  reset obs = false ->
  _goal self = Some goal ->
  _expected_pos self = Some e ->
  pos_isclose e (fst (agent_pos obs)) (snd (agent_pos obs)) = false ->
  call fuel self obs g =
    match _generate_goal fuel (map_agent obs) g with
    | Some (goal', g') =>
        plan_loop fuel (set_goal self (Some goal')) (map_agent obs)
          (observed_pose obs) g'
    | None => CallOutOfFuel
    end /\
  forall stale : Z * Z,
    call fuel (set_goal self (Some stale)) obs g = call fuel self obs g.
Proof.
  intros Hr Hg He Hfar.
  assert (H : forall s, reset obs = false -> (exists gl, _goal s = Some gl) ->
                _expected_pos s = Some e ->
                call fuel s obs g =
                match _generate_goal fuel (map_agent obs) g with
                | Some (goal', g') =>
                    plan_loop fuel (set_goal s (Some goal')) (map_agent obs)
                      (observed_pose obs) g'
                | None => CallOutOfFuel
                end).
  { intros s Hr' [gl Hg'] He'. rewrite call_unfold.
    unfold on_reset, ensure_goal, check_drift.
    rewrite Hr', Hg', He', Hfar. cbn [negb].
    destruct (_generate_goal fuel (map_agent obs) g) as [[goal' g'] |];
      reflexivity. }
  split.
  - apply H; [assumption | now exists goal | assumption].
  - intros stale.
    rewrite (H self), (H (set_goal self (Some stale)));
      [| assumption | now exists stale | assumption
       | assumption | now exists goal | assumption].
    destruct (_generate_goal fuel (map_agent obs) g) as [[goal' g'] |];
      reflexivity.
Qed.

(** C10 (amended).  Only the position is compared: when the policy holds a
    goal and an expected pose, the observation is no reset and the observed
    position is close to the expected position, the drift test changes
    nothing, whatever the expected heading and the observed heading are,
    and the call plans for the goal it holds without drawing a number
    first.  Whether the goal is kept is then up to the plan.  Where the plan
    for it is not empty, the call returns an action and holds the same goal
    afterwards.  Where the plan is empty, as it is when the agent is
    observed in the goal cell, the call draws a new goal and goes on with
    the planning loop for the new goal.  Where the planner fails, so does
    the call. *)
Theorem drift_ignores_heading (fuel : nat) (self : policy)
    (obs : observation) (g : rng) (goal : Z * Z) (ex ey ed : Qc) :
  reset obs = false ->
  _goal self = Some goal ->
  _expected_pos self = Some (ex, ey, ed) ->
  isclose ex (fst (agent_pos obs)) (Q2Qc (1 # 1000)) = true ->
  isclose ey (snd (agent_pos obs)) (Q2Qc (1 # 1000)) = true ->
  let plan :=
    find_shortest cos_deg sin_deg (map_agent obs) (observed_pose obs) goal
      (step_size self) (turn_size self) in
  let redrawn :=
    match _generate_goal fuel (map_agent obs) g with
    | Some (goal', g') =>
        plan_loop fuel (set_goal self (Some goal')) (map_agent obs)
          (observed_pose obs) g'
    | None => CallOutOfFuel
    end in
  check_drift fuel self (map_agent obs)
    (fst (agent_pos obs)) (snd (agent_pos obs)) g = Some (self, g) /\
  call fuel self obs g =
    plan_loop fuel self (map_agent obs) (observed_pose obs) g /\
  (forall ed' : Qc,
     check_drift fuel (set_expected_pos self (Some (ex, ey, ed')))
       (map_agent obs) (fst (agent_pos obs)) (snd (agent_pos obs)) g =
     Some (set_expected_pos self (Some (ex, ey, ed')), g)) /\
  (forall a acts path nvis, plan = Returned (a :: acts) path nvis ->
     exists act self' g',
       call (S fuel) self obs g = Acted act self' g' /\
       _goal self' = Some goal) /\
  (forall path nvis, plan = Returned [] path nvis ->
     call (S fuel) self obs g = redrawn) /\
  (at_goal goal (observed_pose obs) = true ->
     call (S fuel) self obs g = redrawn) /\
  (forall e, plan = Raised e ->
     call (S fuel) self obs g = CallRaised rng (PlannerRaised e)).
Proof.
  intros Hr Hg He Hx Hy plan redrawn.
  assert (Hd : forall fuel, check_drift fuel self (map_agent obs)
                 (fst (agent_pos obs)) (snd (agent_pos obs)) g = Some (self, g)).
  { intros n. unfold Policy.check_drift. rewrite He. cbn [pos_isclose].
    now rewrite Hx, Hy. }
  assert (Hc : forall fuel, call fuel self obs g =
                 plan_loop fuel self (map_agent obs) (observed_pose obs) g).
  { intros n. rewrite call_unfold. unfold on_reset, Policy.ensure_goal.
    rewrite Hr, Hg, Hd. reflexivity. }
  assert (Hempty : forall path nvis, plan = Returned [] path nvis ->
                     call (S fuel) self obs g = redrawn).
  { intros path nvis Hp. rewrite Hc. cbn [Policy.plan_loop].
    rewrite Hg. fold plan. rewrite Hp. reflexivity. }
  split; [apply Hd |]. split; [apply Hc |]. split; [| split; [| split; [| split]]].
  - intros ed'. unfold Policy.check_drift.
    cbn [set_expected_pos _expected_pos pos_isclose]. now rewrite Hx, Hy.
  - intros a acts path nvis Hp. rewrite Hc. cbn [Policy.plan_loop].
    rewrite Hg.
    pose proof (PlannerFacts.returned_plan cos_deg sin_deg (map_agent obs) goal
                  (step_size self) (turn_size self) (observed_pose obs)) as HR.
    fold plan in HR |- *. rewrite Hp in HR |- *. destruct HR as (Hpath & _).
    destruct (rand g) as [u g1]. destruct (ltb u (epsilon self)).
    + destruct (randint 3 g1) as [r g2]. do 3 eexists.
      split; [reflexivity | exact Hg].
    + rewrite Hpath. cbn [Planner.poses_along]. do 3 eexists.
      split; [reflexivity | exact Hg].
  - exact Hempty.
  - intros Ha. apply (Hempty [] 1%nat). unfold plan.
    apply PlannerFacts.start_at_goal, Ha.
  - intros e Hp. rewrite Hc. cbn [Policy.plan_loop]. rewrite Hg. fold plan.
    rewrite Hp. reflexivity.
Qed.

End CallFacts.

(** *** Concrete calls *)

(** C8, refuted as stated: the expected pose [(0.25, 0.25, 90)] and the
    observed pose [(0.25, 0.25, 0)] are not close, their headings are a
    quarter turn apart, and the call keeps the goal [(4, 3)], draws no new
    goal (the one draw is that of [rand]) and returns the first action of
    the plan for the old goal. *)
Lemma heading_drift_is_not_detected :
  pose_isclose (quarter, quarter, of_Z 90)
    (observed_pose heading_quarter at_corner) = false /\
  summary (tape_call 10 (navigator (4, 3)%Z (quarter, quarter, of_Z 90)) at_corner
             [999; 1; 2]%Z) =
  Some (action_code Forward, Some (4, 3)%Z, [1; 2]%Z).
Proof. split; vm_compute; reflexivity. Qed.

Lemma drift_replans_witness :
  let self := navigator (4, 3)%Z (of_Z 1 + quarter, quarter, 0) in
  (reset at_corner = false /\
   _goal self = Some (4, 3)%Z /\
   pos_isclose (of_Z 1 + quarter, quarter, 0) (fst (agent_pos at_corner))
     (snd (agent_pos at_corner)) = false) /\
  (tape_call 10 self at_corner [2; 2; 999]%Z =
     match _generate_goal tape_randint 10 (map_agent at_corner) [2; 2; 999]%Z with
     | Some (goal', g') =>
         plan_loop cos_quarter sin_quarter tape_randint tape_rand 10
           (set_goal self (Some goal')) (map_agent at_corner)
           (observed_pose heading_quarter at_corner) g'
     | None => CallOutOfFuel (list Z)
     end /\
   forall stale : Z * Z,
     tape_call 10 (set_goal self (Some stale)) at_corner [2; 2; 999]%Z =
     tape_call 10 self at_corner [2; 2; 999]%Z).
Proof.
  intros self. split.
  - split; [| split]; vm_compute; reflexivity.
  - apply (@drift_replans cos_quarter sin_quarter heading_quarter (list Z)
             tape_randint tape_rand 10 self at_corner [2; 2; 999]%Z
             (4, 3)%Z (of_Z 1 + quarter, quarter, 0));
      vm_compute; reflexivity.
Defined.

(** On that input the call draws the goal [(2, 2)] and starts toward it. *)
Example drift_replans_run :
  summary (tape_call 10 (navigator (4, 3)%Z (of_Z 1 + quarter, quarter, 0)) at_corner
             [2; 2; 999]%Z) =
  Some (action_code Forward, Some (2, 2)%Z, []).
Proof. vm_compute. reflexivity. Qed.

(** C10, refuted as stated: the policy holds the goal [(0, 0)] and the
    expected pose [(0.25, 0.25, 90)], and the agent is observed at
    [(0.25, 0.25)] with the heading [0], a quarter turn off.  No drift is
    detected, and yet the goal is not kept: the agent is in the goal cell,
    the plan is empty, and the call ends holding the new goal [(2, 2)]. *)
Lemma arrival_replaces_goal :
  let self := navigator (0, 0)%Z (quarter, quarter, of_Z 90) in
  (reset at_corner = false /\
   isclose quarter (fst (agent_pos at_corner)) (Q2Qc (1 # 1000)) = true /\
   isclose quarter (snd (agent_pos at_corner)) (Q2Qc (1 # 1000)) = true /\
   pose_isclose (quarter, quarter, of_Z 90)
     (observed_pose heading_quarter at_corner) = false) /\
  check_drift tape_randint 10 self (map_agent at_corner)
    (fst (agent_pos at_corner)) (snd (agent_pos at_corner)) [2; 2; 999]%Z =
    Some (self, [2; 2; 999]%Z) /\
  _goal self = Some (0, 0)%Z /\
  summary (tape_call 10 self at_corner [2; 2; 999]%Z) =
  Some (action_code Forward, Some (2, 2)%Z, []).
Proof. intros self. repeat split; vm_compute; reflexivity. Qed.

Lemma drift_ignores_heading_witness :
  let self := navigator (4, 3)%Z (quarter, quarter, of_Z 90) in
  let obs := at_corner in
  let g := [999]%Z in
  let plan :=
    find_shortest cos_quarter sin_quarter (map_agent obs)
      (observed_pose heading_quarter obs) (4, 3)%Z (step_size self)
      (turn_size self) in
  let redrawn :=
    match _generate_goal tape_randint 9 (map_agent obs) g with
    | Some (goal', g') =>
        plan_loop cos_quarter sin_quarter tape_randint tape_rand 9
          (set_goal self (Some goal')) (map_agent obs)
          (observed_pose heading_quarter obs) g'
    | None => CallOutOfFuel (list Z)
    end in
  (reset obs = false /\
   isclose quarter (fst (agent_pos obs)) (Q2Qc (1 # 1000)) = true /\
   isclose quarter (snd (agent_pos obs)) (Q2Qc (1 # 1000)) = true) /\
  (check_drift tape_randint 9 self (map_agent obs)
     (fst (agent_pos obs)) (snd (agent_pos obs)) g = Some (self, g) /\
   tape_call 9 self obs g =
     plan_loop cos_quarter sin_quarter tape_randint tape_rand 9 self
       (map_agent obs) (observed_pose heading_quarter obs) g /\
   (forall ed' : Qc,
      check_drift tape_randint 9
        (set_expected_pos self (Some (quarter, quarter, ed')))
        (map_agent obs) (fst (agent_pos obs)) (snd (agent_pos obs)) g =
      Some (set_expected_pos self (Some (quarter, quarter, ed')), g)) /\
   (forall a acts path nvis, plan = Returned (a :: acts) path nvis ->
      exists act self' g',
        tape_call 10 self obs g = Acted act self' g' /\
        _goal self' = Some (4, 3)%Z) /\
   (forall path nvis, plan = Returned [] path nvis ->
      tape_call 10 self obs g = redrawn) /\
   (at_goal (4, 3)%Z (observed_pose heading_quarter obs) = true ->
      tape_call 10 self obs g = redrawn) /\
   (forall e, plan = Raised e ->
      tape_call 10 self obs g = CallRaised (list Z) (PlannerRaised e))).
Proof.
  intros self obs g. split.
  - split; [| split]; vm_compute; reflexivity.
  - apply (@drift_ignores_heading cos_quarter sin_quarter heading_quarter
             (list Z) tape_randint tape_rand 9 self at_corner [999]%Z
             (4, 3)%Z quarter quarter (of_Z 90));
      vm_compute; reflexivity.
Defined.

(** On that input the plan is not empty, and the call goes forward and
    keeps the goal [(4, 3)]. *)
Example drift_ignores_heading_run :
  summary (tape_call 10 (navigator (4, 3)%Z (quarter, quarter, of_Z 90))
             at_corner [999]%Z) =
  Some (action_code Forward, Some (4, 3)%Z, []).
Proof. vm_compute. reflexivity. Qed.

(** *** The calls of the policy, on every input *)

Lemma tape_randint_range (n : Z) (t : list Z) :
  (0 < n)%Z -> (0 <= fst (tape_randint n t) < n)%Z.
Proof.
  intros Hn. destruct t as [| z t]; cbn [tape_randint fst]; [lia |].
  apply Z.mod_pos_bound, Hn.
Qed.

(** The tolerance test accepts a number for itself. *)
Lemma abs_nonneg (q : Qc) : 0 <= abs q.
Proof.
  unfold abs. destruct (ltb q 0) eqn:E.
  - apply NumFacts.ltb_lt in E. qc_lra.
  - apply NumFacts.ltb_ge in E. exact E.
Qed.

Lemma isclose_refl (a : Qc) : isclose a a (Q2Qc (1 # 1000)) = true.
Proof.
  unfold isclose. apply NumFacts.leb_le.
  replace (a - a) with 0 by ring.
  pose proof (abs_nonneg a) as H.
  assert (E : abs 0 = 0) by (apply NumFacts.eqb_eq; vm_compute; reflexivity).
  rewrite E. unfold ATOL.
  remember (abs a) as b. clear Heqb.
  assert (H1 : 0 <= Q2Qc (1 # 1000) * b).
  { replace 0 with (0 * b) by ring.
    apply Qcmult_le_compat_r; [qc_decide | exact H]. }
  remember (Q2Qc (1 # 1000) * b) as c. clear Heqc. qc_lra.
Qed.

Section Outcomes.

Variables cos_deg sin_deg : Qc -> Qc.
Variable heading_of : Qc -> Qc -> Qc.
Variable rng : Type.
Variable randint : Z -> rng -> Z * rng.
Variable rand : rng -> Qc * rng.

Local Abbreviation call :=
  (Policy.call cos_deg sin_deg heading_of randint rand).
Local Abbreviation plan_loop :=
  (Policy.plan_loop cos_deg sin_deg randint rand).
Local Abbreviation _generate_goal := (Policy._generate_goal randint).
Local Abbreviation ensure_goal := (Policy.ensure_goal randint).
Local Abbreviation check_drift := (Policy.check_drift randint).
Local Abbreviation observed_pose := (Policy.observed_pose heading_of).
Local Abbreviation CallOutOfFuel := (Policy.CallOutOfFuel rng).

(** The generator keeps [randint n] in [[0, n)]. *)
Local Abbreviation in_range :=
  (forall n h, (0 < n)%Z -> (0 <= fst (randint n h) < n)%Z).

Lemma generate_goal_cell fuel : forall map g x y g',
  _generate_goal fuel map g = Some ((x, y), g') ->
  cell map x y <> WALL /\
  (in_range -> (0 < shape0 map)%Z -> (0 < shape1 map)%Z ->
   (0 <= x < shape0 map)%Z /\ (0 <= y < shape1 map)%Z).
Proof.
  induction fuel as [| fuel IH]; intros map g x y g';
    cbn [Policy._generate_goal]; [discriminate |].
  destruct (randint (shape0 map) g) as [x0 g1] eqn:E0.
  destruct (randint (shape1 map) g1) as [y0 g2] eqn:E1.
  destruct (cell map x0 y0 =? WALL)%Z eqn:Ec; cbn [negb].
  - apply IH.
  - intros [= <- <- <-]. split; [now apply Z.eqb_neq |].
    intros Hr H0 H1. pose proof (Hr _ g H0) as A. pose proof (Hr _ g1 H1) as B.
    rewrite E0 in A. rewrite E1 in B. exact (conj A B).
Qed.

Lemma generate_goal_walls fuel : forall map g,
  in_range -> (0 < shape0 map)%Z -> (0 < shape1 map)%Z ->
  (forall x y, (0 <= x < shape0 map)%Z -> (0 <= y < shape1 map)%Z ->
     cell map x y = WALL) ->
  _generate_goal fuel map g = None.
Proof.
  induction fuel as [| fuel IH]; intros map g Hr H0 H1 Hw;
    cbn [Policy._generate_goal]; [reflexivity |].
  destruct (randint (shape0 map) g) as [x0 g1] eqn:E0.
  destruct (randint (shape1 map) g1) as [y0 g2] eqn:E1.
  pose proof (Hr _ g H0) as A. pose proof (Hr _ g1 H1) as B.
  rewrite E0 in A. rewrite E1 in B. cbn [fst] in A, B.
  rewrite (Hw _ _ A B), Z.eqb_refl. cbn [negb]. now apply IH.
Qed.

(** X4.  With a generator that keeps [randint n] in [[0, n)], on a map with
    at least one row and one column: a goal that [_generate_goal] returns
    is a cell of the map that is no wall; a first draw on such a cell is
    returned at once, after two draws; and on a map whose cells are all
    walls the loop never returns, whatever the fuel. *)
Theorem generated_goal_is_free (fuel : nat) (map : grid) (g : rng) :
  in_range -> (0 < shape0 map)%Z -> (0 < shape1 map)%Z ->
  match _generate_goal fuel map g with
  | Some ((x, y), _) =>
      (0 <= x < shape0 map)%Z /\ (0 <= y < shape1 map)%Z /\
      cell map x y <> WALL
  | None => True
  end /\
  (cell map (fst (randint (shape0 map) g))
     (fst (randint (shape1 map) (snd (randint (shape0 map) g)))) <> WALL ->
   _generate_goal (S fuel) map g =
   Some ((fst (randint (shape0 map) g),
          fst (randint (shape1 map) (snd (randint (shape0 map) g)))),
         snd (randint (shape1 map) (snd (randint (shape0 map) g))))) /\
  ((forall x y, (0 <= x < shape0 map)%Z -> (0 <= y < shape1 map)%Z ->
      cell map x y = WALL) ->
   _generate_goal fuel map g = None).
Proof.
  intros Hr H0 H1. split; [| split].
  - destruct (_generate_goal fuel map g) as [[[x y] g'] |] eqn:E; [| exact I].
    destruct (generate_goal_cell fuel map g E) as [Hc Hb].
    destruct (Hb Hr H0 H1) as [Hx Hy]. auto.
  - intros Hc. cbn [Policy._generate_goal].
    destruct (randint (shape0 map) g) as [x g1]. cbn [fst snd] in *.
    destruct (randint (shape1 map) g1) as [y g2]. cbn [fst snd] in *.
    apply Z.eqb_neq in Hc. now rewrite Hc.
  - intros Hw. now apply generate_goal_walls.
Qed.

(** What the planning loop returns. *)
Lemma plan_loop_acted fuel : forall self map p g a self' g',
  plan_loop fuel self map p g = Acted a self' g' ->
  same_settings self self' /\
  exists goal', _goal self' = Some goal' /\
    at_goal goal' p = false /\
    ((_expected_pos self' = None /\ exists g1, a = fst (randint 3 g1)) \/
     exists act acts,
       a = action_code act /\
       _expected_pos self' =
         Some (move cos_deg sin_deg map (step_size self) (turn_size self) p act) /\
       at_goal goal'
         (run cos_deg sin_deg map (step_size self) (turn_size self) p
            (act :: acts)) = true).
Proof.
  induction fuel as [| fuel IH]; intros self map p g a self' g';
    cbn [Policy.plan_loop]; [discriminate |].
  destruct (_goal self) as [goal |] eqn:Hg; [| discriminate].
  pose proof (PlannerFacts.returned_plan cos_deg sin_deg map goal (step_size self)
                (turn_size self) p) as HR.
  destruct (find_shortest cos_deg sin_deg map p goal (step_size self)
              (turn_size self)) as [acts path nvis | e |]; [| discriminate ..].
  destruct acts as [| act acts].
  - destruct (_generate_goal fuel map g) as [[goal' g1] |]; [| discriminate].
    intros H. apply IH in H. exact H.
  - destruct HR as (Hp & Hgoal & _).
    destruct Hgoal as [Hs Hr]; [discriminate |].
    destruct (rand g) as [u g1].
    destruct (ltb u (epsilon self)).
    + destruct (randint 3 g1) as [r g2] eqn:Er. intros [= <- <- <-].
      split; [repeat split |]. exists goal. split; [exact Hg |].
      split; [exact Hs |]. left. split; [reflexivity |].
      exists g1. now rewrite Er.
    + rewrite Hp. cbn [Planner.poses_along]. intros [= <- <- <-].
      split; [repeat split |]. exists goal. split; [exact Hg |].
      split; [exact Hs |]. right. exists act, acts. auto.
Qed.

Lemma plan_loop_raised fuel : forall self map p g e,
  _goal self <> None ->
  plan_loop fuel self map p g = CallRaised rng e ->
  e = PlannerRaised RunawayDijkstra.
Proof.
  induction fuel as [| fuel IH]; intros self map p g e Hne;
    cbn [Policy.plan_loop]; [discriminate |].
  destruct (_goal self) as [goal |] eqn:Hg; [| now destruct Hne].
  pose proof (PlannerFacts.returned_plan cos_deg sin_deg map goal (step_size self)
                (turn_size self) p) as HR.
  destruct (find_shortest cos_deg sin_deg map p goal (step_size self)
              (turn_size self)) as [acts path nvis | e' |]; [| | discriminate].
  - destruct acts as [| act acts].
    + destruct (_generate_goal fuel map g) as [[goal' g1] |]; [| discriminate].
      apply IH. discriminate.
    + destruct HR as (Hp & _). destruct (rand g) as [u g1].
      destruct (ltb u (epsilon self)).
      * destruct (randint 3 g1); discriminate.
      * rewrite Hp. cbn [Planner.poses_along]. discriminate.
  - intros [= <-]. now subst e'.
Qed.

(** The policy after the three tests that precede the planning loop. *)
Lemma call_prepares fuel self obs g :
  match ensure_goal fuel (on_reset self obs) (map_agent obs) g with
  | None => True
  | Some (self1, g1) =>
      same_settings self self1 /\ _goal self1 <> None /\
      match check_drift fuel self1 (map_agent obs)
              (fst (agent_pos obs)) (snd (agent_pos obs)) g1 with
      | None => True
      | Some (self2, g2) => same_settings self self2 /\ _goal self2 <> None
      end
  end.
Proof.
  unfold Policy.ensure_goal, Policy.check_drift, on_reset.
  assert (S0 : same_settings self
                 (if reset obs then set_expected_pos (set_goal self None) None
                  else self)).
  { destruct (reset obs); repeat split. }
  destruct (if reset obs then _ else self) as [ss ts eps gl ex] eqn:E0.
  cbn [_goal]. clear E0.
  assert (K : forall s1 : policy, same_settings self s1 -> _goal s1 <> None ->
            forall g1,
            match
              match _expected_pos s1 with
              | Some e =>
                  if negb (pos_isclose e (fst (agent_pos obs))
                             (snd (agent_pos obs)))
                  then
                    match _generate_goal fuel (map_agent obs) g1 with
                    | Some (goal, g') => Some (set_goal s1 (Some goal), g')
                    | None => None
                    end
                  else Some (s1, g1)
              | None => Some (s1, g1)
              end
            with
            | None => True
            | Some (self2, _) => same_settings self self2 /\ _goal self2 <> None
            end).
  { intros s1 Hs Hg1 g1. destruct (_expected_pos s1) as [e |]; [| now split].
    destruct (negb _); [| now split].
    destruct (_generate_goal fuel (map_agent obs) g1) as [[goal g'] |];
      [| exact I].
    split; [exact Hs | discriminate]. }
  destruct gl as [goal |].
  - split; [exact S0 |]. split; [discriminate |].
    apply K; [exact S0 | discriminate].
  - destruct (_generate_goal fuel (map_agent obs) g) as [[goal g'] |];
      [| exact I].
    split; [exact S0 |]. split; [discriminate |].
    apply K; [exact S0 | discriminate].
Qed.

Local Abbreviation call_obs :=
  (Policy.call_obs cos_deg sin_deg heading_of randint rand).


(** X6.  On a reset observation the policy forgets the goal and the
    expected pose it holds: the outcome of the call is the same for any two
    policies with the same step size, turn size and [epsilon]. *)
Theorem reset_forgets (fuel : nat) (self other : policy) (obs : observation)
    (g : rng) :
  reset obs = true ->
  same_settings self other ->
  call fuel self obs g = call fuel other obs g.
Proof.
  intros Hr (S1 & S2 & S3). rewrite !call_unfold. unfold on_reset. rewrite Hr.
  destruct self as [ss ts eps gl ex], other as [ss' ts' eps' gl' ex'].
  cbn in S1, S2, S3. subst ss' ts' eps'. reflexivity.
Qed.

(** X7.  When the agent is observed in the cell of the goal that the policy
    holds (no reset, no expected pose), the call returns no action for that
    goal: the plan is empty, a new goal is drawn, and the outcome is that of
    the planning loop for the new goal. *)
Theorem arrival_draws_new_goal (fuel : nat) (self : policy)
    (obs : observation) (g : rng) (goal : Z * Z) :
  reset obs = false ->
  _goal self = Some goal ->
  _expected_pos self = None ->
  at_goal goal (observed_pose obs) = true ->
  call (S fuel) self obs g =
    match _generate_goal fuel (map_agent obs) g with
    | Some (goal', g') =>
        plan_loop fuel (set_goal self (Some goal')) (map_agent obs)
          (observed_pose obs) g'
    | None => CallOutOfFuel
    end.
Proof.
  intros Hr Hg He Ha. rewrite call_unfold.
  unfold on_reset, Policy.ensure_goal, Policy.check_drift.
  rewrite Hr, Hg, He. cbn [Policy.plan_loop]. rewrite Hg.
  rewrite (PlannerFacts.start_at_goal cos_deg sin_deg (map_agent obs) goal (step_size self)
             (turn_size self) (observed_pose obs) Ha).
  reflexivity.
Qed.

Lemma plan_loop_stuck fuel : forall self map x y d g a self' g',
  (forall d', forward cos_deg sin_deg map (step_size self) (x, y, d') =
              (x, y, d')) ->
  plan_loop fuel self map (x, y, d) g <> Acted a self' g'.
Proof.
  induction fuel as [| fuel IH]; intros self map x y d g a self' g' Hf;
    cbn [Policy.plan_loop]; [discriminate |].
  destruct (_goal self) as [goal |] eqn:Hg; [| discriminate].
  pose proof (PlannerFacts.returned_plan cos_deg sin_deg map goal (step_size self)
                (turn_size self) (x, y, d)) as HR.
  destruct (find_shortest cos_deg sin_deg map (x, y, d) goal (step_size self)
              (turn_size self)) as [acts path nvis | e' |]; [| discriminate ..].
  destruct acts as [| act acts].
  - destruct (_generate_goal fuel map g) as [[goal' g1] |]; [| discriminate].
    apply IH. exact Hf.
  - exfalso. destruct HR as (_ & Hgoal & _).
    destruct Hgoal as [Hs Hr]; [discriminate |].
    pose proof (@PlannerFacts.run_stays cos_deg sin_deg map (step_size self) (turn_size self)
                  (x, y, d) Hf (act :: acts)) as Hst.
    destruct (Planner.run _ _ _ _ _ (x, y, d) (act :: acts)) as [[x' y'] d'].
    cbn [fst] in Hst. injection Hst as -> ->.
    cbn [at_goal] in Hs, Hr. congruence.
Qed.

(** X8.  Where the forward action is a no-op at the observed position under
    every heading, no goal has a plan that is not empty, and the loop
    [while True] of the call draws goal after goal: the call returns no
    action, whatever the fuel. *)
Theorem stuck_agent_never_acts (fuel : nat) (self : policy)
    (obs : observation) (g : rng) :
  (forall d, forward cos_deg sin_deg (map_agent obs) (step_size self)
               (fst (agent_pos obs), snd (agent_pos obs), d) =
             (fst (agent_pos obs), snd (agent_pos obs), d)) ->
  forall a self' g', call fuel self obs g <> Acted a self' g'.
Proof.
  intros Hf a self' g'. rewrite call_unfold.
  pose proof (call_prepares fuel self obs g) as HP.
  destruct (ensure_goal fuel (on_reset self obs) (map_agent obs) g)
    as [[self1 g1] |]; [| discriminate].
  destruct HP as (_ & _ & HP).
  destruct (check_drift fuel self1 (map_agent obs) (fst (agent_pos obs))
              (snd (agent_pos obs)) g1) as [[self2 g2] |]; [| discriminate].
  destruct HP as [(S1 & _) _].
  unfold Policy.observed_pose. apply plan_loop_stuck. now rewrite S1.
Qed.

(** X21.  When a call has returned an action of the plan, and the next
    observation (no reset) shows the agent at the position of the expected
    pose, the next call keeps the goal: it draws no number before the
    planning loop and plans from the observed pose for the goal that the
    first call held.  The expected pose is the pose that the returned action
    leads to, in the planner's model, from the pose observed first. *)
Theorem on_track_keeps_goal (fuel fuel' : nat) (self self' : policy)
    (obs obs' : observation) (g g' h : rng) (a : Z) (e : pose) :
  call fuel self obs g = Acted a self' g' ->
  _expected_pos self' = Some e ->
  reset obs' = false ->
  agent_pos obs' = (fst (fst e), snd (fst e)) ->
  exists goal,
    _goal self' = Some goal /\
    e = move cos_deg sin_deg (map_agent obs) (step_size self) (turn_size self)
          (observed_pose obs)
          match a with 0%Z => TurnLeft | 1%Z => TurnRight | _ => Forward end /\
    call fuel' self' obs' h =
      plan_loop fuel' self' (map_agent obs') (observed_pose obs') h.
Proof.
  intros Hc He Hr Hp. rewrite call_unfold in Hc.
  pose proof (call_prepares fuel self obs g) as HP.
  destruct (ensure_goal fuel (on_reset self obs) (map_agent obs) g)
    as [[self1 g1] |]; [| discriminate].
  destruct HP as (_ & _ & HP).
  destruct (check_drift fuel self1 (map_agent obs) (fst (agent_pos obs))
              (snd (agent_pos obs)) g1) as [[self2 g2] |]; [| discriminate].
  destruct HP as [(S1 & S2 & _) _].
  apply plan_loop_acted in Hc.
  destruct Hc as (_ & goal & Hg & _ & Hcase). rewrite S1, S2 in Hcase.
  destruct Hcase as [[Hn _] | (act & acts & Ha & Hex & _)]; [congruence |].
  exists goal. split; [exact Hg |]. split.
  - rewrite He in Hex.
    apply (f_equal (fun o => match o with Some v => v | None => e end)) in Hex.
    cbv beta iota in Hex. rewrite Hex, Ha. now destruct act.
  - rewrite call_unfold. unfold on_reset, Policy.ensure_goal, Policy.check_drift.
    rewrite Hr, Hg, He, Hp. destruct e as [[ex ey] ed]. cbn [fst snd pos_isclose].
    now rewrite !isclose_refl.
Qed.

End Outcomes.

Lemma generated_goal_is_free_witness :
  ((forall n h, (0 < n)%Z -> (0 <= fst (tape_randint n h) < n)%Z) /\
   (0 < shape0 (open_map 5 5))%Z /\ (0 < shape1 (open_map 5 5))%Z) /\
  (match _generate_goal tape_randint 9 (open_map 5 5) [7; 3]%Z with
   | Some ((x, y), _) =>
       (0 <= x < shape0 (open_map 5 5))%Z /\
       (0 <= y < shape1 (open_map 5 5))%Z /\
       cell (open_map 5 5) x y <> WALL
   | None => True
   end /\
   (cell (open_map 5 5) (fst (tape_randint (shape0 (open_map 5 5)) [7; 3]%Z))
      (fst (tape_randint (shape1 (open_map 5 5))
              (snd (tape_randint (shape0 (open_map 5 5)) [7; 3]%Z)))) <> WALL ->
    _generate_goal tape_randint 10 (open_map 5 5) [7; 3]%Z =
    Some ((fst (tape_randint (shape0 (open_map 5 5)) [7; 3]%Z),
           fst (tape_randint (shape1 (open_map 5 5))
                  (snd (tape_randint (shape0 (open_map 5 5)) [7; 3]%Z)))),
          snd (tape_randint (shape1 (open_map 5 5))
                 (snd (tape_randint (shape0 (open_map 5 5)) [7; 3]%Z))))) /\
   ((forall x y, (0 <= x < shape0 (open_map 5 5))%Z ->
       (0 <= y < shape1 (open_map 5 5))%Z ->
       cell (open_map 5 5) x y = WALL) ->
    _generate_goal tape_randint 9 (open_map 5 5) [7; 3]%Z = None)).
Proof.
  assert (H0 : (0 < shape0 (open_map 5 5))%Z) by (vm_compute; reflexivity).
  assert (H1 : (0 < shape1 (open_map 5 5))%Z) by (vm_compute; reflexivity).
  split; [split; [exact tape_randint_range | split; assumption] |].
  apply (@generated_goal_is_free (list Z) tape_randint 9 (open_map 5 5)
           [7; 3]%Z tape_randint_range H0 H1).
Defined.

(** On that input the two draws [7] and [3] give the goal [(2, 3)]. *)
Example generated_goal_run :
  _generate_goal tape_randint 9 (open_map 5 5) [7; 3]%Z = Some ((2, 3)%Z, []).
Proof. vm_compute. reflexivity. Qed.

Lemma reset_forgets_witness :
  let obs := {| agent_pos := (quarter, quarter); agent_dir := (1, 0);
                map_agent := open_map 5 5; reset := true |} in
  let self := navigator (4, 3)%Z (of_Z 3 + quarter, quarter, 0) in
  let other := navigator (0, 1)%Z (quarter, quarter, 0) in
  (reset obs = true /\ same_settings self other) /\
  tape_call 10 self obs [2; 2; 999]%Z = tape_call 10 other obs [2; 2; 999]%Z.
Proof.
  intros obs self other.
  assert (Hr : reset obs = true) by reflexivity.
  assert (Hs : same_settings self other) by (repeat split).
  split; [split; assumption |].
  apply (@reset_forgets cos_quarter sin_quarter heading_quarter (list Z)
           tape_randint tape_rand 10 self other obs [2; 2; 999]%Z Hr Hs).
Defined.

Lemma arrival_draws_new_goal_witness :
  let self := {| step_size := 1; turn_size := of_Z 90; epsilon := Q2Qc 0.1;
                 _goal := Some (0, 0)%Z; _expected_pos := None |} in
  (reset at_corner = false /\ _goal self = Some (0, 0)%Z /\
   _expected_pos self = None /\
   at_goal (0, 0)%Z (observed_pose heading_quarter at_corner) = true) /\
  tape_call 10 self at_corner [2; 2; 999]%Z =
    match _generate_goal tape_randint 9 (map_agent at_corner) [2; 2; 999]%Z with
    | Some (goal', g') =>
        plan_loop cos_quarter sin_quarter tape_randint tape_rand 9
          (set_goal self (Some goal')) (map_agent at_corner)
          (observed_pose heading_quarter at_corner) g'
    | None => CallOutOfFuel (list Z)
    end.
Proof.
  intros self.
  assert (Ha : at_goal (0, 0)%Z (observed_pose heading_quarter at_corner) = true)
    by (vm_compute; reflexivity).
  split; [repeat split; exact Ha |].
  apply (@arrival_draws_new_goal cos_quarter sin_quarter heading_quarter
           (list Z) tape_randint tape_rand 9 self at_corner [2; 2; 999]%Z
           (0, 0)%Z eq_refl eq_refl eq_refl Ha).
Defined.

(** On that input the call draws the goal [(2, 2)] and starts toward it. *)
Example arrival_run :
  summary
    (tape_call 10
       {| step_size := 1; turn_size := of_Z 90; epsilon := Q2Qc 0.1;
          _goal := Some (0, 0)%Z; _expected_pos := None |}
       at_corner [2; 2; 999]%Z) =
  Some (action_code Forward, Some (2, 2)%Z, []).
Proof. vm_compute. reflexivity. Qed.

Lemma stuck_agent_never_acts_witness :
  (forall d, forward cos_quarter sin_quarter (map_agent walled_in)
               (step_size (navigator (0, 0)%Z (0, 0, 0)))
               (fst (agent_pos walled_in), snd (agent_pos walled_in), d) =
             (fst (agent_pos walled_in), snd (agent_pos walled_in), d)) /\
  forall a self' g',
    tape_call 10 (navigator (0, 0)%Z (0, 0, 0)) walled_in [1; 1]%Z <>
    Acted a self' g'.
Proof.
  assert (H : forall d, forward cos_quarter sin_quarter (map_agent walled_in)
               (step_size (navigator (0, 0)%Z (0, 0, 0)))
               (fst (agent_pos walled_in), snd (agent_pos walled_in), d) =
             (fst (agent_pos walled_in), snd (agent_pos walled_in), d)).
  { intros d. apply PlannerFacts.walled_cell_blocks. }
  split; [exact H |].
  apply (@stuck_agent_never_acts cos_quarter sin_quarter heading_quarter
           (list Z) tape_randint tape_rand 10 (navigator (0, 0)%Z (0, 0, 0))
           walled_in [1; 1]%Z H).
Defined.

Lemma on_track_keeps_goal_witness :
  let self := {| step_size := 1; turn_size := of_Z 90; epsilon := Q2Qc 0.1;
                 _goal := Some (0, 0)%Z; _expected_pos := None |} in
  exists a self' g' e,
    let obs' := {| agent_pos := (fst (fst e), snd (fst e)); agent_dir := (1, 0);
                   map_agent := open_map 5 5; reset := false |} in
    (tape_call 10 self at_corner [2; 2; 999]%Z = Acted a self' g' /\
     _expected_pos self' = Some e /\ reset obs' = false /\
     agent_pos obs' = (fst (fst e), snd (fst e))) /\
    exists goal,
      _goal self' = Some goal /\
      e = move cos_quarter sin_quarter (map_agent at_corner) (step_size self)
            (turn_size self) (observed_pose heading_quarter at_corner)
            match a with 0%Z => TurnLeft | 1%Z => TurnRight | _ => Forward end /\
      tape_call 10 self' obs' [] =
        plan_loop cos_quarter sin_quarter tape_randint tape_rand 10 self'
          (map_agent obs') (observed_pose heading_quarter obs') [].
Proof.
  intros self.
  destruct (tape_call 10 self at_corner [2; 2; 999]%Z)
    as [a self' g' | e0 |] eqn:E;
    [| exfalso; vm_compute in E; discriminate E ..].
  destruct (_expected_pos self') as [e |] eqn:E2.
  - exists a, self', g', e. intros obs'.
    split; [repeat split; exact E2 |].
    apply (@on_track_keeps_goal cos_quarter sin_quarter heading_quarter
             (list Z) tape_randint tape_rand 10 10 self self' at_corner obs'
             [2; 2; 999]%Z g' [] a e E E2 eq_refl eq_refl).
  - exfalso. vm_compute in E. injection E as _ Hs _. subst self'.
    discriminate E2.
Defined.

(** On that input the first call goes forward, toward the goal [(2, 2)]
    that it has drawn, and the second call, from the expected position,
    goes forward for the same goal. *)
Example on_track_run :
  let self := {| step_size := 1; turn_size := of_Z 90; epsilon := Q2Qc 0.1;
                 _goal := Some (0, 0)%Z; _expected_pos := None |} in
  match tape_call 10 self at_corner [2; 2; 999]%Z with
  | Acted a self' g' =>
      (a, _goal self', g') = (2%Z, Some (2, 2)%Z, []) /\
      summary
        (tape_call 10 self'
           {| agent_pos := (of_Z 1 + quarter, quarter); agent_dir := (1, 0);
              map_agent := open_map 5 5; reset := false |} [999]%Z) =
      Some (2%Z, Some (2, 2)%Z, [])
  | _ => False
  end.
Proof. vm_compute. split; reflexivity. Qed.

End PolicyFacts.

(** ** The bouncing policy *)

Module BouncingFacts.

Import Num NumFacts Bouncing.

Section CallFacts.

Variable rng : Type.
Variable randint : Z -> rng -> Z * rng.

Local Abbreviation call := (Bouncing.call randint).
Local Abbreviation calls := (Bouncing.calls randint).

Lemma pos_eqb_eq (p q : Qc * Qc) : pos_eqb p q = true <-> p = q.
Proof.
  destruct p as [a b], q as [c d]. unfold pos_eqb. cbn [fst snd].
  rewrite andb_true_iff, !eqb_eq. split.
  - now intros [-> ->].
  - now intros [= -> ->].
Qed.

(** One call of a policy that is not in the middle of a turn. *)
Lemma call_idle (self : policy) (p : Qc * Qc) (g : rng) :
  turns_remaining self = 0%Z ->
  exists a self' g',
    call self (Some p) g = inr (a, self', g') /\
    turns_remaining self' = 0%Z /\
    ((pos self <> Some p /\ a = 2%Z /\ pos self' = Some p /\ g' = g) \/
     (pos self = Some p /\ pos self' = None /\
      g' = snd (randint 2 g) /\
      a = if (fst (randint 2 g) =? 0)%Z then 0%Z else 1%Z)).
Proof.
  intros H0. unfold Bouncing.call, decide. rewrite H0. cbn [Z.eqb].
  destruct (pos self) as [q |] eqn:Hp.
  - destruct (pos_eqb q p) eqn:E; cbn [negb].
    + apply pos_eqb_eq in E. subst q.
      destruct (randint 2 g) as [r g1]. cbn [fst snd].
      destruct (r =? 0)%Z; cbn.
      * do 3 eexists. split; [reflexivity |]. split; [reflexivity |].
        right. auto.
      * do 3 eexists. split; [reflexivity |]. split; [reflexivity |].
        right. auto.
    + unfold turn. cbn.
      do 3 eexists. split; [reflexivity |]. split; [reflexivity |].
      left. split; [| auto]. intros [= ->].
      assert (pos_eqb p p = true) by now apply pos_eqb_eq. congruence.
  - unfold turn. cbn.
    do 3 eexists. split; [reflexivity |]. split; [reflexivity |].
    left. split; [discriminate | auto].
Qed.

Lemma calls_idle (ps : list (Qc * Qc)) : forall self g,
  turns_remaining self = 0%Z ->
  exists acts self' g',
    calls self ps g = inr (acts, self', g') /\
    length acts = length ps /\
    turns_remaining self' = 0%Z /\
    Forall (fun a => (0 <= a <= 2)%Z) acts /\
    turns_apart acts /\
    (pos self = None -> match acts with a :: _ => a = 2%Z | [] => True end).
Proof.
  induction ps as [| p ps IH]; intros self g H0; cbn [Bouncing.calls].
  - exists [], self, g. repeat split; auto.
  - destruct (call_idle self p g H0) as (a & self1 & g1 & -> & H1 & Hc).
    destruct (IH self1 g1 H1) as (acts & self2 & g2 & -> & Hl & H2 & Hr & Ht & Hh).
    exists (a :: acts), self2, g2.
    split; [reflexivity |]. split; [simpl; now rewrite Hl |].
    split; [exact H2 |].
    split.
    { constructor; [| exact Hr].
      destruct Hc as [(_ & -> & _) | (_ & _ & _ & ->)]; [lia |].
      destruct (_ =? 0)%Z; lia. }
    split.
    { destruct acts as [| b rest]; [exact I |]. cbn [turns_apart].
      split; [| exact Ht]. intros [Ha Hb].
      destruct Hc as [(_ & -> & _) | (_ & Hn & _)].
      - destruct Ha; discriminate.
      - specialize (Hh Hn). subst b. destruct Hb; discriminate. }
    intros Hn. destruct Hc as [(_ & -> & _) | (Hs & _)]; [reflexivity |].
    congruence.
Qed.

(** X9.  From the state that [__init__] sets, a run of calls on any
    observed positions raises neither assertion: it returns one action per
    observation, each of them [0], [1] or [2], and ends with no turn
    pending; the first action is forward, and no two turns follow each
    other: after a turn the recorded position is forgotten and the next
    action is forward. *)
Theorem bouncing_never_fails (ps : list (Qc * Qc)) (g : rng) :
  exists acts self' g',
    calls init ps g = inr (acts, self', g') /\
    length acts = length ps /\
    turns_remaining self' = 0%Z /\
    Forall (fun a => (0 <= a <= 2)%Z) acts /\
    turns_apart acts /\
    match acts with a :: _ => a = 2%Z | [] => True end.
Proof.
  destruct (calls_idle ps init g eq_refl)
    as (acts & self' & g' & E & Hl & H0 & Hr & Ht & Hh).
  exists acts, self', g'. repeat (split; [assumption |]). now apply Hh.
Qed.

(** X10.  A call with no turn pending returns and leaves no turn pending.
    It goes forward ([2]), records the observed position and draws no
    number when no position is recorded or the recorded one differs from
    the observed one; when they are equal (the agent has not moved) it
    forgets the position, makes one draw and turns once: left ([0]) when
    [randint(2)] is [0], right ([1]) otherwise. *)
Theorem bouncing_turns_when_blocked (self : policy) (p : Qc * Qc) (g : rng) :
  turns_remaining self = 0%Z ->
  exists a self' g',
    call self (Some p) g = inr (a, self', g') /\
    turns_remaining self' = 0%Z /\
    ((pos self <> Some p /\ a = 2%Z /\ pos self' = Some p /\ g' = g) \/
     (pos self = Some p /\ pos self' = None /\
      g' = snd (randint 2 g) /\
      a = if (fst (randint 2 g) =? 0)%Z then 0%Z else 1%Z)).
Proof. apply call_idle. Qed.

End CallFacts.

Lemma bouncing_turns_when_blocked_witness :
  let self := {| pos := Some (Planner.quarter, Planner.quarter);
                 turns_remaining := 0 |} in
  turns_remaining self = 0%Z /\
  exists a self' g',
    Bouncing.call Policy.tape_randint self
      (Some (Planner.quarter, Planner.quarter)) [3]%Z = inr (a, self', g') /\
    turns_remaining self' = 0%Z /\
    ((pos self <> Some (Planner.quarter, Planner.quarter) /\ a = 2%Z /\
      pos self' = Some (Planner.quarter, Planner.quarter) /\ g' = [3]%Z) \/
     (pos self = Some (Planner.quarter, Planner.quarter) /\ pos self' = None /\
      g' = snd (Policy.tape_randint 2 [3]%Z) /\
      a = if (fst (Policy.tape_randint 2 [3]%Z) =? 0)%Z then 0%Z else 1%Z)).
Proof.
  intros self. split; [reflexivity |].
  apply (@bouncing_turns_when_blocked (list Z) Policy.tape_randint self
           (Planner.quarter, Planner.quarter) [3]%Z eq_refl).
Defined.

(** A run along a corridor: forward, forward, the agent has not moved,
    turn right, forward. *)
Example bouncing_run :
  match Bouncing.calls Policy.tape_randint init
          [(0, 0); (1, 0); (1, 0); (1, 0)]%Qc [3]%Z with
  | inr (acts, _, _) => acts = [2; 2; 1; 2]%Z
  | inl _ => False
  end.
Proof. vm_compute. reflexivity. Qed.

End BouncingFacts.

(** ** The wandering policy *)

Module WanderFacts.

Import Num Wander.
Local Open Scope Z_scope.

Section CallFacts.

Variable rng : Type.
Variable rand : rng -> Qc * rng.

Local Abbreviation call := (Wander.call rand).
Local Abbreviation chance := (Wander.chance rand).

Lemma is_empty_true (k : Z) : is_empty k = true <-> k = 1 \/ k = 8.
Proof. unfold is_empty. rewrite orb_true_iff, !Z.eqb_eq. tauto. Qed.

Lemma chance_off (p : Qc) (g : rng) : chance false p g = (false, g).
Proof. reflexivity. Qed.

(** X11.  The action is one of [0], [1], [2], [5].  It is forward ([2])
    only when the tile in front is empty, the goal or an open door, and
    toggle ([5]) only when the tile in front is a closed door.  When the
    tiles on both sides are neither doors nor empty, no draw is made
    before the front tile is looked at: a closed door in front is toggled,
    a passable tile is stepped on, and where the front is neither, a wall
    on one side only makes the agent turn to the other side; in these
    cases the generator is left as it was. *)
Theorem wander_acts_on_what_it_sees (front left right : tile) (g : rng) :
  let a := fst (call front left right g) in
  (a = 0 \/ a = 1 \/ a = 2 \/ a = 5) /\
  (a = 2 -> passable front) /\
  (a = 5 -> closed_door front) /\
  (plain left -> plain right ->
   (closed_door front -> call front left right g = (5, g)) /\
   (passable front -> call front left right g = (2, g)) /\
   (~ closed_door front -> ~ passable front ->
    (kind left = 2 -> kind right <> 2 -> call front left right g = (1, g)) /\
    (kind right = 2 -> kind left <> 2 -> call front left right g = (0, g)))).
Proof.
  intros a. subst a.
  assert (Hfront :
    forall g0,
      let r := (if (kind front =? 4) && (state front =? 1) then (5, g0) else
                if is_empty (kind front) ||
                   ((kind front =? 4) && (state front =? 0))
                then (2, g0) else
                if (kind left =? 2) && negb (kind right =? 2) then (1, g0) else
                if (kind right =? 2) && negb (kind left =? 2) then (0, g0) else
                let (u, g1) := rand g0 in
                if ltb u (Q2Qc 0.5) then (0, g1) else (1, g1)) in
      (fst r = 0 \/ fst r = 1 \/ fst r = 2 \/ fst r = 5) /\
      (fst r = 2 -> passable front) /\
      (fst r = 5 -> closed_door front)).
  { intros g0. unfold passable, closed_door.
    destruct (kind front =? 4) eqn:E4; cbn [andb];
      [apply Z.eqb_eq in E4 | apply Z.eqb_neq in E4].
    - destruct (state front =? 1) eqn:S1;
        [apply Z.eqb_eq in S1 | apply Z.eqb_neq in S1].
      + cbn. split; [auto |]. split; [discriminate | auto].
      + destruct (is_empty (kind front)) eqn:Ee; cbn [orb].
        * apply is_empty_true in Ee. cbn.
          split; [auto |]. split; [intros _; tauto | discriminate].
        * destruct (state front =? 0) eqn:S0;
            [apply Z.eqb_eq in S0 | apply Z.eqb_neq in S0].
          -- cbn. split; [auto |]. split; [auto | discriminate].
          -- destruct ((kind left =? 2) && negb (kind right =? 2));
               [cbn; split; [auto |]; split; discriminate |].
             destruct ((kind right =? 2) && negb (kind left =? 2));
               [cbn; split; [auto |]; split; discriminate |].
             destruct (rand g0) as [u g1].
             destruct (ltb u (Q2Qc 0.5)); cbn;
               (split; [auto |]; split; discriminate).
    - destruct (is_empty (kind front)) eqn:Ee; cbn [orb].
      + apply is_empty_true in Ee. cbn.
        split; [auto |]. split; [intros _; tauto | discriminate].
      + destruct ((kind left =? 2) && negb (kind right =? 2));
          [cbn; split; [auto |]; split; discriminate |].
        destruct ((kind right =? 2) && negb (kind left =? 2));
          [cbn; split; [auto |]; split; discriminate |].
        destruct (rand g0) as [u g1].
        destruct (ltb u (Q2Qc 0.5)); cbn;
          (split; [auto |]; split; discriminate). }
  split; [| split; [| split]].
  - unfold Wander.call.
    destruct (chance (kind left =? 4) (Q2Qc 0.5) g) as [[|] g1]; [cbn; auto |].
    destruct (chance (kind right =? 4) (Q2Qc 0.5) g1) as [[|] g2]; [cbn; auto |].
    destruct (chance (is_empty (kind left)) (Q2Qc 0.1) g2) as [[|] g3];
      [cbn; auto |].
    destruct (chance (is_empty (kind right)) (Q2Qc 0.1) g3) as [[|] g4];
      [cbn; auto |].
    apply (Hfront g4).
  - unfold Wander.call.
    destruct (chance (kind left =? 4) (Q2Qc 0.5) g) as [[|] g1];
      [cbn; discriminate |].
    destruct (chance (kind right =? 4) (Q2Qc 0.5) g1) as [[|] g2];
      [cbn; discriminate |].
    destruct (chance (is_empty (kind left)) (Q2Qc 0.1) g2) as [[|] g3];
      [cbn; discriminate |].
    destruct (chance (is_empty (kind right)) (Q2Qc 0.1) g3) as [[|] g4];
      [cbn; discriminate |].
    apply (Hfront g4).
  - unfold Wander.call.
    destruct (chance (kind left =? 4) (Q2Qc 0.5) g) as [[|] g1];
      [cbn; discriminate |].
    destruct (chance (kind right =? 4) (Q2Qc 0.5) g1) as [[|] g2];
      [cbn; discriminate |].
    destruct (chance (is_empty (kind left)) (Q2Qc 0.1) g2) as [[|] g3];
      [cbn; discriminate |].
    destruct (chance (is_empty (kind right)) (Q2Qc 0.1) g3) as [[|] g4];
      [cbn; discriminate |].
    apply (Hfront g4).
  - intros (L4 & L1 & L8) (R4 & R1 & R8).
    assert (EL4 : (kind left =? 4) = false) by now apply Z.eqb_neq.
    assert (ER4 : (kind right =? 4) = false) by now apply Z.eqb_neq.
    assert (ELe : is_empty (kind left) = false).
    { apply not_true_iff_false. rewrite is_empty_true. tauto. }
    assert (ERe : is_empty (kind right) = false).
    { apply not_true_iff_false. rewrite is_empty_true. tauto. }
    unfold Wander.call. rewrite EL4, ER4, ELe, ERe.
    cbn [Wander.chance].
    unfold closed_door, passable.
    split; [| split].
    + intros [-> ->]. reflexivity.
    + intros [H | [H | [H S0]]].
      * rewrite H. reflexivity.
      * rewrite H. reflexivity.
      * rewrite H, S0. reflexivity.
    + intros Hc Hp.
      assert (E1 : (kind front =? 4) && (state front =? 1) = false).
      { apply not_true_iff_false. rewrite andb_true_iff, !Z.eqb_eq. exact Hc. }
      assert (E2 : is_empty (kind front) ||
                   ((kind front =? 4) && (state front =? 0)) = false).
      { apply not_true_iff_false.
        rewrite orb_true_iff, andb_true_iff, is_empty_true, !Z.eqb_eq. tauto. }
      rewrite E1, E2. split.
      * intros HL HR. apply Z.eqb_eq in HL. apply Z.eqb_neq in HR.
        now rewrite HL, HR.
      * intros HR HL. apply Z.eqb_eq in HR. apply Z.eqb_neq in HL.
        now rewrite HR, HL.
Qed.

End CallFacts.

End WanderFacts.

(** ** The bookkeeping wrapper *)

Module WrapperFacts.

Import Num Wrapper.

Section EnvFacts.

Variables env fields info : Type.
Variable env_step : action -> env -> (fields * Qc * bool * info) * env.
Variable env_reset : env -> fields * env.

Local Abbreviation wrapper := (Wrapper.wrapper env).
Local Abbreviation observation := (Wrapper.observation fields).
Local Abbreviation step := (Wrapper.step env_step).
Local Abbreviation reset := (Wrapper.reset env_reset).
Local Abbreviation rollout := (Wrapper.rollout env_step).

Lemma step_counts (w w' : wrapper) (a : action) r :
  step w a = inr (r, w') ->
  _epstep w' = (_epstep w + 1)%Z /\ _max_steps w' = _max_steps w /\
  obs_terminal (fst (fst (fst r))) =
    (if (_epstep w' <? _max_steps w)%Z then snd (fst r) else false) /\
  obs_reset (fst (fst (fst r))) = false.
Proof.
  unfold step.
  destruct (env_step a (_env w)) as [[[[ob reward] done] inf] e].
  destruct (onehot (_action_size w) a) as [err | oh]; [discriminate |].
  intros [= <- <-]. simpl. auto.
Qed.

Lemma rollout_terminal (acts : list action) : forall w results k ob rew done inf,
  rollout w acts = inr results ->
  nth_error results k = Some (ob, rew, done, inf) ->
  obs_terminal ob =
    (if (_epstep w + Z.of_nat (S k) <? _max_steps w)%Z then done else false).
Proof.
  induction acts as [| a acts IH]; intros w results k ob rew done inf; simpl.
  - intros [= <-]. destruct k; discriminate.
  - destruct (step w a) as [err | [r w']] eqn:Hs; [discriminate |].
    destruct (rollout w' acts) as [err | rs] eqn:Hr; [discriminate |].
    intros [= <-]. destruct (step_counts _ _ Hs) as (He & Hm & Ht & _).
    destruct k as [| k]; simpl.
    + intros [= ->]. simpl in Ht. rewrite Ht, He. reflexivity.
    + intros Hk. rewrite (IH _ _ _ _ _ _ _ Hr Hk), He, Hm.
      replace (_epstep w + 1 + Z.of_nat (S k))%Z
        with (_epstep w + Z.of_nat (S (S k)))%Z by lia.
      reflexivity.
Qed.

(** C9.  In the observation of the [k]-th step after a reset (counting
    from 1), [terminal] is the environment's [done] flag when [k] is below
    the step cap and is false otherwise: it is true only when the
    environment is done below the cap, and false whenever the cap is
    reached. *)
Theorem terminal_below_cap_only (w : wrapper) (acts : list action) results
    (k : nat) (ob : observation) (rew : Qc) (done : bool) (inf : info) :
  rollout (snd (reset w)) acts = inr results ->
  nth_error results k = Some (ob, rew, done, inf) ->
  obs_terminal ob =
    (if (Z.of_nat (S k) <? _max_steps w)%Z then done else false) /\
  (obs_terminal ob = true ->
     done = true /\ (Z.of_nat (S k) < _max_steps w)%Z) /\
  ((_max_steps w <= Z.of_nat (S k))%Z -> obs_terminal ob = false) /\
  obs_terminal (fst (reset w)) = false.
Proof.
  intros Hr Hk. pose proof (rollout_terminal _ _ _ Hr Hk) as Ht.
  assert (E0 : _epstep (snd (reset w)) = 0%Z /\
               _max_steps (snd (reset w)) = _max_steps w /\
               obs_terminal (fst (reset w)) = false).
  { unfold reset. destruct (env_reset (_env w)). simpl. auto. }
  destruct E0 as (E0 & E1 & E2). rewrite E0, E1 in Ht.
  rewrite Z.add_0_l in Ht. split; [exact Ht |]. rewrite Ht.
  destruct (Z.ltb_spec (Z.of_nat (S k)) (_max_steps w)) as [Hlt | Hge].
  - split; [tauto |]. split; [lia | exact E2].
  - split; [discriminate |]. split; [reflexivity | exact E2].
Qed.

(** *** The action recorded *)

Lemma map_off (t s n : nat) :
  (t < s)%nat ->
  List.map (fun j => if (j =? t)%nat then 1%Qc else 0%Qc) (seq s n) = zeros n.
Proof.
  revert s. induction n as [| n IH]; intros s H; cbn [seq List.map zeros repeat].
  - reflexivity.
  - destruct (Nat.eqb_spec s t); [lia |]. f_equal. apply IH. lia.
Qed.

Lemma set_nth_hot (n : nat) : forall k s,
  (k < n)%nat ->
  set_nth k 1%Qc (zeros n) =
  List.map (fun j => if (j =? s + k)%nat then 1%Qc else 0%Qc) (seq s n).
Proof.
  induction n as [| n IH]; intros k s H; [lia |].
  cbn [zeros repeat seq List.map]. destruct k as [| k]; cbn [set_nth].
  - rewrite Nat.add_0_r, Nat.eqb_refl. f_equal.
    symmetry. apply map_off. lia.
  - destruct (Nat.eqb_spec s (s + S k)); [lia |]. f_equal.
    change (repeat 0%Qc n) with (zeros n).
    rewrite (IH k (S s)) by lia.
    replace (S s + k)%nat with (s + S k)%nat by lia. reflexivity.
Qed.

(** X14.  A step returns exactly for an integer action of [[-n, n)] and for
    an array action of length [n], the action size.  The action recorded
    for the integer [i] is the one-hot vector of length [n] for the index
    [i mod n], so a negative integer counts from the end; an array action
    is recorded as it is, whatever it holds; the reward recorded is the
    reward returned.  Any other integer raises [IndexError], any other
    array the assertion. *)
Theorem step_records_action (w : wrapper) (a : action) :
  let n := Z.of_nat (_action_size w) in
  match step w a with
  | inr (obs, reward, done, inf, w') =>
      obs_reward obs = reward /\
      match a with
      | IntAction i =>
          (- n <= i < n)%Z /\
          obs_action obs = hot (_action_size w) (Z.to_nat (i mod n))
      | ArrayAction v =>
          length v = _action_size w /\ obs_action obs = v
      end
  | inl IndexError => exists i, a = IntAction i /\ (i < - n \/ n <= i)%Z
  | inl AssertionError =>
      exists v, a = ArrayAction v /\ length v <> _action_size w
  end.
Proof.
  intros n. unfold Wrapper.step.
  destruct (env_step a (_env w)) as [[[[ob reward] done] inf] e].
  destruct a as [i | v]; cbn [onehot].
  - destruct ((0 <=? i) && (i <? Z.of_nat (_action_size w)))%Z eqn:E1.
    + apply andb_true_iff in E1. destruct E1 as [A B].
      apply Z.leb_le in A. apply Z.ltb_lt in B.
      cbn [obs_reward obs_action]. split; [reflexivity |].
      split; [subst n; lia |].
      rewrite Z.mod_small by (subst n; lia).
      unfold hot. rewrite (set_nth_hot (k := Z.to_nat i) 0) by lia.
      reflexivity.
    + destruct ((- Z.of_nat (_action_size w) <=? i) && (i <? 0))%Z eqn:E2.
      * apply andb_true_iff in E2. destruct E2 as [A B].
        apply Z.leb_le in A. apply Z.ltb_lt in B.
        cbn [obs_reward obs_action]. split; [reflexivity |].
        split; [subst n; lia |].
        replace (i mod n)%Z with (i + n)%Z.
        -- unfold hot. subst n.
           rewrite (set_nth_hot (k := Z.to_nat (i + Z.of_nat (_action_size w))) 0)
             by lia.
           reflexivity.
        -- apply Z.mod_unique with (q := (-1)%Z); subst n; lia.
      * exists i. split; [reflexivity |].
        apply andb_false_iff in E1. apply andb_false_iff in E2.
        rewrite Z.leb_gt, Z.ltb_ge in E1. rewrite Z.leb_gt, Z.ltb_ge in E2.
        subst n. lia.
  - destruct (Nat.eqb_spec (length v) (_action_size w)) as [E | E].
    + cbn [obs_reward obs_action]. auto.
    + exists v. auto.
Qed.

End EnvFacts.

(** *** A concrete environment *)

(** With a cap of 5 the third step is terminal; with a cap of 3 the same
    step ends the episode at the cap and is not. *)
Example corridor_terminals :
  terminals (rollout corridor_step (snd (reset corridor_reset (corridor 5)))
               [IntAction 2; IntAction 2; IntAction 2]) =
    Some [(false, false); (false, false); (true, true)] /\
  terminals (rollout corridor_step (snd (reset corridor_reset (corridor 3)))
               [IntAction 2; IntAction 2; IntAction 2]) =
    Some [(false, false); (false, false); (true, false)].
Proof. split; vm_compute; reflexivity. Qed.

Lemma terminal_below_cap_only_witness :
  exists results ob,
    rollout corridor_step (snd (reset corridor_reset (corridor 3)))
      [IntAction 2; IntAction 2; IntAction 2] = inr results /\
    nth_error results 2 = Some (ob, 0%Qc, true, tt) /\
    obs_terminal ob = false.
Proof.
  eexists. eexists.
  split; [vm_compute; reflexivity |].
  split; [vm_compute; reflexivity |].
  refine (proj1 (proj2 (proj2
    (@terminal_below_cap_only nat nat unit corridor_step corridor_reset
       (corridor 3) [IntAction 2; IntAction 2; IntAction 2] _ 2 _ 0%Qc true tt
       _ _))) _).
  - vm_compute. reflexivity.
  - vm_compute. reflexivity.
  - vm_compute. intros H. discriminate H.
Defined.

End WrapperFacts.

(** ** The recording wrapper *)

Module CollectFacts.

Import Collect.

Section EnvFacts.

Variables env value reward info action : Type.
Variable env_step :
  action -> env -> (obs_dict value * reward * bool * info) * env.
Variable env_reset : env -> obs_dict value * env.

Local Abbreviation obs_dict := (Collect.obs_dict value).
Local Abbreviation step := (Collect.step env_step).
Local Abbreviation steps := (Collect.steps env_step).
Local Abbreviation reset := (Collect.reset env_reset).

Lemma column_some (k : String.string) (ep : list obs_dict) (vs : list value) :
  column k ep = Some vs <-> List.map (lookup k) ep = List.map Some vs.
Proof.
  revert vs. induction ep as [| t ep IH]; intros vs; cbn [column List.map].
  - split.
    + now intros [= <-].
    + destruct vs; [reflexivity | discriminate].
  - destruct (lookup k t) as [v |] eqn:E.
    + destruct (column k ep) as [vs' |] eqn:Ec.
      * split.
        -- intros [= <-]. cbn [List.map]. f_equal. now apply IH.
        -- destruct vs as [| v0 vs0]; [discriminate |]. cbn [List.map].
           intros [= -> H]. apply IH in H. congruence.
      * split; [discriminate |].
        destruct vs as [| v0 vs0]; [discriminate |]. cbn [List.map].
        intros [= _ H]. apply IH in H. discriminate.
    + split; [discriminate |].
      destruct vs as [| v0 vs0]; discriminate.
Qed.

Lemma column_none (k : String.string) (ep : list obs_dict) :
  column k ep = None <-> exists t, In t ep /\ lookup k t = None.
Proof.
  induction ep as [| t ep IH]; cbn [column].
  - split; [discriminate | intros (t & [] & _)].
  - destruct (lookup k t) as [v |] eqn:E.
    + destruct (column k ep) as [vs |].
      * split; [discriminate |]. intros (t' & [<- | Hin] & Hn); [congruence |].
        assert (H : Some vs = None) by (apply IH; now exists t').
        discriminate H.
      * split; [| reflexivity]. intros _.
        destruct (proj1 IH eq_refl) as (t' & Hin & Hn).
        exists t'. split; [now right | exact Hn].
    + split; [| reflexivity]. intros _. exists t. split; [now left | exact E].
Qed.

Lemma columns_some (keys : list String.string) (ep : list obs_dict) :
  forall cols, columns keys ep = Some cols ->
  List.map fst cols = keys /\
  forall k, In k keys ->
    exists vs, lookup k cols = Some vs /\
      List.map (lookup k) ep = List.map Some vs.
Proof.
  induction keys as [| k0 keys IH]; intros cols; cbn [columns].
  - intros [= <-]. split; [reflexivity | intros k []].
  - destruct (column k0 ep) as [vs0 |] eqn:Ec; [| discriminate].
    destruct (columns keys ep) as [cols' |]; [| discriminate].
    intros [= <-]. destruct (IH cols' eq_refl) as [Hk Hv].
    split; [cbn; now rewrite Hk |].
    intros k Hin. unfold lookup. cbn [dict_get].
    destruct (String.eqb k k0) eqn:E.
    + apply String.eqb_eq in E. subst k0. exists vs0.
      split; [reflexivity | now apply column_some].
    + destruct Hin as [<- | Hin]; [now rewrite String.eqb_refl in E |].
      apply (Hv k Hin).
Qed.

Lemma columns_none (keys : list String.string) (ep : list obs_dict) :
  columns keys ep = None ->
  exists t k, In t ep /\ In k keys /\ lookup k t = None.
Proof.
  induction keys as [| k0 keys IH]; cbn [columns]; [discriminate |].
  destruct (column k0 ep) as [vs0 |] eqn:Ec.
  - destruct (columns keys ep) as [cols' |]; [discriminate |].
    intros _. destruct (IH eq_refl) as (t & k & Ht & Hk & Hn).
    exists t, k. split; [exact Ht |]. split; [now right | exact Hn].
  - intros _. apply column_none in Ec. destruct Ec as (t & Ht & Hn).
    exists t, k0. split; [exact Ht |]. split; [now left | exact Hn].
Qed.

(** X12.  The episode dictionary has the keys of the first recorded
    observation, in their order, and under each of them the values that
    the recorded observations hold under it, one per observation in the
    order of recording; a key that only later observations hold is left
    out.  The comprehension raises [KeyError] only when a later
    observation lacks a key of the first one, and never [IndexError]. *)
Theorem episode_has_the_first_keys (t0 : obs_dict) (ep : list obs_dict) :
  match episode_of (t0 :: ep) with
  | inr cols =>
      List.map fst cols = List.map fst t0 /\
      forall k, In k (List.map fst t0) ->
        exists vs, lookup k cols = Some vs /\
          length vs = S (length ep) /\
          List.map (lookup k) (t0 :: ep) = List.map Some vs
  | inl KeyError =>
      exists t k, In t ep /\ In k (List.map fst t0) /\ lookup k t = None
  | inl IndexError => False
  end.
Proof.
  unfold episode_of.
  destruct (columns (List.map fst t0) (t0 :: ep)) as [cols |] eqn:E.
  - destruct (columns_some _ _ E) as [Hk Hv]. split; [exact Hk |].
    intros k Hin. destruct (Hv k Hin) as (vs & Hl & Hm).
    exists vs. split; [exact Hl |]. split; [| exact Hm].
    apply (f_equal (@length _)) in Hm. rewrite !length_map in Hm.
    cbn [length] in Hm. now symmetry.
  - destruct (columns_none _ _ E) as (t & k & Ht & Hk & Hn).
    exists t, k. split; [| now split].
    destruct Ht as [<- | Ht]; [| exact Ht].
    exfalso. apply in_map_iff in Hk. destruct Hk as ([k' v] & <- & Hin).
    clear - Hin Hn. unfold lookup in Hn. cbn [fst] in Hn.
    induction t0 as [| [k1 v1] t0 IH]; [destruct Hin |].
    cbn [dict_get] in Hn. destruct (String.eqb k' k1) eqn:E; [discriminate |].
    destruct Hin as [[= -> ->] | Hin]; [now rewrite String.eqb_refl in E |].
    now apply IH.
Qed.

Lemma steps_record (acts : list action) :
  forall (w : Collect.wrapper env value) rs w',
  steps w acts = inr (rs, w') ->
  _episode w' = _episode w ++ List.map (fun r => fst (fst (fst r))) rs /\
  length rs = length acts /\
  forall pre r post, rs = pre ++ r :: post ->
    if snd (fst r)
    then exists cols,
           snd (snd r) = Some cols /\
           episode_of
             (_episode w ++ List.map (fun r => fst (fst (fst r))) (pre ++ [r]))
             = inr cols
    else snd (snd r) = None.
Proof.
  induction acts as [| a acts IH]; intros w rs w'; cbn [Collect.steps].
  - intros [= <- <-]. split; [now rewrite app_nil_r |]. split; [reflexivity |].
    intros [| ? ?] r post; discriminate.
  - destruct (step w a) as [err | [r1 w1]] eqn:Es; [discriminate |].
    destruct (steps w1 acts) as [err | [rs1 w2]] eqn:Er; [discriminate |].
    intros [= <- <-]. destruct (IH _ _ _ Er) as (He & Hl & Hi).
    unfold Collect.step in Es.
    destruct (env_step a (_env w)) as [[[[ob rw] dn] inf] e].
    assert (Hw1 : _episode w1 = _episode w ++ [ob] /\
                  fst (fst (fst r1)) = ob /\
                  if snd (fst r1)
                  then exists cols,
                         snd (snd r1) = Some cols /\
                         episode_of (_episode w ++ [ob]) = inr cols
                  else snd (snd r1) = None).
    { destruct dn.
      - destruct (episode_of (_episode w ++ [ob])) as [err | cols];
          [discriminate |].
        injection Es as <- <-. cbn. split; [reflexivity |].
        split; [reflexivity |]. now exists cols.
      - injection Es as <- <-. cbn. auto. }
    destruct Hw1 as (Hw1 & Ho & Hinfo).
    split; [| split].
    + rewrite He, Hw1. cbn [List.map]. rewrite Ho, <- app_assoc. reflexivity.
    + simpl. now rewrite Hl.
    + intros pre r post E. destruct pre as [| r0 pre].
      * cbn [app] in E. injection E as <- <-. cbn [app List.map].
        rewrite Ho. exact Hinfo.
      * cbn [app] in E. injection E as <- E.
        specialize (Hi pre r post E). rewrite Hw1 in Hi.
        cbn [app List.map]. rewrite Ho.
        rewrite <- app_assoc in Hi. exact Hi.
Qed.

Lemma steps_raise (acts : list action) :
  forall (w : Collect.wrapper env value) err,
  steps w acts = inl err -> err = KeyError.
Proof.
  induction acts as [| a acts IH]; intros w0 err; cbn [Collect.steps];
    [discriminate |].
  destruct (step w0 a) as [err' | [r1 w1]] eqn:E1.
  - intros [= <-]. unfold Collect.step in E1.
    destruct (env_step a (_env w0)) as [[[[ob' rw] dn] inf] e'].
    destruct dn; [| discriminate].
    destruct (_episode w0 ++ [ob']) as [| t0 ep] eqn:Eep.
    + now destruct (_episode w0).
    + pose proof (episode_has_the_first_keys t0 ep) as H.
      destruct (episode_of (t0 :: ep)) as [[|] | cols];
        [ now injection E1 as <- | destruct H | discriminate ].
  - destruct (steps w1 acts) as [err' | [rs1 w2]] eqn:E2; [| discriminate].
    intros [= <-]. apply (IH _ _ E2).
Qed.

(** X13.  After a reset, whatever the wrapper had recorded before, the
    recorded observations are that of the reset followed by those of the
    steps, in order.  A step whose [done] is false sets no episode; a step
    whose [done] is true sets the episode of the observations recorded up
    to it, in which every key of the reset observation holds one value
    more than steps were taken: [len(d['reset']) - 1] is the number of
    steps.  The record is not emptied by [done].  The steps raise nothing
    but [KeyError]. *)
Theorem collect_records_every_step (w : Collect.wrapper env value)
    (acts : list action) :
  let o0 := fst (reset w) in
  match steps (snd (reset w)) acts with
  | inr (rs, w') =>
      length rs = length acts /\
      _episode w' = o0 :: List.map (fun r => fst (fst (fst r))) rs /\
      forall pre r post, rs = pre ++ r :: post ->
        if snd (fst r)
        then exists cols,
               snd (snd r) = Some cols /\
               episode_of
                 (o0 :: List.map (fun r => fst (fst (fst r))) (pre ++ [r]))
                 = inr cols /\
               forall k, In k (List.map fst o0) ->
                 exists vs, lookup k cols = Some vs /\
                   length vs = S (S (length pre))
        else snd (snd r) = None
  | inl e => e = KeyError
  end.
Proof.
  intros o0. unfold Collect.reset in *.
  destruct (env_reset (_env w)) as [ob e] eqn:Er. cbn [fst snd] in *. subst o0.
  destruct (steps {| _env := e; _episode := [ob] |} acts)
    as [err | [rs w']] eqn:Es.
  - apply (steps_raise _ _ Es).
  - destruct (steps_record _ _ Es) as (He & Hl & Hi). cbn [_episode] in *.
    split; [exact Hl |]. split; [exact He |].
    intros pre r post E. specialize (Hi pre r post E).
    destruct (snd (fst r)); [| exact Hi].
    destruct Hi as (cols & Hs & Hc). cbn [app] in Hc.
    exists cols. split; [exact Hs |]. split; [exact Hc |].
    intros k Hin.
    pose proof (episode_has_the_first_keys ob
                  (List.map (fun r => fst (fst (fst r))) (pre ++ [r]))) as H.
    rewrite Hc in H. destruct H as [_ H].
    destruct (H k Hin) as (vs & Hk & Hlen & _).
    exists vs. split; [exact Hk |].
    rewrite Hlen, length_map, length_app. simpl. lia.
Qed.

End EnvFacts.

End CollectFacts.

(** ** The writer and the scan *)

Module ShardsFacts.

Import String Ascii DecimalString DecimalN Shards.

Local Abbreviation lookup := Collect.lookup.
Local Open Scope string_scope.
Local Open Scope Z_scope.

(** *** Facts on strings *)

Lemma has_app (c : ascii) (a b : string) :
  has c (a ++ b) = has c a || has c b.
Proof.
  induction a as [| c' a IH]; simpl; [reflexivity |].
  now rewrite IH, orb_assoc.
Qed.

Lemma has_zeros (c : ascii) (n : nat) :
  Ascii.eqb c "0" = false -> has c (zeros n) = false.
Proof. intros H. induction n; simpl; [reflexivity | now rewrite H]. Qed.

Lemma has_uint (c : ascii) (d : Decimal.uint) :
  separator c -> has c (NilEmpty.string_of_uint d) = false.
Proof.
  intros [-> | [-> | [-> | ->]]]; induction d; simpl; auto.
Qed.

Lemma has_format_zero (c : ascii) (w : nat) (z : Z) :
  separator c -> 0 <= z -> has c (format_zero w z) = false.
Proof.
  intros Hc Hz. unfold format_zero, zfill, digits.
  destruct (Z.ltb_spec z 0); [lia |].
  rewrite has_app, has_uint by assumption.
  rewrite has_zeros; [reflexivity |].
  destruct Hc as [-> | [-> | [-> | ->]]]; reflexivity.
Qed.

Lemma has_str_dot (z : Z) : has "." (str z) = false.
Proof.
  unfold str, digits. destruct (z <? 0); simpl;
    apply has_uint; left; reflexivity.
Qed.

Lemma split_nonempty (sep : ascii) (s : string) : split sep s <> [].
Proof.
  induction s as [| c s IH]; simpl; [discriminate |].
  destruct (split sep s); [congruence |].
  destruct (Ascii.eqb c sep); discriminate.
Qed.

Lemma split_no_sep (sep : ascii) (s : string) :
  has sep s = false -> split sep s = [s].
Proof.
  induction s as [| c s IH]; simpl; [reflexivity |].
  rewrite orb_false_iff, Ascii.eqb_sym. intros [Hc Hs].
  rewrite (IH Hs), Hc. reflexivity.
Qed.

Lemma split_app (sep : ascii) (a b : string) :
  split sep (a ++ String sep b) = (split sep a ++ split sep b)%list.
Proof.
  induction a as [| c a IH]; simpl.
  - pose proof (split_nonempty sep b) as H.
    destruct (split sep b); [congruence |].
    now rewrite Ascii.eqb_refl.
  - rewrite IH. pose proof (split_nonempty sep a) as H.
    destruct (split sep a); [congruence |].
    destruct (Ascii.eqb c sep); reflexivity.
Qed.

Lemma replace_ep_no_e (s : string) : has "e" s = false -> replace_ep s = s.
Proof.
  induction s as [| c s IH]; [reflexivity |].
  cbn [has]. rewrite orb_false_iff. intros [Hc Hs].
  assert (E : replace_ep (String c s) = String c (replace_ep s)).
  { destruct c as [[] [] [] [] [] [] [] []]; try reflexivity.
    discriminate Hc. }
  rewrite E, (IH Hs). reflexivity.
Qed.

Lemma item_last_snoc (l : list string) (x : string) :
  item_last (l ++ [x]) = Some x.
Proof. unfold item_last. now rewrite rev_app_distr. Qed.

Lemma item_before_last_snoc (l : list string) (y x : string) :
  item_before_last (l ++ [y; x]) = Some y.
Proof. unfold item_before_last. now rewrite rev_app_distr. Qed.

(** Reading back what [format_zero] wrote. *)
Lemma uint_of_zeros (n : nat) (d : Decimal.uint) :
  exists d', NilEmpty.uint_of_string (zeros n ++ NilEmpty.string_of_uint d)
             = Some d' /\ N.of_uint d' = N.of_uint d.
Proof.
  induction n as [| n (d' & H & E)]; simpl.
  - exists d. split; [apply NilEmpty.usu | reflexivity].
  - rewrite H. exists (Decimal.D0 d'). split; [reflexivity | exact E].
Qed.

Lemma int_format_zero (w : nat) (z : Z) :
  0 <= z -> int (format_zero w z) = Some z.
Proof.
  intros Hz. unfold int, format_zero, zfill, digits.
  destruct (Z.ltb_spec z 0); [lia |].
  destruct (uint_of_zeros
              (w - String.length (NilEmpty.string_of_uint (N.to_uint (Z.to_N z))))
              (N.to_uint (Z.to_N z))) as (d' & -> & E).
  rewrite E, DecimalN.Unsigned.of_to, Z2N.id by assumption. reflexivity.
Qed.

Lemma digits_nonempty (n : N) : digits n <> "".
Proof.
  unfold digits. destruct n as [| p]; [discriminate |].
  pose proof (DecimalPos.Unsigned.to_uint_nonnil p) as H.
  change (N.to_uint (N.pos p)) with (Pos.to_uint p).
  destruct (Pos.to_uint p); [congruence | discriminate ..].
Qed.

Lemma isnumeric_format_zero (w : nat) (z : Z) :
  0 <= z -> isnumeric (format_zero w z) = true.
Proof.
  intros Hz. pose proof (int_format_zero w Hz) as Hi.
  unfold isnumeric, int in *.
  destruct (NilEmpty.uint_of_string (format_zero w z)); [| discriminate].
  destruct (format_zero w z) eqn:E; [| reflexivity].
  exfalso. unfold format_zero, zfill in E.
  destruct (Z.ltb_spec z 0); [lia |].
  destruct (zeros _); [| discriminate].
  simpl in E. now apply digits_nonempty in E.
Qed.

Lemma append_assoc (a b c : string) : (a ++ b) ++ c = a ++ (b ++ c).
Proof. induction a as [| x a IH]; simpl; [reflexivity | now rewrite IH]. Qed.

(** *** The scan of one written name *)

(** A name [pre-ep<rest>-<S>.npz] whose last token [S] reads as [steps] and
    whose episode token reads as [idx]. *)
Lemma count_file_name (pre rest S L : string) (idx steps : Z) :
  has "." pre = false ->
  has "." rest = false -> has "-" rest = false -> has "e" rest = false ->
  has "." S = false -> has "-" S = false ->
  isnumeric S = true -> int S = Some steps ->
  item_last (split "_" rest) = Some L ->
  isnumeric L = true -> int L = Some idx ->
  forall s e,
    count_file (s, e) (pre ++ "-ep" ++ rest ++ "-" ++ S ++ ".npz") =
    inr (s + steps, Z.max e (idx + 1)).
Proof.
  intros Hpre Hr1 Hr2 Hr3 HS1 HS2 HSn HSi HL HLn HLi s e.
  set (mid := "ep" ++ rest).
  set (st := pre ++ String "-" (mid ++ String "-" S)).
  assert (Hname : pre ++ "-ep" ++ rest ++ "-" ++ S ++ ".npz"
                  = st ++ String "." "npz").
  { subst st mid. rewrite !append_assoc. simpl.
    rewrite !append_assoc. reflexivity. }
  assert (Hst : stem (st ++ String "." "npz") = st).
  { unfold stem. rewrite split_app, split_no_sep; [reflexivity |].
    subst st mid. rewrite has_app. simpl. rewrite !has_app. simpl.
    now rewrite Hpre, Hr1, HS1. }
  assert (Htok : split "-" st =
                 (split "-" pre ++ [mid; S])%list).
  { subst st. rewrite split_app, split_app.
    rewrite (split_no_sep "-" mid), (split_no_sep "-" S); [reflexivity | |];
      [assumption | subst mid; simpl; assumption]. }
  unfold count_file. rewrite Hname, Hst, Htok.
  replace (split "-" pre ++ [mid; S])%list
    with ((split "-" pre ++ [mid]) ++ [S])%list by now rewrite <- app_assoc.
  rewrite item_last_snoc, HSn, HSi. cbn [option_map].
  rewrite <- app_assoc. cbn [app]. rewrite item_before_last_snoc.
  unfold episode_token. subst mid.
  change (replace_ep ("ep" ++ rest)) with (replace_ep rest).
  rewrite (replace_ep_no_e _ Hr3), HL, HLn, HLi. reflexivity.
Qed.

Lemma count_file_shard (seed episodes n steps : Z) :
  well_formed (seed, episodes, n, steps) ->
  forall s e,
    count_file (s, e) (shard_name seed episodes n steps) =
    inr (s + steps, Z.max e episodes).
Proof.
  intros [Hs [Hn He]] s e. unfold shard_name.
  assert (Hpre : has "." ("s" ++ str seed) = false).
  { simpl. apply has_str_dot. }
  assert (Hsep : forall c, separator c ->
                 forall w z, 0 <= z -> has c (format_zero w z) = false).
  { intros c Hc w z Hz. now apply has_format_zero. }
  assert (Hmax : Z.max e (episodes - 1 + 1) = Z.max e episodes)
    by (f_equal; lia).
  rewrite <- Hmax.
  destruct (Z.gtb_spec n 1) as [Hgt | Hle].
  - rewrite <- (append_assoc "s" (str seed)).
    rewrite <- (append_assoc (format_zero 6 (episodes - n)) "_"
                  (format_zero 6 (episodes - 1) ++ _)).
    rewrite <- (append_assoc (format_zero 6 (episodes - n) ++ "_")
                  (format_zero 6 (episodes - 1))).
    apply count_file_name with (L := format_zero 6 (episodes - 1))
                               (idx := episodes - 1).
    + exact Hpre.
    + rewrite !has_app. simpl.
      rewrite !Hsep; [reflexivity | left; reflexivity | lia
                     | left; reflexivity | lia].
    + rewrite !has_app. simpl.
      rewrite !Hsep; [reflexivity | right; left; reflexivity | lia
                     | right; left; reflexivity | lia].
    + rewrite !has_app. simpl.
      rewrite !Hsep; [reflexivity | right; right; right; reflexivity | lia
                     | right; right; right; reflexivity | lia].
    + apply Hsep; [left; reflexivity | lia].
    + apply Hsep; [right; left; reflexivity | lia].
    + now apply isnumeric_format_zero.
    + now apply int_format_zero.
    + rewrite append_assoc. simpl. rewrite split_app.
      rewrite (split_no_sep "_" (format_zero 6 (episodes - 1)));
        [apply item_last_snoc |].
      apply Hsep; [right; right; left; reflexivity | lia].
    + apply isnumeric_format_zero. lia.
    + apply int_format_zero. lia.
  - rewrite <- (append_assoc "s" (str seed)).
    apply count_file_name with (L := format_zero 6 (episodes - 1))
                               (idx := episodes - 1).
    + exact Hpre.
    + apply Hsep; [left; reflexivity | lia].
    + apply Hsep; [right; left; reflexivity | lia].
    + apply Hsep; [right; right; right; reflexivity | lia].
    + apply Hsep; [left; reflexivity | lia].
    + apply Hsep; [right; left; reflexivity | lia].
    + now apply isnumeric_format_zero.
    + now apply int_format_zero.
    + rewrite split_no_sep; [reflexivity |].
      apply Hsep; [right; right; left; reflexivity | lia].
    + apply isnumeric_format_zero. lia.
    + apply int_format_zero. lia.
Qed.

(** *** The scan of a directory *)

Lemma count_file_ignored (name : string) :
  ignored name = true -> forall acc, count_file acc name = inr acc.
Proof.
  unfold ignored, count_file. intros H [s e].
  apply andb_true_iff in H. destruct H as [_ H].
  destruct (item_last (split "-" (stem name))) as [sstep |]; [| discriminate].
  destruct (item_before_last (split "-" (stem name))) as [tok |];
    [| discriminate].
  apply andb_true_iff in H. destruct H as [H1 H2].
  apply negb_true_iff in H1. rewrite H1.
  destruct (episode_token tok) as [sepisode |]; [| discriminate].
  apply negb_true_iff in H2. rewrite H2. reflexivity.
Qed.

Lemma count_loop_scannable (l : list string) : forall s e,
  Forall scannable l -> 0 <= e ->
  count_loop l (s, e) = inr (s + total_steps l, Z.max e (max_episodes l)).
Proof.
  induction l as [| f l IH]; intros s e Hl He; cbn [count_loop].
  - unfold total_steps, max_episodes. simpl. f_equal. f_equal; lia.
  - inversion Hl as [| ? ? Hf Hl']; subst.
    rewrite (Hf s e He), IH by (assumption || lia).
    unfold total_steps, max_episodes. cbn [List.map fold_right].
    f_equal. f_equal; lia.
Qed.

Lemma total_steps_perm (l l' : list string) :
  Permutation l l' -> total_steps l = total_steps l'.
Proof.
  unfold total_steps. induction 1; simpl; lia.
Qed.

Lemma max_episodes_perm (l l' : list string) :
  Permutation l l' -> max_episodes l = max_episodes l'.
Proof.
  unfold max_episodes. induction 1; simpl; lia.
Qed.

Lemma insert_sorted_perm (x : string) (l : list string) :
  Permutation (insert_sorted x l) (x :: l).
Proof.
  induction l as [| y l IH]; simpl; [reflexivity |].
  destruct (String.leb x y); [reflexivity |].
  rewrite IH. apply perm_swap.
Qed.

Lemma sorted_perm (l : list string) : Permutation (sorted l) l.
Proof.
  induction l as [| x l IH]; simpl; [constructor |].
  rewrite insert_sorted_perm. now constructor.
Qed.

Lemma written_scannable (w : written) :
  valid w ->
  scannable (written_name w) /\
  steps_in (written_name w) = w_steps w /\
  episodes_in (written_name w) = w_last w + 1.
Proof.
  intros [Hs Hi].
  assert (H : forall s e, count_file (s, e) (written_name w) =
                          inr (s + w_steps w, Z.max e (w_last w + 1))).
  { apply count_file_shard. unfold well_formed. lia. }
  assert (E1 : steps_in (written_name w) = w_steps w).
  { unfold steps_in. now rewrite H. }
  assert (E2 : episodes_in (written_name w) = w_last w + 1).
  { unfold episodes_in. rewrite H. lia. }
  split; [| now split].
  intros s e _. now rewrite H, E1, E2.
Qed.

Lemma ignored_scannable (name : string) :
  ignored name = true ->
  scannable name /\ steps_in name = 0 /\ episodes_in name = 0.
Proof.
  intros H. pose proof (count_file_ignored _ H) as Hc.
  assert (E1 : steps_in name = 0) by (unfold steps_in; now rewrite Hc).
  assert (E2 : episodes_in name = 0) by (unfold episodes_in; now rewrite Hc).
  split; [| now split].
  intros s e He. rewrite Hc, E1, E2. f_equal. f_equal; lia.
Qed.

(** C3.  For shards written under the writer's names, listed in any order
    and among any names that the scan passes over, [count_steps] returns
    the sum of the shards' step counts and one more than the largest last
    episode index ([0] when there is no shard); a name with two tokens at
    least whose tokens are not numeric adds nothing and raises nothing. *)
Theorem count_steps_round_trip (ws : list written) (others listing : list string) :
  Forall valid ws ->
  forallb ignored others = true ->
  Permutation listing (List.map written_name ws ++ others) ->
  count_steps listing = inr (sum_steps ws, max_index ws + 1).
Proof.
  intros Hv Ho Hp. unfold count_steps.
  assert (Hperm : Permutation (sorted listing)
                    (List.map written_name ws ++ others)).
  { now rewrite sorted_perm. }
  assert (Hsc : Forall scannable (List.map written_name ws ++ others)).
  { apply Forall_app. split.
    - apply Forall_map. apply (Forall_impl _ (fun w H => proj1 (written_scannable H)) Hv).
    - apply Forall_forall. intros name Hin.
      rewrite forallb_forall in Ho. apply (ignored_scannable _ (Ho _ Hin)). }
  rewrite count_loop_scannable;
    [| apply (Permutation_Forall (Permutation_sym Hperm) Hsc) | lia].
  rewrite (total_steps_perm Hperm), (max_episodes_perm Hperm).
  assert (Ht : total_steps (List.map written_name ws ++ others) = sum_steps ws).
  { unfold total_steps, sum_steps. rewrite map_app, fold_right_app.
    replace (fold_right Z.add 0 (List.map steps_in others)) with 0.
    - clear Hp Hperm Hsc. induction Hv as [| w ws Hw Hws IH]; simpl;
        [reflexivity |].
      destruct (written_scannable Hw) as (_ & -> & _). now rewrite IH.
    - clear - Ho. induction others as [| o others IH]; simpl; [reflexivity |].
      simpl in Ho. apply andb_true_iff in Ho. destruct Ho as [Ho1 Ho2].
      destruct (ignored_scannable _ Ho1) as (_ & -> & _). now rewrite <- IH. }
  assert (Hm : max_episodes (List.map written_name ws ++ others)
               = max_index ws + 1).
  { unfold max_episodes, max_index. rewrite map_app, fold_right_app.
    replace (fold_right Z.max 0 (List.map episodes_in others)) with 0.
    - clear Hp Hperm Hsc Ht. induction Hv as [| w ws Hw Hws IH]; simpl;
        [reflexivity |].
      destruct (written_scannable Hw) as (_ & _ & ->). rewrite IH. lia.
    - clear - Ho. induction others as [| o others IH]; simpl; [reflexivity |].
      simpl in Ho. apply andb_true_iff in Ho. destruct Ho as [Ho1 Ho2].
      destruct (ignored_scannable _ Ho1) as (_ & _ & ->). rewrite <- IH; auto. }
  rewrite Ht, Hm. f_equal. f_equal. apply Z.max_r.
  unfold max_index. clear. induction ws; simpl; lia.
Qed.

Lemma count_steps_round_trip_witness :
  let ws := [ {| w_seed := 0; w_first := 0; w_last := 1; w_steps := 2000 |};
              {| w_seed := 0; w_first := 2; w_last := 4; w_steps := 2100 |};
              {| w_seed := 0; w_first := 5; w_last := 5; w_steps := 2500 |} ] in
  let others := ["foo-bar.npz"; "notes-ep_x-y.npz"] in
  let listing := rev (List.map written_name ws ++ others) in
  count_steps listing = inr (6600, 6).
Proof.
  intros ws others listing.
  apply (@count_steps_round_trip ws others listing).
  - repeat constructor; simpl; lia.
  - vm_compute. reflexivity.
  - apply Permutation_sym, Permutation_rev.
Defined.

(** The names of that listing, and a name with one token only, on which the
    scan raises. *)
Example count_steps_names :
  List.map written_name
    [ {| w_seed := 0; w_first := 0; w_last := 1; w_steps := 2000 |};
      {| w_seed := -1; w_first := 5; w_last := 5; w_steps := 12500 |} ] =
  ["s0-ep000000_000001-2000.npz"; "s-1-ep000005-12500.npz"] /\
  count_steps ["foo.npz"] = inl IndexError.
Proof. split; vm_compute; reflexivity. Qed.

(** *** The buffer *)

Lemma shard_name_range (seed episodes n steps : Z) :
  1 <= n ->
  shard_name seed episodes n steps =
  name_of_range seed (episodes - n) (episodes - 1) steps.
Proof.
  intros Hn. unfold shard_name, name_of_range.
  destruct (Z.gtb_spec n 1) as [H | H].
  - destruct (Z.gtb_spec (episodes - 1) (episodes - n)); [| lia].
    now rewrite append_assoc.
  - assert (n = 1) by lia. subst n.
    destruct (Z.gtb_spec (episodes - 1) (episodes - 1)); [lia |].
    reflexivity.
Qed.

(** *** Lookups *)

Lemma lookup_set (V : Type) (k k' : string) (v : V) (d : list (string * V)) :
  lookup k' (dict_set String.eqb k v d) =
  if String.eqb k' k then Some v else lookup k' d.
Proof.
  unfold lookup. induction d as [| [k0 v0] d IH]; cbn [dict_set dict_get].
  - reflexivity.
  - destruct (String.eqb_spec k k0) as [-> | Hk]; cbn [dict_get].
    + destruct (String.eqb k' k0); reflexivity.
    + rewrite IH. destruct (String.eqb_spec k' k0) as [-> | Hk'];
        [| reflexivity].
      destruct (String.eqb_spec k0 k); [congruence | reflexivity].
Qed.

Lemma lookup_remove (V : Type) (k k' : string) (d : list (string * V)) :
  lookup k' (remove_key k d) = if String.eqb k' k then None else lookup k' d.
Proof.
  unfold lookup, remove_key. induction d as [| [k0 v0] d IH];
    cbn [filter dict_get fst].
  - now destruct (String.eqb k' k).
  - destruct (String.eqb_spec k k0) as [-> | Hk]; cbn [negb dict_get].
    + rewrite IH. destruct (String.eqb k' k0); reflexivity.
    + rewrite IH. destruct (String.eqb_spec k' k0) as [-> | Hk'];
        [| reflexivity].
      destruct (String.eqb_spec k0 k); [congruence | reflexivity].
Qed.

Lemma lookup_map (V W : Type) (f : V -> W) (k : string)
    (d : list (string * V)) :
  lookup k (List.map (fun kv => (fst kv, f (snd kv))) d) =
  option_map f (lookup k d).
Proof.
  unfold lookup. induction d as [| [k0 v0] d IH]; cbn [List.map dict_get fst snd].
  - reflexivity.
  - destruct (String.eqb k k0); [reflexivity | exact IH].
Qed.

Lemma lookup_keys (V : Type) (k : string) (d : list (string * V)) :
  existsb (String.eqb k) (List.map fst d) =
  match lookup k d with Some _ => true | None => false end.
Proof.
  unfold lookup. induction d as [| [k0 v0] d IH]; cbn [List.map existsb dict_get fst].
  - reflexivity.
  - destruct (String.eqb k k0); [reflexivity | exact IH].
Qed.

Lemma prefix_of_snoc (A : Type) (l pre post : list A) (x : A) :
  (l ++ [x] = pre ++ post)%list -> post <> [] ->
  exists post', l = (pre ++ post')%list.
Proof.
  intros E Hp. destruct (exists_last Hp) as (post' & y & ->).
  rewrite app_assoc in E. apply app_inj_tail in E. destruct E as [E _].
  now exists post'.
Qed.

Section BufferFacts.

Variable row : Type.
Variables seed steps_per_npz : Z.
Variable L : list (string * list nat).

Local Abbreviation taken := (nat * episode row)%type.
Local Abbreviation save := (@save_episode row seed steps_per_npz).
Local Abbreviation run_loop := (@run_episodes row seed steps_per_npz).
Local Abbreviation pending := (@Shards.pending row steps_per_npz).
Local Abbreviation flushes_ok := (@Shards.flushes_ok row seed steps_per_npz L).
Local Abbreviation recorded := (@Shards.recorded row L).
Local Abbreviation holds := (@Shards.holds row L).

Lemma steps_taken_app (a b : list taken) :
  steps_taken (a ++ b) = steps_taken a + steps_taken b.
Proof.
  unfold steps_taken. induction a as [| x a IH]; cbn; [reflexivity |].
  cbn in IH. rewrite IH. lia.
Qed.

Lemma steps_taken_nonneg (a : list taken) : 0 <= steps_taken a.
Proof. unfold steps_taken. induction a as [| x a IH]; cbn; lia. Qed.

Lemma lookup_layout (key : string) (d : episode row) :
  lookup key (layout d) = option_map (@tail_shape row) (lookup key d).
Proof. apply lookup_map. Qed.

(** Line 196 counts the steps that the buffered episodes took. *)
Lemma buffered_steps_taken (l : list taken) :
  Forall recorded l ->
  buffered_steps (List.map snd l) = inr (steps_taken l).
Proof.
  induction 1 as [| [n d] l (_ & a & Ha & Hn) _ IH]; [reflexivity |].
  cbn [List.map snd fst buffered_steps] in *. rewrite Ha, IH, Hn.
  unfold steps_taken. cbn [List.map fold_right fst]. f_equal. lia.
Qed.

(** The arrays under a key of the layout. *)
Lemma gather_layout (key : string) (s : list nat) (g : list taken) :
  Forall recorded g -> lookup key L = Some s ->
  exists arrays,
    gather key (List.map snd g) = inr arrays /\
    Forall (fun a => tail_shape a = s) arrays /\
    List.concat (List.map (@rows row) arrays) = rows_of key g /\
    List.length arrays = List.length g.
Proof.
  intros Hg Hs. induction Hg as [| [n d] g (Hl & _) _ IH].
  - exists []. repeat split. constructor.
  - destruct IH as (arrays & Ha & Hf & Hc & Hlen).
    cbn [snd] in Hl. pose proof (lookup_layout key d) as Hk.
    rewrite Hl, Hs in Hk.
    destruct (lookup key d) as [a |] eqn:Ea; [| discriminate].
    cbn [option_map] in Hk. injection Hk as Hk.
    exists (a :: arrays). cbn [List.map snd gather]. rewrite Ea, Ha.
    split; [reflexivity |]. split; [constructor; [now symmetry | exact Hf] |].
    split; [| cbn; lia].
    unfold rows_of. cbn [List.map List.concat snd]. rewrite Ea.
    unfold rows_of in Hc. now rewrite Hc.
Qed.

Lemma same_shape_refl (s : list nat) : same_shape s s = true.
Proof. induction s as [| a s IH]; cbn; [reflexivity |]. now rewrite Nat.eqb_refl. Qed.

Lemma concatenate_same (s : list nat) (arrays : list (array row)) :
  arrays <> [] -> Forall (fun a => tail_shape a = s) arrays ->
  concatenate arrays =
  inr {| tail_shape := s; rows := List.concat (List.map (@rows row) arrays) |}.
Proof.
  intros Hne Hf. destruct arrays as [| a arrays]; [congruence |].
  inversion Hf as [| ? ? Ha Hr]; subst. unfold concatenate.
  replace (forallb _ arrays) with true; [reflexivity |].
  symmetry. apply forallb_forall. intros b Hb.
  rewrite Forall_forall in Hr. rewrite (Hr b Hb). apply same_shape_refl.
Qed.

(** Lines 202 to 204, on episodes of the layout [L]. *)
Lemma concat_keys_layout (g : list taken) (keys : list string) :
  g <> [] -> Forall recorded g ->
  (forall key, In key keys -> lookup key L <> None) ->
  forall acc, exists data,
    concat_keys keys (List.map snd g) acc = inr data /\
    forall key,
      lookup key data =
      if existsb (String.eqb key) keys then
        match lookup key L with
        | Some s => Some {| tail_shape := s; rows := rows_of key g |}
        | None => None
        end
      else lookup key acc.
Proof.
  intros Hne Hg. induction keys as [| k keys IH]; intros Hk acc.
  - exists acc. split; reflexivity.
  - cbn [concat_keys].
    destruct (lookup k L) as [s |] eqn:Es; [| now destruct (Hk k (or_introl eq_refl))].
    destruct (@gather_layout k s g Hg Es) as (arrays & Ha & Hf & Hc & Hlen).
    rewrite Ha, (@concatenate_same s arrays); [| | exact Hf].
    2: { destruct arrays; [| discriminate]. destruct g; [congruence | discriminate]. }
    destruct (IH (fun key H => Hk key (or_intror H))
                 (dict_set String.eqb k
                    {| tail_shape := s;
                       rows := List.concat (List.map (@rows row) arrays) |} acc))
      as (data & Hd & Hl).
    exists data. split; [exact Hd |]. intros key. rewrite Hl.
    cbn [existsb]. destruct (existsb (String.eqb key) keys);
      [now rewrite orb_true_r |].
    rewrite orb_false_r, lookup_set.
    destruct (String.eqb_spec key k) as [-> | Hneq]; [| reflexivity].
    now rewrite Es, Hc.
Qed.

(** One pass with an episode of the layout. *)
Lemma save_flushes (buf : list taken) (ep : taken) (episodes : Z) :
  with_image L -> Forall recorded (buf ++ [ep]) ->
  steps_per_npz <= steps_taken (buf ++ [ep]) ->
  exists sh,
    save (List.map snd buf) episodes (snd ep) = inr ([], Some sh) /\
    fname sh = shard_name seed episodes (Z.of_nat (List.length (buf ++ [ep])))
                 (steps_taken (buf ++ [ep])) /\
    holds (buf ++ [ep]) sh.
Proof.
  intros (h & w & c & Himg) Hg Hge. unfold save_episode.
  replace (List.map snd buf ++ [snd ep])%list
    with (List.map snd (buf ++ [ep])) by now rewrite map_app.
  rewrite (buffered_steps_taken Hg).
  destruct (Z.geb_spec (steps_taken (buf ++ [ep])) steps_per_npz); [| lia].
  assert (Hne : (buf ++ [ep])%list <> []) by now destruct buf.
  assert (Hkeys : List.map fst (hd [] (List.map snd (buf ++ [ep]))) =
                  List.map fst L).
  { destruct (buf ++ [ep])%list as [| [n d] g]; [congruence |].
    inversion Hg as [| ? ? (Hl & _) _]; subst. cbn [List.map hd snd layout].
    unfold layout. rewrite map_map. reflexivity. }
  rewrite Hkeys.
  destruct (@concat_keys_layout (buf ++ [ep])%list (List.map fst L) Hne Hg)
    with (acc := @nil (string * array row)) as (dat & Hd & Hl).
  { intros key Hin Hnone. apply (dict_get_none _ String.eqb_eq) in Hnone.
    exact (Hnone Hin). }
  rewrite Hd. unfold image_last.
  rewrite (Hl "image"), lookup_keys, Himg. cbn [tail_shape List.length Nat.eqb].
  eexists. split; [reflexivity |]. split; [rewrite length_map; reflexivity |].
  intros key. cbn [Shards.data].
  rewrite lookup_remove, lookup_set, lookup_map, Hl, lookup_keys, Himg.
  destruct (String.eqb key "image"); [reflexivity |].
  destruct (String.eqb key "image_t"); [reflexivity |].
  now destruct (lookup key L).
Qed.

Lemma save_keeps (buf : list taken) (ep : taken) (episodes : Z) :
  Forall recorded (buf ++ [ep]) ->
  steps_taken (buf ++ [ep]) < steps_per_npz ->
  save (List.map snd buf) episodes (snd ep) =
  inr (List.map snd (buf ++ [ep]), None).
Proof.
  intros Hg Hlt. unfold save_episode.
  replace (List.map snd buf ++ [snd ep])%list
    with (List.map snd (buf ++ [ep])) by now rewrite map_app.
  rewrite (buffered_steps_taken Hg).
  destruct (Z.geb_spec (steps_taken (buf ++ [ep])) steps_per_npz); [lia |].
  reflexivity.
Qed.

Lemma pending_snoc (buf : list taken) (ep : taken) :
  pending buf -> steps_taken (buf ++ [ep]) < steps_per_npz ->
  pending (buf ++ [ep]).
Proof.
  intros Hd Hs pre post E Hpre.
  destruct post as [| p post].
  - rewrite app_nil_r in E. now subst pre.
  - destruct (@prefix_of_snoc _ buf pre (p :: post) ep E) as [post' E'];
      [discriminate |].
    apply (Hd pre post' E' Hpre).
Qed.

Lemma pending_nil : pending [].
Proof.
  intros pre post E. symmetry in E. apply app_eq_nil in E.
  destruct E as [-> _]. congruence.
Qed.

(** The passes for a list of episodes. *)
Lemma run_episodes_spec (eps : list taken) :
  with_image L ->
  forall buf episodes,
  Forall recorded (buf ++ eps) -> pending buf ->
  exists groups rest out,
    run_loop (List.map snd buf) episodes (List.map snd eps) =
      (out, inr (List.map snd rest, episodes + Z.of_nat (List.length eps))) /\
    (buf ++ eps = List.concat groups ++ rest)%list /\
    flushes_ok (episodes - Z.of_nat (List.length buf)) groups out /\
    pending rest.
Proof.
  intros Himg. induction eps as [| ep eps IH]; intros buf episodes Hg Hp;
    cbn [List.map run_episodes].
  - exists [], buf, []. rewrite app_nil_r, Z.add_0_r. cbn. auto.
  - assert (Hg1 : Forall recorded (buf ++ [ep])).
    { apply Forall_app in Hg. destruct Hg as [Hb He].
      apply Forall_app. split; [exact Hb |]. inversion He; subst.
      now constructor. }
    destruct (Z.le_gt_cases steps_per_npz (steps_taken (buf ++ [ep])))
      as [Hge | Hlt].
    + destruct (@save_flushes buf ep (episodes + 1) Himg Hg1 Hge)
        as (sh & Hs & Hn & Hh).
      rewrite Hs.
      destruct (IH [] (episodes + 1)) as (groups & rest & out & Hr & Hc & Ho & Hpr).
      { apply Forall_app in Hg. destruct Hg as [_ He]. now inversion He. }
      { apply pending_nil. }
      cbn [List.map] in Hr. rewrite Hr.
      exists ((buf ++ [ep])%list :: groups), rest, (sh :: out).
      split; [f_equal; f_equal; f_equal; cbn [List.length]; lia |].
      split; [cbn [List.concat]; rewrite <- !app_assoc; cbn [app] in Hc |- *;
              now rewrite <- Hc |].
      split; [| exact Hpr].
      cbn [Shards.flushes_ok].
      split; [now destruct buf |].
      split.
      { rewrite Hn, shard_name_range
          by (rewrite length_app; cbn [List.length]; lia).
        rewrite length_app. cbn [List.length]. f_equal; lia. }
      split; [exact Hh |]. split; [exact Hge |]. split.
      { intros pre post E Hpre Hpost.
        destruct (@prefix_of_snoc _ buf pre post ep E Hpost) as [post' E'].
        apply (Hp pre post' E' Hpre). }
      cbn [List.length] in Ho. rewrite length_app. cbn [List.length].
      replace (episodes - Z.of_nat (List.length buf) +
               Z.of_nat (List.length buf + 1)) with (episodes + 1 - Z.of_nat 0) by lia.
      exact Ho.
    + rewrite (@save_keeps buf ep (episodes + 1) Hg1 Hlt).
      destruct (IH (buf ++ [ep])%list (episodes + 1))
        as (groups & rest & out & Hr & Hc & Ho & Hpr).
      { now rewrite <- app_assoc. }
      { now apply pending_snoc. }
      rewrite Hr. exists groups, rest, out.
      split; [f_equal; f_equal; f_equal; cbn [List.length]; lia |].
      split; [rewrite <- Hc, <- app_assoc; reflexivity |].
      split; [| exact Hpr].
      rewrite length_app in Ho. cbn [List.length] in Ho.
      replace (episodes - Z.of_nat (List.length buf))
        with (episodes + 1 - Z.of_nat (List.length buf + 1)) by lia.
      exact Ho.
Qed.

(** C2.  For episodes as [CollectWrapper] records them, each with a row
    under [reset] for its reset and for each of its steps, all of one
    layout that has an image: a pass of the buffer that appends an episode
    flushes exactly when the steps that the buffered episodes took, the new
    one included, have reached the threshold; it then writes a shard that
    holds them and leaves the buffer empty, and otherwise keeps them.  Over
    a run that starts with an empty buffer and the episode counter [e0]
    nothing is raised, and the episodes split, in order, into the groups
    that were flushed and the buffer that is left: each shard is named
    after the index range of the episodes of its group and the steps they
    took, holds their rows whole and in order, and was written when the
    steps of the group reached the threshold, not before its last episode;
    the buffer left has not reached the threshold. *)
Theorem buffer_flushes_at_threshold (e0 : Z) (eps : list taken) :
  with_image L -> Forall recorded eps ->
  (forall buf ep episodes, Forall recorded (buf ++ [ep]) ->
     if steps_taken (buf ++ [ep]) >=? steps_per_npz then
       exists sh,
         save (List.map snd buf) episodes (snd ep) = inr ([], Some sh) /\
         fname sh =
           shard_name seed episodes (Z.of_nat (List.length (buf ++ [ep])))
             (steps_taken (buf ++ [ep])) /\
         holds (buf ++ [ep]) sh
     else
       save (List.map snd buf) episodes (snd ep) =
       inr (List.map snd (buf ++ [ep]), None)) /\
  exists groups rest out,
    run_loop [] e0 (List.map snd eps) =
      (out, inr (List.map snd rest, e0 + Z.of_nat (List.length eps))) /\
    (eps = List.concat groups ++ rest)%list /\
    flushes_ok e0 groups out /\
    pending rest.
Proof.
  intros Himg Hg. split.
  - intros buf ep episodes Hb.
    destruct (Z.geb_spec (steps_taken (buf ++ [ep])) steps_per_npz) as [H | H].
    + apply save_flushes; [assumption | assumption | lia].
    + now apply save_keeps.
  - destruct (@run_episodes_spec eps Himg [] e0 Hg pending_nil)
      as (groups & rest & out & Hr & Hc & Ho & Hp).
    exists groups, rest, out. cbn [List.map] in Hr.
    split; [exact Hr |]. split; [exact Hc |]. split; [| exact Hp].
    cbn [List.length] in Ho. now rewrite Z.sub_0_r in Ho.
Qed.

End BufferFacts.

Lemma numbered_recorded (from n : nat) : recorded numbered_layout (numbered from n).
Proof.
  split; [reflexivity |]. eexists. split; [reflexivity |].
  cbn [rows fst numbered]. apply length_seq.
Qed.

Lemma numbered_with_image : with_image numbered_layout.
Proof. now exists 7%nat, 7%nat, 3%nat. Qed.

Lemma buffer_flushes_at_threshold_witness :
  let eps := [numbered 0 3; numbered 4 3; numbered 8 1] in
  (with_image numbered_layout /\ Forall (recorded numbered_layout) eps) /\
  ((forall (buf : list (nat * episode nat)) ep episodes,
      Forall (recorded numbered_layout) (buf ++ [ep]) ->
      if steps_taken (buf ++ [ep]) >=? 5 then
        exists sh,
          save_episode 0 5 (List.map snd buf) episodes (snd ep) =
            inr ([], Some sh) /\
          fname sh =
            shard_name 0 episodes (Z.of_nat (List.length (buf ++ [ep])))
              (steps_taken (buf ++ [ep])) /\
          holds numbered_layout (buf ++ [ep]) sh
      else
        save_episode 0 5 (List.map snd buf) episodes (snd ep) =
        inr (List.map snd (buf ++ [ep]), None)) /\
   exists groups rest out,
     run_episodes 0 5 [] 0 (List.map snd eps) =
       (out, inr (List.map snd rest, 0 + Z.of_nat (List.length eps))) /\
     (eps = List.concat groups ++ rest)%list /\
     flushes_ok 0 5 numbered_layout 0 groups out /\
     pending 5 rest).
Proof.
  intros eps.
  assert (H : Forall (recorded numbered_layout) eps).
  { repeat constructor; apply numbered_recorded. }
  split; [split; [exact numbered_with_image | exact H] |].
  apply (@buffer_flushes_at_threshold nat 0 5 numbered_layout 0 eps
           numbered_with_image H).
Defined.

(** The scenario of the spec: seed 0, one episode of three steps, a
    threshold of two steps.  The episode is flushed whole, under the name
    of the single index 0 and 3 steps.  With a threshold of five steps a
    second episode of three steps is needed, and the name holds the range;
    a third episode stays in the buffer. *)
Example flush_scenario :
  List.map (@fname nat)
    (fst (run_episodes 0 2 [] 0 [snd (numbered 0 3)])) =
    ["s0-ep000000-0003.npz"] /\
  List.map (@fname nat)
    (fst (run_episodes 0 5 [] 0
            (List.map snd [numbered 0 3; numbered 4 3; numbered 8 1]))) =
    ["s0-ep000000_000001-0006.npz"] /\
  snd (run_episodes 0 5 [] 0
         (List.map snd [numbered 0 3; numbered 4 3; numbered 8 1])) =
    inr ([snd (numbered 8 1)], 3).
Proof. repeat split; vm_compute; reflexivity. Qed.

(** What a flush raises on other episodes: an episode without the entry
    [reset] stops the count of line 196, an episode without the entry
    [image] stops line 209 once the threshold is reached, an image that
    has not four axes cannot be transposed, and arrays of different shapes
    cannot be concatenated. *)
Example flush_raises :
  let reset3 := ("reset", {| tail_shape := []; rows := [0; 1; 2; 3]%nat |}) in
  let image3 s := ("image", {| tail_shape := s; rows := [0; 1; 2; 3]%nat |}) in
  save_episode 0 2 [] 1 [image3 [7; 7; 3]%nat] = inl (KeyError "reset") /\
  save_episode 0 2 [] 1 [reset3] = inl (KeyError "image") /\
  save_episode 0 9 [] 1 [reset3] = inr ([[reset3]], None) /\
  save_episode 0 2 [] 1 [reset3; image3 [7; 7]%nat] = inl ShapeError /\
  save_episode 0 2 [[reset3; image3 [7; 7; 3]%nat]] 2
    [reset3; image3 [5; 5; 3]%nat] = inl ShapeError /\
  save_episode 0 2 [[reset3; image3 [7; 7; 3]%nat]] 2 [reset3] =
    inl (KeyError "image").
Proof. repeat split; vm_compute; reflexivity. Qed.

(** *** Names the scan raises on *)

Lemma split_two (sep : ascii) (s : string) :
  has sep s = true -> exists a b l, split sep s = a :: b :: l.
Proof.
  induction s as [| c s IH]; cbn [has split]; [discriminate |].
  intros H. pose proof (split_nonempty sep s) as Hne.
  destruct (split sep s) as [| tok rest] eqn:E; [congruence |].
  destruct (Ascii.eqb c sep) eqn:Ec.
  - now exists "", tok, rest.
  - rewrite Ascii.eqb_sym, Ec in H. cbn [orb] in H.
    destruct (IH H) as (a & b & l & [= -> ->]).
    now exists (String c a), b, l.
Qed.

Lemma items_of_two (a b : string) (l : list string) :
  exists x y, item_last (a :: b :: l) = Some x /\
              item_before_last (a :: b :: l) = Some y.
Proof.
  assert (H : exists l0 y x, a :: b :: l = (l0 ++ [y; x])%list).
  { destruct (@exists_last _ (a :: b :: l)) as (l1 & x & E); [discriminate |].
    destruct l1 as [| a1 l1]; [discriminate |].
    destruct (@exists_last _ (a1 :: l1)) as (l0 & y & E'); [discriminate |].
    exists l0, y, x. rewrite E, E', <- app_assoc. reflexivity. }
  destruct H as (l0 & y & x & ->). exists x, y. split.
  - replace (l0 ++ [y; x])%list with ((l0 ++ [y]) ++ [x])%list
      by now rewrite <- app_assoc.
    apply item_last_snoc.
  - apply item_before_last_snoc.
Qed.

Lemma item_last_some (l : list string) :
  l <> [] -> exists x, item_last l = Some x.
Proof.
  intros H. destruct (exists_last H) as (l0 & x & ->).
  exists x. apply item_last_snoc.
Qed.

(** What a token adds: a numeric token reads as a number that is not
    negative. *)
Lemma numeric_reads (s : string) :
  isnumeric s = true -> exists z, int s = Some z /\ 0 <= z.
Proof.
  unfold isnumeric, int. destruct s as [| c s]; [discriminate |].
  destruct (NilEmpty.uint_of_string (String c s)) as [d |]; [| discriminate].
  intros _. exists (Z.of_N (N.of_uint d)). split; [reflexivity | lia].
Qed.

Lemma dashless_raises (name : string) (acc : Z * Z) :
  has "-" (stem name) = false -> count_file acc name = inl IndexError.
Proof.
  intros H. destruct acc as [s e]. unfold count_file.
  rewrite (split_no_sep _ _ H). cbn [item_last item_before_last rev app].
  destruct (isnumeric (stem name)) eqn:En; [| reflexivity].
  destruct (numeric_reads _ En) as (z & -> & _). reflexivity.
Qed.

Lemma dash_scannable (name : string) :
  has "-" (stem name) = true ->
  scannable name /\ 0 <= steps_in name /\ 0 <= episodes_in name.
Proof.
  intros H. destruct (split_two _ _ H) as (a & b & l & E).
  destruct (items_of_two a b l) as (sstep & tok & Hl & Hb).
  destruct (@item_last_some (split "_" (replace_ep tok)))
    as (sepisode & Hse); [apply split_nonempty |].
  assert (Hc : forall s e,
    count_file (s, e) name =
    inr (s + (if isnumeric sstep
              then match int sstep with Some z => z | None => 0 end else 0),
         if isnumeric sepisode
         then Z.max e (match int sepisode with Some z => z | None => 0 end + 1)
         else e)).
  { intros s e. unfold count_file. rewrite E, Hl, Hb.
    unfold episode_token. rewrite Hse.
    destruct (isnumeric sstep) eqn:E1.
    - destruct (numeric_reads _ E1) as (z1 & -> & _). cbn [option_map].
      destruct (isnumeric sepisode) eqn:E2.
      + destruct (numeric_reads _ E2) as (z2 & -> & _). reflexivity.
      + reflexivity.
    - destruct (isnumeric sepisode) eqn:E2.
      + destruct (numeric_reads _ E2) as (z2 & -> & _). cbn [option_map].
        now rewrite Z.add_0_r.
      + now rewrite Z.add_0_r. }
  assert (Hs : steps_in name =
               if isnumeric sstep
               then match int sstep with Some z => z | None => 0 end else 0).
  { unfold steps_in. now rewrite Hc. }
  assert (He : episodes_in name =
               if isnumeric sepisode
               then Z.max 0 (match int sepisode with Some z => z | None => 0 end + 1)
               else 0).
  { unfold episodes_in. now rewrite Hc. }
  assert (Hs0 : 0 <= steps_in name).
  { rewrite Hs. destruct (isnumeric sstep) eqn:E1; [| lia].
    destruct (numeric_reads _ E1) as (z1 & -> & ?). lia. }
  assert (He0 : 0 <= episodes_in name).
  { rewrite He. destruct (isnumeric sepisode); lia. }
  split; [| now split].
  intros s e He'. rewrite Hc, Hs, He. f_equal. f_equal.
  destruct (isnumeric sepisode); lia.
Qed.

Lemma count_loop_raises (l : list string) : forall s e,
  0 <= e ->
  (exists name, In name l /\ has "-" (stem name) = false) ->
  count_loop l (s, e) = inl IndexError.
Proof.
  induction l as [| f l IH]; intros s e He (name & Hin & Hd);
    [destruct Hin |].
  cbn [count_loop].
  destruct (has "-" (stem f)) eqn:Hf.
  - destruct (dash_scannable _ Hf) as (Hsc & _ & He0).
    rewrite (Hsc s e He). apply IH; [lia |].
    destruct Hin as [<- | Hin]; [congruence |]. now exists name.
  - now rewrite dashless_raises.
Qed.

Lemma dashes_decide (l : list string) :
  Forall (fun name => has "-" (stem name) = true) l \/
  exists name, In name l /\ has "-" (stem name) = false.
Proof.
  induction l as [| f l [IH | (name & Hin & Hd)]].
  - left. constructor.
  - destruct (has "-" (stem f)) eqn:Hf.
    + left. now constructor.
    + right. exists f. split; [now left | exact Hf].
  - right. exists name. split; [now right | exact Hd].
Qed.

Lemma total_steps_nonneg (l : list string) :
  Forall (fun name => has "-" (stem name) = true) l -> 0 <= total_steps l.
Proof.
  unfold total_steps. induction 1 as [| f l Hf Hl IH]; cbn; [lia |].
  destruct (dash_scannable _ Hf) as (_ & ? & _). lia.
Qed.

Lemma max_episodes_nonneg (l : list string) : 0 <= max_episodes l.
Proof. unfold max_episodes. induction l; cbn; lia. Qed.

Lemma count_steps_scannable (l : list string) :
  Forall scannable l ->
  count_steps l = inr (total_steps l, max_episodes l).
Proof.
  intros H. unfold count_steps.
  rewrite count_loop_scannable;
    [| apply (Permutation_Forall (Permutation_sym (sorted_perm l)) H) | lia].
  rewrite (total_steps_perm (sorted_perm l)),
          (max_episodes_perm (sorted_perm l)).
  f_equal. f_equal. pose proof (max_episodes_nonneg l). lia.
Qed.

(** X16.  On ASCII names, [count_steps] raises exactly when the part of a
    file name before its first dot holds no dash, and then it is the
    [IndexError] of [split('-')[-2]]; it never raises [ValueError].  When
    it returns, the steps are the sum over the files of what each adds,
    the episodes the largest count that a file proposes, and neither is
    negative: the result does not depend on the order of the listing. *)
Theorem count_steps_needs_a_dash (listing : list string) :
  forallb is_ascii listing = true ->
  match count_steps listing with
  | inr (steps, episodes) =>
      Forall (fun name => has "-" (stem name) = true) listing /\
      steps = total_steps listing /\ episodes = max_episodes listing /\
      0 <= steps /\ 0 <= episodes
  | inl IndexError =>
      exists name, In name listing /\ has "-" (stem name) = false
  | inl ValueError => False
  end.
Proof.
  intros _. destruct (dashes_decide listing) as [H | (name & Hin & Hd)].
  - rewrite count_steps_scannable.
    + split; [exact H |]. split; [reflexivity |]. split; [reflexivity |].
      split; [now apply total_steps_nonneg | apply max_episodes_nonneg].
    + apply (Forall_impl _ (fun n Hn => proj1 (dash_scannable n Hn)) H).
  - unfold count_steps. rewrite count_loop_raises; [| lia |].
    + now exists name.
    + exists name. split; [| exact Hd].
      apply (Permutation_in _ (Permutation_sym (sorted_perm listing)) Hin).
Qed.

Lemma count_steps_needs_a_dash_witness :
  forallb is_ascii ["s0-ep000000-0003.npz"; "model.npz"] = true /\
  match count_steps ["s0-ep000000-0003.npz"; "model.npz"] with
  | inr (steps, episodes) =>
      Forall (fun name => has "-" (stem name) = true)
        ["s0-ep000000-0003.npz"; "model.npz"] /\
      steps = total_steps ["s0-ep000000-0003.npz"; "model.npz"] /\
      episodes = max_episodes ["s0-ep000000-0003.npz"; "model.npz"] /\
      0 <= steps /\ 0 <= episodes
  | inl IndexError =>
      exists name, In name ["s0-ep000000-0003.npz"; "model.npz"] /\
                   has "-" (stem name) = false
  | inl ValueError => False
  end.
Proof.
  assert (H : forallb is_ascii ["s0-ep000000-0003.npz"; "model.npz"] = true)
    by (vm_compute; reflexivity).
  split; [exact H |].
  apply (@count_steps_needs_a_dash ["s0-ep000000-0003.npz"; "model.npz"] H).
Defined.

(** *** A run, and the scan after it *)

Section RunFacts.

Variable row : Type.
Variables seed steps_per_npz : Z.
Variable L : list (string * list nat).

Local Abbreviation taken := (nat * episode row)%type.
Local Abbreviation run_loop := (@run_episodes row seed steps_per_npz).
Local Abbreviation flushes_ok := (@Shards.flushes_ok row seed steps_per_npz L).
Local Abbreviation recorded := (@Shards.recorded row L).

Lemma shard_scan (episodes n steps : Z) :
  0 <= steps -> 1 <= n <= episodes ->
  scannable (shard_name seed episodes n steps) /\
  steps_in (shard_name seed episodes n steps) = steps /\
  episodes_in (shard_name seed episodes n steps) = episodes.
Proof.
  intros Hs Hn.
  assert (H : forall s e, count_file (s, e) (shard_name seed episodes n steps) =
                          inr (s + steps, Z.max e episodes)).
  { apply count_file_shard. unfold well_formed. lia. }
  assert (E1 : steps_in (shard_name seed episodes n steps) = steps).
  { unfold steps_in. now rewrite H. }
  assert (E2 : episodes_in (shard_name seed episodes n steps) = episodes).
  { unfold episodes_in. rewrite H. lia. }
  split; [| now split]. intros s e _. now rewrite H, E1, E2.
Qed.

(** The names of the shards written, as the scan reads them. *)
Lemma names_scan (groups : list (list taken)) : forall first out,
  0 <= first -> flushes_ok first groups out ->
  let names := List.map (@fname row) out in
  let written := List.concat groups in
  Forall scannable names /\
  total_steps names = steps_taken written /\
  Forall (fun name => first < episodes_in name) names /\
  NoDup names /\
  max_episodes names =
    match out with
    | [] => 0
    | _ => first + Z.of_nat (List.length written)
    end.
Proof.
  induction groups as [| g groups IH]; intros first out Hf Ho;
    destruct out as [| sh out]; cbn [Shards.flushes_ok] in Ho; try contradiction.
  - cbn. repeat split; constructor.
  - destruct Ho as (Hne & Hn & _ & _ & _ & Ho).
    assert (Hlen : 1 <= Z.of_nat (List.length g)).
    { destruct g; [congruence | cbn [List.length]; lia]. }
    destruct (IH (first + Z.of_nat (List.length g)) out) as
      (Hsc & Ht & Hlo & Hnd & Hmax); [lia | exact Ho |].
    cbn [List.map List.concat].
    destruct (@shard_scan (first + Z.of_nat (List.length g))
                (Z.of_nat (List.length g)) (steps_taken g))
      as (S1 & S2 & S3); [apply steps_taken_nonneg | lia |].
    rewrite (shard_name_range seed (first + Z.of_nat (List.length g))
               (steps_taken g) Hlen) in S1, S2, S3.
    replace (first + Z.of_nat (List.length g) - Z.of_nat (List.length g))
      with first in S1, S2, S3 by lia.
    rewrite <- Hn in S1, S2, S3.
    split; [now constructor |].
    split.
    { unfold total_steps in *. cbn [List.map fold_right].
      rewrite S2, Ht. symmetry. apply steps_taken_app. }
    split.
    { constructor; [rewrite S3; lia |].
      eapply Forall_impl; [| exact Hlo]. intros n H. cbv beta in H. lia. }
    split.
    { constructor; [| exact Hnd]. intros Hin.
      rewrite Forall_forall in Hlo. specialize (Hlo _ Hin).
      rewrite S3 in Hlo. lia. }
    unfold max_episodes in *. cbn [List.map fold_right].
    rewrite S3, Hmax, length_app.
    destruct out as [| sh' out]; [| lia].
    destruct groups; [cbn; lia | cbn in Ho; contradiction].
Qed.

Lemma episodes_in_le (l : list string) (name : string) :
  In name l -> episodes_in name <= max_episodes l.
Proof.
  unfold max_episodes. induction l as [| f l IH]; intros []; cbn.
  - subst. lia.
  - specialize (IH H). lia.
Qed.

Lemma total_steps_app (a b : list string) :
  total_steps (a ++ b) = total_steps a + total_steps b.
Proof.
  unfold total_steps. induction a as [| x a IH]; cbn; [reflexivity |].
  cbn in IH. rewrite IH. lia.
Qed.

Lemma max_episodes_app (a b : list string) :
  max_episodes (a ++ b) = Z.max (max_episodes a) (max_episodes b).
Proof.
  unfold max_episodes. induction a as [| x a IH]; cbn.
  - pose proof (max_episodes_nonneg b) as H. unfold max_episodes in H. lia.
  - cbn in IH. rewrite IH. lia.
Qed.

(** X17.  A run that starts from the counts of a scan, on a directory of
    ASCII names that all hold a dash before the first dot, with episodes as
    [CollectWrapper] records them, all of one layout that has an image: a
    scan of the directory after the run finds the steps and the episodes of
    the first scan plus those of the episodes that the run has written.
    The steps of the episodes left in the buffer are not found again, and
    their indices are the next to be given. *)
Theorem scan_after_run (listing : list string) (eps : list taken) :
  forallb is_ascii listing = true ->
  Forall (fun name => has "-" (stem name) = true) listing ->
  with_image L -> Forall recorded eps ->
  exists steps episodes,
    count_steps listing = inr (steps, episodes) /\
    exists written rest out,
      run_loop [] episodes (List.map snd eps) =
        (out, inr (List.map snd rest,
                   episodes + Z.of_nat (List.length written)
                   + Z.of_nat (List.length rest))) /\
      (eps = written ++ rest)%list /\
      steps_taken eps = steps_taken written + steps_taken rest /\
      count_steps (listing ++ List.map (@fname row) out) =
        inr (steps + steps_taken written,
             episodes + Z.of_nat (List.length written)).
Proof.
  intros _ Hl Himg Hep.
  assert (Hsc : Forall scannable listing).
  { apply (Forall_impl _ (fun n Hn => proj1 (dash_scannable n Hn)) Hl). }
  exists (total_steps listing), (max_episodes listing).
  split; [now apply count_steps_scannable |].
  pose proof (max_episodes_nonneg listing) as He0.
  destruct (@run_episodes_spec row seed steps_per_npz L eps Himg []
              (max_episodes listing) Hep (@pending_nil row steps_per_npz))
    as (groups & rest & out & Hr & Hc & Ho & _).
  cbn [List.length List.map app] in Hr, Hc, Ho. rewrite Z.sub_0_r in Ho.
  destruct (@names_scan groups (max_episodes listing) out He0 Ho)
    as (Hs & Ht & Hlo & Hnd & Hmax).
  exists (List.concat groups), rest, out.
  split.
  { rewrite Hr. f_equal. f_equal. f_equal. rewrite Hc, length_app. lia. }
  split; [exact Hc |].
  split; [rewrite Hc at 1; apply steps_taken_app |].
  rewrite count_steps_scannable by (apply Forall_app; now split).
  rewrite total_steps_app, max_episodes_app, Ht, Hmax.
  f_equal. f_equal.
  destruct out as [| sh out]; cbv iota.
  2: { apply Z.max_r. pose proof (Nat2Z.is_nonneg (List.length (List.concat groups))). lia. }
  destruct groups; [cbn; lia | cbn in Ho; contradiction].
Qed.

(** X18.  Under the same conditions the run overwrites nothing: the names
    of the shards it writes are pairwise distinct, and none of them is a
    name that the directory held when the run started. *)
Theorem run_never_overwrites (listing : list string) (eps : list taken) :
  forallb is_ascii listing = true ->
  Forall (fun name => has "-" (stem name) = true) listing ->
  with_image L -> Forall recorded eps ->
  exists steps episodes,
    count_steps listing = inr (steps, episodes) /\
    exists out r,
      run_loop [] episodes (List.map snd eps) = (out, inr r) /\
      NoDup (List.map (@fname row) out) /\
      forall name, In name (List.map (@fname row) out) -> ~ In name listing.
Proof.
  intros _ Hl Himg Hep.
  assert (Hsc : Forall scannable listing).
  { apply (Forall_impl _ (fun n Hn => proj1 (dash_scannable n Hn)) Hl). }
  exists (total_steps listing), (max_episodes listing).
  split; [now apply count_steps_scannable |].
  pose proof (max_episodes_nonneg listing) as He0.
  destruct (@run_episodes_spec row seed steps_per_npz L eps Himg []
              (max_episodes listing) Hep (@pending_nil row steps_per_npz))
    as (groups & rest & out & Hr & Hc & Ho & _).
  cbn [List.length List.map app] in Hr, Hc, Ho. rewrite Z.sub_0_r in Ho.
  destruct (@names_scan groups (max_episodes listing) out He0 Ho)
    as (Hs & Ht & Hlo & Hnd & Hmax).
  exists out. eexists. split; [exact Hr |]. split; [exact Hnd |].
  intros name Hin Hold. rewrite Forall_forall in Hlo.
  specialize (Hlo _ Hin). pose proof (episodes_in_le _ _ Hold). lia.
Qed.

End RunFacts.

Lemma scan_after_run_witness :
  let listing := ["s0-ep000000_000001-0006.npz"; "notes-x.npz"] in
  let eps := [numbered 0 3; numbered 4 3; numbered 8 1] in
  (forallb is_ascii listing = true /\
   Forall (fun name => has "-" (stem name) = true) listing /\
   with_image numbered_layout /\ Forall (recorded numbered_layout) eps) /\
  exists steps episodes,
    count_steps listing = inr (steps, episodes) /\
    exists written rest out,
      run_episodes 0 5 [] episodes (List.map snd eps) =
        (out, inr (List.map snd rest,
                   episodes + Z.of_nat (List.length written)
                   + Z.of_nat (List.length rest))) /\
      (eps = written ++ rest)%list /\
      steps_taken eps = steps_taken written + steps_taken rest /\
      count_steps (listing ++ List.map (@fname nat) out) =
        inr (steps + steps_taken written,
             episodes + Z.of_nat (List.length written)).
Proof.
  intros listing eps.
  assert (H0 : forallb is_ascii listing = true) by (vm_compute; reflexivity).
  assert (H1 : Forall (fun name => has "-" (stem name) = true) listing).
  { repeat constructor. }
  assert (H2 : Forall (recorded numbered_layout) eps).
  { repeat constructor; apply numbered_recorded. }
  split; [repeat split; assumption || exact numbered_with_image |].
  apply (@scan_after_run nat 0 5 numbered_layout listing eps H0 H1
           numbered_with_image H2).
Defined.

(** On that input the scan finds 6 steps and 2 episodes, the run writes
    the episodes 2 and 3 as one shard of 6 steps and keeps the last one
    in the buffer. *)
Example scan_after_run_names :
  count_steps ["s0-ep000000_000001-0006.npz"; "notes-x.npz"] = inr (6, 2) /\
  List.map (@fname nat)
    (fst (run_episodes 0 5 [] 2
            (List.map snd [numbered 0 3; numbered 4 3; numbered 8 1])))
  = ["s0-ep000002_000003-0006.npz"] /\
  count_steps ["s0-ep000000_000001-0006.npz"; "notes-x.npz";
               "s0-ep000002_000003-0006.npz"] = inr (12, 4).
Proof. repeat split; vm_compute; reflexivity. Qed.

Lemma run_never_overwrites_witness :
  let listing := ["s0-ep000000_000001-0006.npz"; "notes-x.npz"] in
  let eps := [numbered 0 3; numbered 4 3; numbered 8 1] in
  (forallb is_ascii listing = true /\
   Forall (fun name => has "-" (stem name) = true) listing /\
   with_image numbered_layout /\ Forall (recorded numbered_layout) eps) /\
  exists steps episodes,
    count_steps listing = inr (steps, episodes) /\
    exists out r,
      run_episodes 0 5 [] episodes (List.map snd eps) = (out, inr r) /\
      NoDup (List.map (@fname nat) out) /\
      forall name, In name (List.map (@fname nat) out) -> ~ In name listing.
Proof.
  intros listing eps.
  assert (H0 : forallb is_ascii listing = true) by (vm_compute; reflexivity).
  assert (H1 : Forall (fun name => has "-" (stem name) = true) listing).
  { repeat constructor. }
  assert (H2 : Forall (recorded numbered_layout) eps).
  { repeat constructor; apply numbered_recorded. }
  split; [repeat split; assumption || exact numbered_with_image |].
  apply (@run_never_overwrites nat 0 5 numbered_layout listing eps H0 H1
           numbered_with_image H2).
Defined.

End ShardsFacts.

(** ** The discounted return *)

Module ReturnsFacts.

Import Returns.
Local Open Scope Qc_scope.

Lemma last_default (A : Type) (l : list A) : forall a d d',
  last (a :: l) d = last (a :: l) d'.
Proof.
  induction l as [| b l IH]; intros a d d'; [reflexivity |].
  change (last (b :: l) d = last (b :: l) d'). apply IH.
Qed.

Lemma lfilter_app (gamma prev : Qc) (x y : list Qc) :
  lfilter gamma prev (x ++ y) =
  lfilter gamma prev x ++ lfilter gamma (last (lfilter gamma prev x) prev) y.
Proof.
  revert prev. induction x as [| v x IH]; intros prev; cbn [app lfilter].
  - reflexivity.
  - rewrite IH. cbn [app]. f_equal. f_equal. f_equal.
    destruct (lfilter gamma (v + gamma * prev) x) as [| q l] eqn:E;
      [reflexivity |].
    change (last (q :: l) (v + gamma * prev) = last (q :: l) prev).
    apply last_default.
Qed.

Lemma last_lfilter_rev (gamma : Qc) (x : list Qc) :
  last (lfilter gamma 0 (rev x)) 0 = return_to_go gamma x.
Proof.
  induction x as [| r x IH]; cbn [rev return_to_go]; [reflexivity |].
  rewrite lfilter_app. cbn [lfilter]. rewrite last_last, IH. reflexivity.
Qed.

(** X15.  [discount] returns, for each step, the return from that step
    on: the sum of the rewards from it on, each multiplied by [gamma] once
    per step of distance.  The result is as long as the rewards, and its
    head is the first reward plus [gamma] times the head of the result for
    the remaining rewards. *)
Theorem discount_is_return_to_go (x : list Qc) (gamma : Qc) :
  discount x gamma = returns_to_go gamma x /\
  length (discount x gamma) = length x /\
  forall r x', x = r :: x' ->
    discount x gamma = (r + gamma * hd 0 (discount x' gamma)) :: discount x' gamma.
Proof.
  assert (H : forall x, discount x gamma = returns_to_go gamma x).
  { clear x. unfold discount. induction x as [| r x IH];
      cbn [rev returns_to_go]; [reflexivity |].
    rewrite lfilter_app, rev_app_distr, IH. cbn [lfilter rev app].
    rewrite last_lfilter_rev. reflexivity. }
  split; [apply H |]. split.
  - rewrite H. induction x as [| r x IH]; cbn; [reflexivity | now rewrite IH].
  - intros r x' ->. rewrite !H. cbn [returns_to_go return_to_go].
    destruct x'; reflexivity.
Qed.

End ReturnsFacts.

(** ** The main loop *)

Module GeneratorFacts.

Import String.
Import Num NumFacts Shards ShardsFacts Generator.
Local Open Scope string_scope.
Local Open Scope Z_scope.

Local Abbreviation lookup := Collect.lookup.

Section MainFacts.

Variables policy env obs action row metric exn world : Type.
Variable act :
  policy -> obs -> exn + (action * list (string * metric)) * policy.
Variable env_reset : env -> exn + obs * env.
Variable env_step :
  action -> env -> exn + (obs * bool * option (episode row)) * env.
Variable now : world -> Qc * world.
Variable load_checkpoint : policy -> world -> Z * policy * world.
Variable sleep : world -> world.
Variable metric_row : option metric -> row.
Variables seed steps_per_npz num_steps : Z.
Variable has_model : bool.
Variable model_reload_interval : Qc.
Variable L : list (string * list nat).
Variable limit : nat.

Local Abbreviation state := (Generator.state policy env row world).
Local Abbreviation unroll := (Generator.unroll act env_step).
Local Abbreviation main_loop :=
  (Generator.main_loop act env_reset env_step now load_checkpoint sleep
     metric_row seed steps_per_npz num_steps has_model model_reload_interval
     limit).
Local Abbreviation episodes_end :=
  (Generator.episodes_end act env_reset env_step metric_row L limit).
Local Abbreviation clock_runs := (Generator.clock_runs now).
Local Abbreviation Done := (@Generator.Done policy env row exn world).
Local Abbreviation OutOfFuel := (@Generator.OutOfFuel policy env row exn world).
Local Abbreviation run_loop := (@run_episodes row seed steps_per_npz).
Local Abbreviation recorded := (@Shards.recorded row L).
Local Abbreviation pending := (@Shards.pending row steps_per_npz).
Local Abbreviation flushes_ok := (@Shards.flushes_ok row seed steps_per_npz L).

(** An episode of the inner loop counts its steps twice, in [steps] and in
    [epsteps], once at least and once per unit of fuel at most. *)
Lemma unroll_counts (fuel : nat) : forall o p e s k m s' k' inf m' p' e',
  unroll fuel o p e s k m = Some (inr (s', k', inf, m', p', e')) ->
  s' - s = k' - k /\ 1 <= k' - k <= Z.of_nat fuel.
Proof.
  induction fuel as [| fuel IH]; intros o p e s k m s' k' inf m' p' e';
    cbn [Generator.unroll]; [discriminate |].
  destruct (act p o) as [x | [[a mets] p1]]; [discriminate |].
  destruct (env_step a e) as [x | [[[o1 done] inf1] e1]]; [discriminate |].
  destruct done.
  - intros [= <- <- <- <- <- <-]. lia.
  - intros H. apply IH in H. lia.
Qed.

(** With a clock that does not run backwards the division of line 162 is
    defined. *)
Lemma fps_defined (w : world) :
  clock_runs ->
  eqb (fst (now (snd (now w))) - fst (now w) + Q2Qc (1 # 1000000))%Qc 0 = false.
Proof.
  intros Hc. specialize (Hc w).
  destruct (eqb _ 0) eqn:E; [| reflexivity].
  apply eqb_eq in E. exfalso.
  assert (H : (0 < Q2Qc (1 # 1000000))%Qc) by reflexivity.
  remember (fst (now (snd (now w)))) as b. remember (fst (now w)) as a.
  remember (Q2Qc (1 # 1000000)) as c.
  assert (E' : (b - a + c <= 0)%Qc) by (rewrite E; apply Qcle_refl).
  clear E. qc_lra.
Qed.

Lemma main_loop_spec (wait_fuel fuel : nat) : forall (st : state) buf,
  has_model = false -> with_image L -> episodes_end -> clock_runs ->
  datas st = List.map snd buf -> Forall recorded buf -> pending buf ->
  (Z.to_nat (num_steps - steps st) < fuel)%nat ->
  exists st' eps groups rest,
    main_loop wait_fuel fuel st = Done st' /\
    num_steps <= steps st' /\
    (steps st < num_steps -> steps st' < num_steps + Z.of_nat limit) /\
    (num_steps <= steps st -> st' = st) /\
    steps st' = steps st + steps_taken eps /\
    episodes st' = episodes st + Z.of_nat (List.length eps) /\
    Forall recorded eps /\
    (buf ++ eps = List.concat groups ++ rest)%list /\
    datas st' = List.map snd rest /\
    (exists out, saved st' = saved st ++ out /\
       flushes_ok (episodes st - Z.of_nat (List.length buf)) groups out)%list /\
    pending rest.
Proof.
  induction fuel as [| fuel IH]; intros st buf Hm Himg He Hc Hd Hb Hp Hf; [lia |].
  cbn [Generator.main_loop].
  destruct (Z.ltb_spec (steps st) num_steps) as [Hlt | Hge].
  - assert (Hrel : reload now load_checkpoint sleep has_model
                     model_reload_interval wait_fuel st = Some st).
    { unfold reload. now rewrite Hm. }
    rewrite Hrel.
    pose proof (He (the_policy st) (the_env st) (steps st)) as Hep.
    pose proof (fps_defined (the_world st) Hc) as Hfps.
    destruct (now (the_world st)) as [timer w]. cbn [fst snd] in Hfps.
    destruct (env_reset (the_env st)) as [x | [o e]]; [destruct Hep |].
    destruct (unroll limit o (the_policy st) e (steps st) 0 [])
      as [[x | [[[[[s1 k] [dat |]] mets] p1] e1]] |] eqn:Eu;
      try (exfalso; exact Hep).
    destruct Hep as [Hrec Hrew].
    destruct (unroll_counts _ _ _ _ _ _ _ Eu) as [Hs Hk].
    destruct (now w) as [t w1]. cbn [fst] in Hfps. rewrite Hfps.
    destruct (lookup "reward" (with_metrics metric_row mets dat)) as [rw |];
      [| congruence].
    set (ep := (Z.to_nat k, with_metrics metric_row mets dat)) in *.
    assert (Hg1 : Forall recorded (buf ++ [ep])).
    { apply Forall_app. split; [exact Hb | now constructor]. }
    assert (Hst1 : steps_taken [ep] = k).
    { unfold steps_taken, ep. cbn. lia. }
    rewrite Hd.
    destruct (Z.le_gt_cases steps_per_npz (steps_taken (buf ++ [ep])))
      as [Hfl | Hke].
    + destruct (@save_flushes row seed steps_per_npz L buf ep (episodes st + 1)
                  Himg Hg1 Hfl) as (sh & Hsv & Hn & Hh).
      cbn [snd ep] in Hsv. rewrite Hsv. cbv beta iota.
      match goal with |- context [main_loop _ _ ?s] => set (st1 := s) end.
      destruct (IH st1 [] Hm Himg He Hc eq_refl (Forall_nil _)
                  (@pending_nil row steps_per_npz))
        as (st' & eps & groups & rest & Hml & Hns & Hup & Hid & Hst & Hepi
            & Hre & Hcc & Hdd & (out & Hsa & Ho) & Hpr).
      { subst st1. cbn [steps]. lia. }
      exists st', (ep :: eps), ((buf ++ [ep])%list :: groups), rest.
      split; [exact Hml |]. split; [exact Hns |].
      split.
      { intros _. destruct (Z.lt_ge_cases (steps st1) num_steps) as [H | H].
        - now apply Hup.
        - rewrite (Hid H). subst st1. cbn [steps]. lia. }
      split; [lia |].
      split.
      { rewrite Hst. subst st1. cbn [steps].
        change (ep :: eps) with ([ep] ++ eps)%list.
        rewrite steps_taken_app, Hst1. lia. }
      split; [rewrite Hepi; subst st1; cbn [episodes List.length]; lia |].
      split; [now constructor |].
      split.
      { cbn [List.concat]. cbn [app] in Hcc. rewrite Hcc, <- !app_assoc.
        reflexivity. }
      split; [exact Hdd |].
      split; [| exact Hpr].
      exists (sh :: out). split.
      { rewrite Hsa. subst st1. cbn [saved]. now rewrite <- app_assoc. }
      cbn [Shards.flushes_ok].
      split; [now destruct buf |].
      split.
      { rewrite Hn, shard_name_range
          by (rewrite length_app; cbn [List.length]; lia).
        rewrite !length_app. cbn [List.length]. f_equal; lia. }
      split; [exact Hh |]. split; [exact Hfl |]. split.
      { intros pre post E Hpre Hpost.
        destruct (@prefix_of_snoc _ buf pre post ep E Hpost)
          as [post' E'].
        apply (Hp pre post' E' Hpre). }
      subst st1. cbn [episodes List.length] in Ho.
      rewrite length_app. cbn [List.length].
      replace (episodes st - Z.of_nat (List.length buf) +
               Z.of_nat (List.length buf + 1))
        with (episodes st + 1 - Z.of_nat 0) by lia.
      exact Ho.
    + pose proof (@save_keeps row seed steps_per_npz L buf ep (episodes st + 1)
                    Hg1 Hke) as Hsv.
      cbn [snd ep] in Hsv. rewrite Hsv. cbv beta iota.
      match goal with |- context [main_loop _ _ ?s] => set (st1 := s) end.
      destruct (IH st1 (buf ++ [ep])%list Hm Himg He Hc eq_refl Hg1
                  (@pending_snoc row steps_per_npz buf ep Hp Hke))
        as (st' & eps & groups & rest & Hml & Hns & Hup & Hid & Hst & Hepi
            & Hre & Hcc & Hdd & (out & Hsa & Ho) & Hpr).
      { subst st1. cbn [steps]. lia. }
      exists st', (ep :: eps), groups, rest.
      split; [exact Hml |]. split; [exact Hns |].
      split.
      { intros _. destruct (Z.lt_ge_cases (steps st1) num_steps) as [H | H].
        - now apply Hup.
        - rewrite (Hid H). subst st1. cbn [steps]. lia. }
      split; [lia |].
      split.
      { rewrite Hst. subst st1. cbn [steps].
        change (ep :: eps) with ([ep] ++ eps)%list.
        rewrite steps_taken_app, Hst1. lia. }
      split; [rewrite Hepi; subst st1; cbn [episodes List.length]; lia |].
      split; [now constructor |].
      split; [rewrite <- Hcc, <- app_assoc; reflexivity |].
      split; [exact Hdd |].
      split; [| exact Hpr].
      exists out. split.
      { rewrite Hsa. subst st1. cbn [saved]. now rewrite app_nil_r. }
      subst st1. cbn [episodes] in Ho. rewrite length_app in Ho.
      cbn [List.length] in Ho.
      replace (episodes st - Z.of_nat (List.length buf))
        with (episodes st + 1 - Z.of_nat (List.length buf + 1)) by lia.
      exact Ho.
  - exists st, [], [], buf.
    split; [reflexivity |]. split; [exact Hge |].
    split; [lia |]. split; [reflexivity |].
    split; [cbn; lia |]. split; [cbn; lia |]. split; [constructor |].
    split; [now rewrite app_nil_r |].
    split; [exact Hd |].
    split; [| exact Hp].
    exists []. split; [now rewrite app_nil_r | exact I].
Qed.

(** X19.  For a policy without a model: where every episode ends within
    [limit] steps of its reset without an exception and hands over its
    record, with the layout [L] that has an image, a row under [reset] for
    the reset and for each step, and an entry [reward], and where the clock
    does not run backwards, the loop of [main], started with an empty
    buffer, ends and raises nothing: it runs no episode when the step count
    has reached the target already, and otherwise stops after the first
    episode that brings the count to the target, less than [limit] steps
    above it.  The count grows by the steps of the episodes run, which
    split, in order, into the groups written as shards and the episodes
    left in the buffer: the loop ends without writing the buffer, so that
    fewer steps can be saved than were asked for.  Each shard is named and
    filled as the passes of the buffer name and fill it. *)
Theorem main_reaches_the_target (wait_fuel fuel : nat) (st : state) :
  has_model = false -> with_image L -> episodes_end -> clock_runs ->
  datas st = [] ->
  (Z.to_nat (num_steps - steps st) < fuel)%nat ->
  exists st' eps groups rest,
    main_loop wait_fuel fuel st = Done st' /\
    num_steps <= steps st' /\
    (steps st < num_steps -> steps st' < num_steps + Z.of_nat limit) /\
    (num_steps <= steps st -> st' = st) /\
    steps st' = steps st + steps_taken eps /\
    episodes st' = episodes st + Z.of_nat (List.length eps) /\
    Forall recorded eps /\
    (eps = List.concat groups ++ rest)%list /\
    datas st' = List.map snd rest /\
    (exists out, saved st' = saved st ++ out /\
       flushes_ok (episodes st) groups out)%list /\
    pending rest.
Proof.
  intros Hm Himg He Hc Hd Hf.
  destruct (@main_loop_spec wait_fuel fuel st [] Hm Himg He Hc Hd
              (Forall_nil _) (@pending_nil row steps_per_npz) Hf)
    as (st' & eps & groups & rest & H).
  exists st', eps, groups, rest.
  cbn [app List.length] in H. now rewrite Z.sub_0_r in H.
Qed.

(** With a model, the loop waits for a checkpoint: where the last load is
    older than the reload interval and no checkpoint is found, no episode
    is run, whatever the fuel. *)
Lemma wait_without_checkpoint (fuel : nat) : forall p w,
  (forall p w, fst (fst (load_checkpoint p w)) = 0) ->
  wait_for_checkpoint now load_checkpoint sleep fuel p w = None.
Proof.
  induction fuel as [| fuel IH]; intros p w Hn; [reflexivity |].
  cbn [wait_for_checkpoint]. specialize (Hn p w) as Hs.
  destruct (load_checkpoint p w) as [[step p1] w1]. cbn [fst] in Hs.
  subst step. cbn. now apply IH.
Qed.

Lemma main_waits_for_checkpoint (wait_fuel fuel : nat) (st : state) :
  has_model = true -> steps st < num_steps ->
  ltb model_reload_interval
    (fst (now (the_world st)) - last_model_load st)%Qc = true ->
  (forall p w, fst (fst (load_checkpoint p w)) = 0) ->
  main_loop wait_fuel fuel st = OutOfFuel.
Proof.
  intros Hm Hlt Hdue Hn. destruct fuel as [| fuel]; [reflexivity |].
  cbn [Generator.main_loop].
  destruct (Z.ltb_spec (steps st) num_steps); [| lia].
  unfold reload. rewrite Hm.
  destruct (now (the_world st)) as [t w]. cbn [fst] in Hdue. rewrite Hdue.
  now rewrite wait_without_checkpoint.
Qed.

End MainFacts.

Lemma corridor_episodes_end :
  episodes_end idle corridor_reset corridor_step (fun _ => O)
    corridor_layout 3.
Proof.
  intros p e s. cbn. split; [| discriminate].
  split; [reflexivity |]. eexists. split; reflexivity.
Qed.

Lemma tick_runs : clock_runs tick.
Proof.
  intros w. unfold tick. cbn [fst snd]. unfold Qcle, of_Z.
  rewrite !this_Q2Qc. rewrite <- Zle_Qle. lia.
Qed.

Lemma corridor_with_image : with_image corridor_layout.
Proof. now exists 7%nat, 7%nat, 3%nat. Qed.

Lemma main_reaches_the_target_witness :
  let st := corridor_start in
  (false = false /\ with_image corridor_layout /\
   episodes_end idle corridor_reset corridor_step (fun _ => O)
     corridor_layout 3 /\
   clock_runs tick /\ datas st = [] /\ (Z.to_nat (7 - steps st) < 8)%nat) /\
  exists st' eps groups rest,
    main_loop idle corridor_reset corridor_step tick no_checkpoint (fun w => w)
      (fun _ => O) 0 5 7 false (of_Z 60) 3 5 8 st = Done unit st' /\
    7 <= steps st' /\
    (steps st < 7 -> steps st' < 7 + Z.of_nat 3) /\
    (7 <= steps st -> st' = st) /\
    steps st' = steps st + steps_taken eps /\
    episodes st' = episodes st + Z.of_nat (List.length eps) /\
    Forall (recorded corridor_layout) eps /\
    (eps = List.concat groups ++ rest)%list /\
    datas st' = List.map snd rest /\
    (exists out, saved st' = saved st ++ out /\
       flushes_ok 0 5 corridor_layout (episodes st) groups out)%list /\
    pending 5 rest.
Proof.
  intros st.
  assert (Hf : (Z.to_nat (7 - steps st) < 8)%nat) by (cbn; lia).
  split.
  { split; [reflexivity |]. split; [exact corridor_with_image |].
    split; [exact corridor_episodes_end |]. split; [exact tick_runs |].
    split; [reflexivity | exact Hf]. }
  apply (@main_reaches_the_target unit (list nat) nat unit nat unit unit nat
           idle corridor_reset corridor_step tick no_checkpoint (fun w => w)
           (fun _ => O) 0 5 7 false (of_Z 60) corridor_layout 3 5 8 st
           eq_refl corridor_with_image corridor_episodes_end tick_runs
           eq_refl Hf).
Defined.

(** On that input: three episodes of three steps, nine steps counted; the
    first two episodes are written as one shard of six steps, the third
    stays in the buffer when the loop ends, so that fewer steps are saved
    than the seven asked for.  With a model and no checkpoint to load, the
    same run does not get past the wait. *)
Example corridor_main_run :
  match corridor_main false 7 5 8 with
  | Done _ st' =>
      steps st' = 9 /\ episodes st' = 3 /\
      List.map (@fname nat) (saved st') = ["s0-ep000000_000001-0006.npz"] /\
      datas st' = [corridor_record [0; 1; 2; 3]%nat]
  | _ => False
  end /\
  corridor_main true 7 5 8 = OutOfFuel _ _ _ _ _.
Proof. vm_compute. repeat split; reflexivity. Qed.

End GeneratorFacts.
